(** * GameSolver: the generic puzzle solvers and two puzzle variants

    A shallow embedding of [puzzle_tools.py], [mn_puzzle.py] and
    [grid_peg_solitaire_puzzle.py], followed by the properties of the
    depth-first and breadth-first solvers.

    Python objects that are only built and never mutated (puzzles, the
    nodes made by the depth-first solver) are values.  The nodes of the
    breadth-first solver are mutated in place and point to their parent,
    so they live in a heap (a list indexed by node identity). *)

From Stdlib Require Import ZArith Ascii String.
From stdpp Require Import gmap strings list.

#[local] Set Warnings "-register-all,-clear-no-such-hyp".

(* ===================================================================== *)
(** * Part I. Definitions                                                 *)
(* ===================================================================== *)

(** The newline character, as a one-character string. *)
Definition nl : string := String "010"%char EmptyString.

(** ** The puzzle contract

    The operations the solvers call on a configuration: [is_solved],
    [fail_fast], [extensions] and [__str__] (here [str]). *)
Class Puzzle (C : Type) := {
  is_solved : C → bool;
  fail_fast : C → bool;
  extensions : C → list C;
  str : C → string;
}.

(** Modelled from the spec: [Puzzle.fail_fast] of the base class in
    [puzzle.py], which is not among the sources; a variant that does not
    override it always answers false. *)
Definition Puzzle_fail_fast {C : Type} (_ : C) : bool := false.

(** ** Solution trees

    The value of a [PuzzleNode] read along its [children] lists. *)
Inductive PuzzleTree (C : Type) : Type :=
  | TNode (t_puzzle : C) (t_children : list (PuzzleTree C)).
Arguments TNode {C} t_puzzle t_children.

Definition t_puzzle {C} (t : PuzzleTree C) : C :=
  match t with TNode p _ => p end.

Definition t_children {C} (t : PuzzleTree C) : list (PuzzleTree C) :=
  match t with TNode _ cs => cs end.

(** Every node has at most one child. *)
Fixpoint linear {C} (t : PuzzleTree C) : bool :=
  match t with
  | TNode _ [] => true
  | TNode _ [c] => linear c
  | TNode _ (_ :: _ :: _) => false
  end.

(** The configurations met when descending through first children. *)
Fixpoint chain {C} (t : PuzzleTree C) : list C :=
  match t with
  | TNode p [] => [p]
  | TNode p (c :: _) => p :: chain c
  end.

(** The configuration of the node the descent ends in. *)
Fixpoint final_puzzle {C} (t : PuzzleTree C) : C :=
  match t with
  | TNode p [] => p
  | TNode _ (c :: _) => final_puzzle c
  end.

(** Number of nodes of a tree. *)
Fixpoint node_count {C} (t : PuzzleTree C) : nat :=
  match t with
  | TNode _ cs => S (foldr (λ c n, node_count c + n) 0 cs)
  end.

(** Number of moves a returned chain encodes. *)
Definition moves {C} (t : PuzzleTree C) : nat := node_count t - 1.

(** ** Depth-first solver *)

(** The state threaded through one call of [depth_first_solve]: the
    shared set [seen], and a ghost record [calls] of every invocation of
    [_helper_dfs] in order, each with the set as it was on entry. *)
Record dfs_state (C : Type) := DfsState {
  dfs_seen : gset string;
  dfs_calls : list (C * gset string);
}.
Arguments DfsState {C}.
Arguments dfs_seen {C}.
Arguments dfs_calls {C}.

(** The [for x in list_extensions] loop of [_helper_dfs]; [rec] is the
    recursive call. *)
Fixpoint dfs_loop `{Puzzle C}
    (rec : C → dfs_state C → option (option (PuzzleTree C) * dfs_state C))
    (puzzle : C) (xs : list C) (st : dfs_state C)
    : option (option (PuzzleTree C) * dfs_state C) :=
  match xs with
  | [] => Some (None, st)
  | x :: xs' =>
      if decide (str x ∈ dfs_seen st) then dfs_loop rec puzzle xs' st
      else
        match rec x (DfsState ({[str x]} ∪ dfs_seen st) (dfs_calls st)) with
        | None => None
        | Some (Some node, st') => Some (Some (TNode puzzle [node]), st')
        | Some (None, st') => dfs_loop rec puzzle xs' st'
        end
  end.

(** [_helper_dfs]; [fuel] bounds the depth of the recursion, and the outer
    [None] means the bound was reached. *)
Fixpoint _helper_dfs `{Puzzle C} (fuel : nat) (puzzle : C) (st : dfs_state C)
    : option (option (PuzzleTree C) * dfs_state C) :=
  match fuel with
  | 0 => None
  | S fuel' =>
      let st := DfsState (dfs_seen st) (dfs_calls st ++ [(puzzle, dfs_seen st)]) in
      if is_solved puzzle then Some (Some (TNode puzzle []), st)
      else if fail_fast puzzle then Some (None, st)
      else dfs_loop (_helper_dfs fuel') puzzle (extensions puzzle) st
  end.

Definition dfs_init {C} : dfs_state C := DfsState ∅ [].

(** [depth_first_solve], with the final state of the call. *)
Definition depth_first_run `{Puzzle C} (fuel : nat) (puzzle : C)
    : option (option (PuzzleTree C) * dfs_state C) :=
  _helper_dfs fuel puzzle dfs_init.

Definition depth_first_solve `{Puzzle C} (fuel : nat) (puzzle : C)
    : option (option (PuzzleTree C)) :=
  fst <$> depth_first_run fuel puzzle.

(** ** Breadth-first solver *)

(** A [PuzzleNode] object: [children] and [parent] refer to other nodes of
    the heap by index. *)
Record PuzzleNode (C : Type) := MkNode {
  puzzle : C;
  children : list nat;
  parent : option nat;
}.
Arguments MkNode {C}.
Arguments puzzle {C}.
Arguments children {C}.
Arguments parent {C}.

(** The assignment [node.children = cs]. *)
Definition set_children {C} (cs : list nat) (nd : PuzzleNode C) : PuzzleNode C :=
  MkNode (puzzle nd) cs (parent nd).

(** [PuzzleNode.__str__] of the node [id]; [fuel] bounds the depth of the
    recursion through [children]. *)
Fixpoint PuzzleNode_str `{Puzzle C} (fuel : nat) (h : list (PuzzleNode C))
    (id : nat) : option string :=
  match fuel with
  | 0 => None
  | S fuel' =>
      nd ← h !! id;
      cs ← mapM (PuzzleNode_str fuel' h) (children nd);
      Some (str (puzzle nd) +:+ nl +:+ nl +:+ String.concat nl cs)
  end.

(** The tree below node [id]. *)
Fixpoint tree_of {C} (fuel : nat) (h : list (PuzzleNode C)) (id : nat)
    : option (PuzzleTree C) :=
  match fuel with
  | 0 => None
  | S fuel' =>
      nd ← h !! id;
      cs ← mapM (tree_of fuel' h) (children nd);
      Some (TNode (puzzle nd) cs)
  end.

(** [_helper_dfs_extension]: one fresh node per puzzle of [list_], with no
    children and the given parent; returns the new nodes and the heap. *)
Fixpoint _helper_dfs_extension {C} (list_ : list C) (parent : option nat)
    (h : list (PuzzleNode C)) : list nat * list (PuzzleNode C) :=
  match list_ with
  | [] => ([], h)
  | puzzle :: rest =>
      let '(ids, h') :=
        _helper_dfs_extension rest parent (h ++ [MkNode puzzle [] parent]) in
      (length h :: ids, h')
  end.

(** The state of the loop of [_helper_bfs]: the heap of nodes, the deque,
    the set [seen], and a ghost record [enqueued] of every node ever
    appended to the deque, in order. *)
Record bfs_state (C : Type) := BfsState {
  heap : list (PuzzleNode C);
  queue : list nat;
  seen : gset string;
  enqueued : list nat;
}.
Arguments BfsState {C}.
Arguments heap {C}.
Arguments queue {C}.
Arguments seen {C}.
Arguments enqueued {C}.

(** One round of [for PN in removed.children]. *)
Definition bfs_visit `{Puzzle C} (st : bfs_state C) (PN : nat) : bfs_state C :=
  match heap st !! PN with
  | None => st
  | Some nd =>
      if decide (str (puzzle nd) ∈ seen st) then st
      else
        let '(ids, h') :=
          _helper_dfs_extension (extensions (puzzle nd)) (Some PN) (heap st) in
        BfsState (<[PN := set_children ids nd]> h')
                 (queue st ++ [PN])
                 ({[str (puzzle nd)]} ∪ seen st)
                 (enqueued st ++ [PN])
  end.

(** The [while queue] loop; [fuel] bounds the number of rounds, and the
    outer [None] means the bound was reached. *)
Fixpoint bfs_loop `{Puzzle C} (fuel : nat) (st : bfs_state C)
    : option (option nat * bfs_state C) :=
  match fuel with
  | 0 => None
  | S fuel' =>
      match queue st with
      | [] => Some (None, st)
      | removed :: q =>
          let st := BfsState (heap st) q (seen st) (enqueued st) in
          nd ← heap st !! removed;
          if negb (is_solved (puzzle nd)) then
            if negb (fail_fast (puzzle nd)) then
              bfs_loop fuel' (foldl bfs_visit st (children nd))
            else bfs_loop fuel' st
          else Some (Some removed, st)
      end
  end.

(** The state of [_helper_bfs] when its loop starts. *)
Definition bfs_init `{Puzzle C} (puzzle : C) : option (bfs_state C) :=
  let '(ids, h) :=
    _helper_dfs_extension (extensions puzzle) (Some 0) [MkNode puzzle [] None] in
  let h := <[0 := MkNode puzzle ids None]> h in
  s ← PuzzleNode_str (length h) h 0;
  Some (BfsState h [0] {[s]} [0]).

Definition _helper_bfs `{Puzzle C} (fuel : nat) (puzzle : C)
    : option (option nat * bfs_state C) :=
  st ← bfs_init puzzle; bfs_loop fuel st.

(** The [while node.parent is not None] loop of [_helper_bfs_rebuild]. *)
Fixpoint rebuild_loop {C} (fuel : nat) (h : list (PuzzleNode C)) (node : nat)
    : option (nat * list (PuzzleNode C)) :=
  match fuel with
  | 0 => None
  | S fuel' =>
      nd ← h !! node;
      match parent nd with
      | None => Some (node, h)
      | Some tmp =>
          tnd ← h !! tmp;
          rebuild_loop fuel' (<[tmp := set_children [node] tnd]> h) tmp
      end
  end.

Definition _helper_bfs_rebuild {C} (h : list (PuzzleNode C)) (puzzlenode : nat)
    : option (nat * list (PuzzleNode C)) :=
  nd ← h !! puzzlenode;
  rebuild_loop (length h) (<[puzzlenode := set_children [] nd]> h) puzzlenode.

(** [breadth_first_solve]: the returned node with the heap it lives in. *)
Definition breadth_first_run `{Puzzle C} (fuel : nat) (puzzle : C)
    : option (option (nat * list (PuzzleNode C))) :=
  '(bfs, st) ← _helper_bfs fuel puzzle;
  match bfs with
  | Some node => Some <$> _helper_bfs_rebuild (heap st) node
  | None => Some None
  end.

(** [breadth_first_solve], the returned node read as a tree. *)
Definition breadth_first_solve `{Puzzle C} (fuel : nat) (puzzle : C)
    : option (option (PuzzleTree C)) :=
  r ← breadth_first_run fuel puzzle;
  match r with
  | Some (first_node, h) => Some <$> tree_of (length h) h first_node
  | None => Some None
  end.

(** ** Python sequences

    Indexing a list or tuple with an integer: a negative index counts from
    the end, and [None] stands for [IndexError]. *)
Definition py_index (len : nat) (i : Z) : option nat :=
  if (0 <=? i)%Z then
    (if (i <? Z.of_nat len)%Z then Some (Z.to_nat i) else None)
  else
    (if (- Z.of_nat len <=? i)%Z then Some (Z.to_nat (Z.of_nat len + i)) else None).

Definition py_get {A} (l : list A) (i : Z) : option A :=
  k ← py_index (length l) i; l !! k.

Definition py_set {A} (l : list A) (i : Z) (x : A) : option (list A) :=
  k ← py_index (length l) i; Some (<[k := x]> l).

(** [g[i][j]] and [g[i][j] = x] on a list of lists. *)
Definition get2 {A} (g : list (list A)) (i j : Z) : option A :=
  row ← py_get g i; py_get row j.

Definition set2 {A} (g : list (list A)) (i j : Z) (x : A) : option (list (list A)) :=
  row ← py_get g i; row' ← py_set row j x; py_set g i row'.

(** [range(len)] and [x in range(len)]. *)
Definition range (len : nat) : list Z := Z.of_nat <$> seq 0 len.

Definition in_range (x : Z) (len : nat) : bool :=
  (0 <=? x)%Z && (x <? Z.of_nat len)%Z.

(** [s[:-1]] on a string. *)
Definition drop_last (s : string) : string :=
  substring 0 (String.length s - 1) s.

(** The loops shared by both [__str__] methods: every symbol of every row,
    and a newline after each row. *)
Definition render_rows (markers : list (list string)) : string :=
  foldl (λ string_ i, foldl (λ s j, s +:+ j) string_ i +:+ nl) ""%string markers.

Definition render (markers : list (list string)) : string :=
  drop_last (render_rows markers) +:+ nl +:+ "_____"%string.

(** ** The sliding-tile puzzle of [mn_puzzle.py] *)
Module MN.

Record MNPuzzle := Mk {
  n : nat;
  m : nat;
  from_grid : list (list string);
  to_grid : list (list string);
}.

#[global] Instance MNPuzzle_eq_dec : EqDecision MNPuzzle.
Proof. solve_decision. Defined.

(** [MNPuzzle.__init__]; [None] when an assertion fails or an index is
    out of range. *)
Definition __init__ (from_grid to_grid : list (list string)) : option MNPuzzle :=
  if negb (0 <? length from_grid) then None else
  row0 ← py_get from_grid 0;
  if negb (forallb (λ r, length r =? length row0) from_grid) then None else
  ok ← mapM (λ r, t0 ← py_get to_grid 0; Some (length r =? length t0)) to_grid;
  if negb (forallb id ok) then None else
  Some (Mk (length from_grid) (length row0) from_grid to_grid).

(** [MNPuzzle.__eq__] against another [MNPuzzle]. *)
Definition __eq__ (self other : MNPuzzle) : bool :=
  bool_decide (n self = n other) && bool_decide (m self = m other) &&
  bool_decide (from_grid self = from_grid other) &&
  bool_decide (to_grid self = to_grid other).

Definition __str__ (self : MNPuzzle) : string := render (from_grid self).

(** [_extensions_helper_tuple_list] turns a tuple of tuples into a list
    of lists and back; both are lists here, so it only copies the rows. *)
Definition _extensions_helper_tuple_list (list_tuple : list (list string))
    : list (list string) :=
  foldl (λ extensions_tuple row, extensions_tuple ++ [row]) [] list_tuple.

(** The body of one of the four checks once its test has passed: copy
    the grid, swap the star at [(i, j)] with the symbol at [(i', j')],
    build the new puzzle with the same target. *)
Definition slide (self : MNPuzzle) (grid : list (list string))
    (i j i' j' : Z) : option MNPuzzle :=
  let grid_copy := (λ x, x) <$> grid in
  v ← get2 grid_copy i' j';
  g1 ← set2 grid_copy i j v;
  g2 ← set2 g1 i' j' "*"%string;
  __init__ (_extensions_helper_tuple_list g2) (to_grid self).

(** One check: [x in range(len) and grid[i'][j'].isalnum]; the method
    object [isalnum] is not called, so it counts as true once the symbol
    has been fetched. *)
Definition check (self : MNPuzzle) (grid : list (list string))
    (x : Z) (len : nat) (i j i' j' : Z) : option (list MNPuzzle) :=
  if in_range x len then
    _ ← get2 grid i' j';
    e ← slide self grid i j i' j';
    Some [e]
  else Some [].

(** The body of the two loops at cell [(i, j)]. *)
Definition cell_extensions (self : MNPuzzle) (grid : list (list string))
    (i j : Z) : option (list MNPuzzle) :=
  c ← get2 grid i j;
  if bool_decide (c = "*"%string) then
    right ← check self grid (j + 1) (m self) i j i (j + 1);
    left ← check self grid (j - 1) (m self) i j i (j - 1);
    above ← check self grid (i + 1) (n self) i j (i + 1) j;
    below ← check self grid (i - 1) (n self) i j (i - 1) j;
    Some (right ++ left ++ above ++ below)
  else Some [].

(** [MNPuzzle.extensions]. *)
Definition extensions (self : MNPuzzle) : option (list MNPuzzle) :=
  let grid := _extensions_helper_tuple_list (from_grid self) in
  (@concat _) <$> mapM (λ i,
    (@concat _) <$> mapM (λ j, cell_extensions self grid i j) (range (m self)))
    (range (n self)).

(** [MNPuzzle.is_solved]. *)
Definition is_solved (self : MNPuzzle) : bool :=
  bool_decide (from_grid self = to_grid self).

(** What [__init__] establishes about a puzzle. *)
Definition valid (p : MNPuzzle) : Prop :=
  __init__ (from_grid p) (to_grid p) = Some p.

End MN.

(** The sliding-tile puzzle as a configuration of the solvers.  A call of
    [extensions] that raised would end the solver; here it counts as a
    configuration without extensions.  On a puzzle made by [__init__]
    nothing is raised, see [MN_extensions_total]. *)
#[global] Instance MN_Puzzle : Puzzle MN.MNPuzzle := {|
  is_solved := MN.is_solved;
  fail_fast := Puzzle_fail_fast;
  extensions := λ p, default [] (MN.extensions p);
  str := MN.__str__;
|}.

(** ** The peg solitaire puzzle of [grid_peg_solitaire_puzzle.py] *)
Module GridPeg.

Record GridPegSolitairePuzzle := Mk {
  _marker : list (list string);
  _marker_set : gset string;
}.

(** [GridPegSolitairePuzzle.__init__]; [None] when an assertion fails. *)
Definition __init__ (marker : list (list string)) (marker_set : gset string)
    : option GridPegSolitairePuzzle :=
  if negb (0 <? length marker) then None else
  row0 ← py_get marker 0;
  if negb (forallb (λ x, length x =? length row0) (drop 1 marker)) then None else
  if negb (forallb (λ row, forallb (λ x, bool_decide (x ∈ marker_set)) row) marker)
  then None else
  if negb (forallb (λ x, bool_decide (x = "*"%string) || bool_decide (x = "."%string)
                        || bool_decide (x = "#"%string)) (elements marker_set))
  then None else
  Some (Mk marker marker_set).

Definition __str__ (self : GridPegSolitairePuzzle) : string :=
  render (_marker self).

Definition __eq__ (self other : GridPegSolitairePuzzle) : bool :=
  bool_decide (_marker self = _marker other) &&
  bool_decide (_marker_set self = _marker_set other).

(** The body of one of the four checks once its test has passed: in a
    copy of the grid the empty cell gets the peg and the two cells it
    jumped from and over become empty. *)
Definition jump (self : GridPegSolitairePuzzle) (i j i1 j1 i2 j2 : Z)
    : option GridPegSolitairePuzzle :=
  let grid_copy := (λ x, x) <$> _marker self in
  g1 ← set2 grid_copy i j "*"%string;
  g2 ← set2 g1 i1 j1 "."%string;
  g3 ← set2 g2 i2 j2 "."%string;
  __init__ g3 (_marker_set self).

(** One check: [x in range(len) and grid_[i1][j1] == "*" and
    grid_[i2][j2] == "*"], evaluated left to right. *)
Definition check (self : GridPegSolitairePuzzle) (grid_ : list (list string))
    (x : Z) (len : nat) (i j i1 j1 i2 j2 : Z)
    : option (list GridPegSolitairePuzzle) :=
  if in_range x len then
    a ← get2 grid_ i1 j1;
    if bool_decide (a = "*"%string) then
      b ← get2 grid_ i2 j2;
      if bool_decide (b = "*"%string) then
        e ← jump self i j i1 j1 i2 j2; Some [e]
      else Some []
    else Some []
  else Some [].

Definition cell_extensions (self : GridPegSolitairePuzzle)
    (grid_ : list (list string)) (i j : Z)
    : option (list GridPegSolitairePuzzle) :=
  c ← get2 grid_ i j;
  if bool_decide (c = "."%string) then
    row0 ← py_get grid_ 0;
    right ← check self grid_ (j + 2) (length row0) i j i (j + 1) i (j + 2);
    left ← check self grid_ (j - 2) (length row0) i j i (j - 1) i (j - 2);
    above ← check self grid_ (i + 2) (length grid_) i j (i + 1) j (i + 2) j;
    below ← check self grid_ (i - 2) (length grid_) i j (i - 1) j (i - 2) j;
    Some (right ++ left ++ above ++ below)
  else Some [].

(** [GridPegSolitairePuzzle.extensions]. *)
Definition extensions (self : GridPegSolitairePuzzle)
    : option (list GridPegSolitairePuzzle) :=
  let grid_ := (λ x, x) <$> _marker self in
  (@concat _) <$> mapM (λ i,
    row ← py_get (_marker self) i;
    (@concat _) <$> mapM (λ j, cell_extensions self grid_ i j) (range (length row)))
    (range (length grid_)).

(** [GridPegSolitairePuzzle.is_solved]. *)
Definition is_solved (self : GridPegSolitairePuzzle) : bool :=
  let count :=
    foldl (λ count item,
      foldl (λ count symbol,
        if bool_decide (symbol = "*"%string) then count + 1 else count)
        count item) 0 (_marker self) in
  count =? 1.

(** The puzzle of the first doctest of [extensions]. *)
Definition row_puzzle : option GridPegSolitairePuzzle :=
  __init__ [["*"; "*"; "."; "*"]%string] ({["*"; "."; "#"]})%string.

End GridPeg.

(** ** The state graph of a puzzle *)

(** [reachable root c]: some sequence of legal moves leads from [root] to
    [c]. *)
Inductive reachable `{Puzzle C} (root : C) : C → Prop :=
  | reachable_root : reachable root root
  | reachable_step c e :
      reachable root c → e ∈ extensions c → reachable root e.

(** [unpruned_path root n c]: [c] is reached from [root] by [n] moves,
    none of them made from a configuration that [fail_fast] prunes. *)
Inductive unpruned_path `{Puzzle C} (root : C) : nat → C → Prop :=
  | unpruned_root : unpruned_path root 0 root
  | unpruned_step n c e :
      unpruned_path root n c → fail_fast c = false → e ∈ extensions c →
      unpruned_path root (S n) e.

(** A solved configuration at the end of such a path. *)
Definition solution `{Puzzle C} (root : C) (n : nat) (c : C) : Prop :=
  unpruned_path root n c ∧ is_solved c = true.

(** Two implementations of the contract that answer alike. *)
Definition same_answers {C} (P1 P2 : Puzzle C) : Prop :=
  (∀ c, @is_solved C P1 c = @is_solved C P2 c) ∧
  (∀ c, @fail_fast C P1 c = @fail_fast C P2 c) ∧
  (∀ c, @extensions C P1 c = @extensions C P2 c) ∧
  (∀ c, @str C P1 c = @str C P2 c).

(** What a tree returned by the depth-first solver for [p] looks like. *)
Definition dfs_tree_ok `{Puzzle C} (p : C) (t : PuzzleTree C) : Prop :=
  t_puzzle t = p ∧ linear t = true ∧ is_solved (final_puzzle t) = true.

(** What the record of calls of one depth-first run must satisfy: every
    call but the first is on a configuration whose key is in the set on
    entry, and the key of a later call is in none of the earlier sets. *)
Definition dfs_calls_ok `{Puzzle C} (calls : list (C * gset string)) : Prop :=
  (∀ j x s, calls !! j = Some (x, s) → 0 < j → str x ∈ s) ∧
  (∀ i j x s y s',
     calls !! i = Some (x, s) → calls !! j = Some (y, s') → i < j → str y ∉ s).

(** The invariant of the state of a depth-first run, and what holds when
    [_helper_dfs] is entered on [p]. *)
Definition dfs_inv `{Puzzle C} (st : dfs_state C) : Prop :=
  dfs_calls_ok (dfs_calls st) ∧
  ∀ x s, (x, s) ∈ dfs_calls st → s ⊆ dfs_seen st.

Definition dfs_pre `{Puzzle C} (p : C) (st : dfs_state C) : Prop :=
  (dfs_calls st ≠ [] → str p ∈ dfs_seen st) ∧
  ∀ x s, (x, s) ∈ dfs_calls st → str p ∉ s.

(** What one call of [_helper_dfs] on [p] that ends in [r] adds to the
    state: the configurations of a returned chain are among the calls made,
    in order. *)
Definition dfs_call_spec `{Puzzle C} (p : C) (st : dfs_state C)
    (r : option (PuzzleTree C)) (st' : dfs_state C) : Prop :=
  dfs_inv st → dfs_pre p st →
  dfs_inv st' ∧ dfs_seen st ⊆ dfs_seen st' ∧
  ∃ new, dfs_calls st' = dfs_calls st ++ (p, dfs_seen st) :: new ∧
         ∀ t, r = Some t → chain t `sublist_of` p :: new.*1.

(** The heap and the string with which [_helper_bfs] enters its loop: the
    first node with one childless node per extension, and the rendering of
    that first node, which is what [seen] starts with. *)
Definition bfs_init_heap `{Puzzle C} (puzzle : C) : list (PuzzleNode C) :=
  MkNode puzzle (seq 1 (length (extensions puzzle))) None ::
  ((λ c, MkNode c [] (Some 0)) <$> extensions puzzle).

Definition first_node_str `{Puzzle C} (puzzle : C) : string :=
  str puzzle +:+ nl +:+ nl +:+
  String.concat nl ((λ e, str e +:+ nl +:+ nl +:+ String.concat nl []) <$> extensions puzzle).

(** The heap after node [PN], holding [nd], got one fresh child per
    configuration of [exts]. *)
Definition expand {C} (h : list (PuzzleNode C)) (PN : nat) (nd : PuzzleNode C)
    (exts : list C) : list (PuzzleNode C) :=
  <[PN := set_children (seq (length h) (length exts)) nd]>
    (h ++ ((λ c, MkNode c [] (Some PN)) <$> exts)).

(** The configuration held by node [id]. *)
Definition cfg {C} (h : list (PuzzleNode C)) (id : nat) : option C :=
  puzzle <$> h !! id.

(** A later heap: every node is still there, with its puzzle and parent. *)
Definition heap_le {C} (h h' : list (PuzzleNode C)) : Prop :=
  ∀ id nd, h !! id = Some nd →
    ∃ nd', h' !! id = Some nd' ∧ puzzle nd' = puzzle nd ∧ parent nd' = parent nd.

(** The shape of the heap of a breadth-first run from [root]: node 0 is
    the first node; parents are older than their children; the children
    of a node point back to it and hold extensions of its puzzle. *)
Record heap_ok `{Puzzle C} (root : C) (h : list (PuzzleNode C)) : Prop := {
  heap_root : ∃ nd, h !! 0 = Some nd ∧ puzzle nd = root ∧ parent nd = None;
  heap_parent : ∀ id nd p, h !! id = Some nd → parent nd = Some p → p < id;
  heap_orphan : ∀ id nd, h !! id = Some nd → parent nd = None → id = 0;
  heap_children : ∀ id nd c, h !! id = Some nd → c ∈ children nd →
    ∃ cn, h !! c = Some cn ∧ parent cn = Some id ∧
          puzzle cn ∈ extensions (puzzle nd);
  heap_reachable : ∀ id nd, h !! id = Some nd → reachable root (puzzle nd);
}.

(** The canonical key of the configuration held by node [id]. *)
Definition key `{Puzzle C} (h : list (PuzzleNode C)) (id : nat) : option string :=
  str <$> cfg h id.

(** [depth h id d]: the parent chain of node [id] has [d] links. *)
Inductive depth {C} (h : list (PuzzleNode C)) : nat → nat → Prop :=
  | depth_0 id nd : h !! id = Some nd → parent nd = None → depth h id 0
  | depth_S id nd p d :
      h !! id = Some nd → parent nd = Some p → depth h p d → depth h id (S d).

(** The invariant of the loop of [_helper_bfs]: [D] are the nodes taken off
    the deque so far and [lvl] is the depth of the last of them.  Every
    node ever put on the deque has its children computed; apart from the
    first node their keys are distinct and are, with the rendering of the
    first node, exactly the content of [seen]; the deque holds nodes of
    depth [lvl] followed by nodes of depth [lvl + 1]. *)
Record bfs_inv `{Puzzle C} (root : C) (D : list nat) (lvl : nat)
    (st : bfs_state C) : Prop := {
  inv_heap : heap_ok root (heap st);
  inv_split : enqueued st = D ++ queue st;
  inv_head : ∃ E, enqueued st = 0 :: E ∧ NoDup (key (heap st) <$> E) ∧
      ∀ k, k ∈ seen st ↔
           k = first_node_str root ∨ Some k ∈ key (heap st) <$> E;
  inv_expanded : ∀ id, id ∈ enqueued st →
      ∃ nd, heap st !! id = Some nd ∧
            Forall2 (λ c e, cfg (heap st) c = Some e)
                    (children nd) (extensions (puzzle nd));
  inv_done : ∀ id, id ∈ D → ∃ d, depth (heap st) id d ∧ d ≤ lvl;
  inv_level : ∃ Q1 Q2, queue st = Q1 ++ Q2 ∧
      (∀ id, id ∈ Q1 → depth (heap st) id lvl) ∧
      (∀ id, id ∈ Q2 → depth (heap st) id (S lvl));
}.

(** Every node of [D] was found unsolved, and unless it was pruned each of
    its extensions is covered: its key is the string [seen] started with,
    or is the key of a node put on the deque at most one level deeper. *)
Definition processed `{Puzzle C} (root : C) (D : list nat) (st : bfs_state C) : Prop :=
  ∀ id nd, id ∈ D → heap st !! id = Some nd →
    is_solved (puzzle nd) = false ∧
    (fail_fast (puzzle nd) = false → ∀ e, e ∈ extensions (puzzle nd) →
       str e = first_node_str root ∨
       ∃ id' d d', id' ∈ enqueued st ∧ key (heap st) id' = Some (str e) ∧
                   depth (heap st) id d ∧ depth (heap st) id' d' ∧ d' ≤ S d).

(** How one state of the loop relates to a later one. *)
Record bfs_le {C} (st st' : bfs_state C) : Prop := {
  le_heap : heap_le (heap st) (heap st');
  le_seen : seen st ⊆ seen st';
  le_enqueued : enqueued st `prefix_of` enqueued st';
}.

(** Node [id] heads a chain in the heap: each node has the next one as its
    only child and the last one has none. *)
Fixpoint is_chain {C} (h : list (PuzzleNode C)) (id : nat) (rest : list nat) : Prop :=
  match rest with
  | [] => ∃ nd, h !! id = Some nd ∧ children nd = []
  | id' :: rest' =>
      ∃ nd, h !! id = Some nd ∧ children nd = [id'] ∧ is_chain h id' rest'
  end.

(** The rendering of a grid written without accumulators: the symbols of
    each row, a newline after each row, then [tail]. *)
Fixpoint row_str (row : list string) (tail : string) : string :=
  match row with
  | [] => tail
  | s :: row' => s +:+ row_str row' tail
  end.

Fixpoint rows_str (g : list (list string)) (tail : string) : string :=
  match g with
  | [] => tail
  | row :: g' => row_str row (nl +:+ rows_str g' tail)
  end.

(** A grid of [n] rows of [m] symbols. *)
Definition shape (n m : nat) (g : list (list string)) : Prop :=
  length g = n ∧ Forall (λ row, length row = m) g.

(** Every symbol of the grid is a single character. *)
Definition single_chars (g : list (list string)) : Prop :=
  Forall (Forall (λ s, String.length s = 1)) g.

(** The tree that is the chain of the configurations [p :: rest]. *)
Fixpoint chain_tree {C} (p : C) (rest : list C) : PuzzleTree C :=
  match rest with
  | [] => TNode p []
  | q :: rest' => TNode p [chain_tree q rest']
  end.

(** The configuration reached by taking, move after move, the extension
    with the given index. *)
Fixpoint follow `{Puzzle C} (p : C) (ks : list nat) : option C :=
  match ks with
  | [] => Some p
  | k :: ks' => e ← extensions p !! k; follow e ks'
  end.

(** ** Concrete puzzles *)

(** Sliding tiles, 2x2: one move away from the target, by the second
    extension; the first extension leads back to the start. *)
Definition mn_cycle : MN.MNPuzzle :=
  MN.Mk 2 2 [["1"; "2"]; ["3"; "*"]]%string [["1"; "*"]; ["3"; "2"]]%string.

(** Sliding tiles, 2x2, already at the target. *)
Definition mn_solved : MN.MNPuzzle :=
  MN.Mk 2 2 [["1"; "2"]; ["3"; "*"]]%string [["1"; "2"]; ["3"; "*"]]%string.

(** Sliding tiles, 1x2, with a target that holds another tile: two
    reachable configurations, none solved. *)
Definition mn_stuck : MN.MNPuzzle :=
  MN.Mk 1 2 [["*"; "1"]]%string [["1"; "2"]]%string.

Definition mn_stuck' : MN.MNPuzzle :=
  MN.Mk 1 2 [["1"; "*"]]%string [["1"; "2"]]%string.

(** The fifteen puzzle, shuffled, and the same with the tiles 1 and 11 and
    the tiles 12 and 2 exchanged. *)
Definition fifteen_target : list (list string) :=
  [["1"; "2"; "3"; "4"]; ["5"; "6"; "7"; "8"];
   ["9"; "10"; "11"; "12"]; ["13"; "14"; "15"; "*"]]%string.

Definition fifteen : MN.MNPuzzle :=
  MN.Mk 4 4 [["1"; "12"; "3"; "4"]; ["11"; "2"; "5"; "*"];
             ["6"; "7"; "8"; "9"]; ["10"; "13"; "14"; "15"]]%string
            fifteen_target.

Definition fifteen' : MN.MNPuzzle :=
  MN.Mk 4 4 [["11"; "2"; "3"; "4"]; ["1"; "12"; "5"; "*"];
             ["6"; "7"; "8"; "9"]; ["10"; "13"; "14"; "15"]]%string
            fifteen_target.

Definition fifteen_moves : list nat :=
  [0; 1; 1; 2; 0; 2; 0; 2; 1; 1; 2; 2; 0; 2; 1; 1; 0; 0; 3; 0].

(** A puzzle with five configurations: from [Start] the only move leads to
    [Mid]; from [Mid] one move leads to the solved [Near] and another to
    [Far], from which one more move leads to the solved [Goal].  [Near]
    renders as the text that [PuzzleNode.__str__] gives for the first node
    of a search from [Start]. *)
Inductive maze := Start | Mid | Near | Far | Goal.

#[global] Instance maze_eq_dec : EqDecision maze.
Proof. solve_decision. Defined.

#[global] Instance maze_Puzzle : Puzzle maze := {|
  is_solved c := match c with Near | Goal => true | _ => false end;
  fail_fast := Puzzle_fail_fast;
  extensions c :=
    match c with
    | Start => [Mid]
    | Mid => [Near; Far]
    | Far => [Goal]
    | Near | Goal => []
    end;
  str c :=
    match c with
    | Start => "start"
    | Mid => "mid"
    | Near => "start" +:+ nl +:+ nl +:+ "mid" +:+ nl +:+ nl
    | Far => "far"
    | Goal => "goal"
    end%string;
|}.

(** Sliding tiles, 1x2, one move away from the target. *)
Definition mn_slide : MN.MNPuzzle :=
  MN.Mk 1 2 [["*"; "1"]]%string [["1"; "*"]]%string.

Definition mn_slide' : MN.MNPuzzle :=
  MN.Mk 1 2 [["1"; "*"]]%string [["1"; "*"]]%string.

(** What the solvers rely on for a sliding-tile configuration [c] met in a
    search from [root]: same target and dimensions, a grid of these
    dimensions, single-character symbols. *)
Definition mn_inv (root c : MN.MNPuzzle) : Prop :=
  MN.to_grid c = MN.to_grid root ∧ MN.n c = MN.n root ∧ MN.m c = MN.m root ∧
  shape (MN.n root) (MN.m root) (MN.from_grid c) ∧
  single_chars (MN.from_grid c).

(** The test that [MNPuzzle.__init__] makes on the target grid: every row
    is as long as the first one. *)
Definition target_ok (to_grid : list (list string)) : Prop :=
  ∃ ok, mapM (λ r, t0 ← py_get to_grid 0; Some (length r =? length t0)) to_grid
          = Some ok ∧ forallb id ok = true.

(** ** Paths of moves *)

(** Each configuration of [l] is an extension of the one before it. *)
Fixpoint is_path `{Puzzle C} (l : list C) : Prop :=
  match l with
  | a :: l' => match l' with b :: _ => b ∈ extensions a | [] => True end ∧ is_path l'
  | [] => True
  end.

(** A configuration the search went through: neither solved nor pruned. *)
Definition expanded `{Puzzle C} (c : C) : Prop :=
  is_solved c = false ∧ fail_fast c = false.

(** What the tree [t] returned for [p] encodes: a sequence of legal moves
    from [p], through configurations that are neither solved nor pruned, to
    a solved configuration. *)
Definition sound_tree `{Puzzle C} (p : C) (t : PuzzleTree C) : Prop :=
  t_puzzle t = p ∧ linear t = true ∧
  is_path (chain t) ∧ Forall expanded (removelast (chain t)) ∧
  unpruned_path p (length (chain t) - 1) (final_puzzle t) ∧
  is_solved (final_puzzle t) = true.

(** [c] is exhausted with respect to the keys [s]: it is not solved, and
    unless it is pruned all its extensions have their key in [s]. *)
Definition closed `{Puzzle C} (s : gset string) (c : C) : Prop :=
  is_solved c = false ∧
  (fail_fast c = false → ∀ e, e ∈ extensions c → str e ∈ s).

(** Every reachable configuration whose key is in [s] is exhausted, save
    those whose key is in [G] (the configurations still being explored). *)
Definition dfs_closed `{Puzzle C} (root : C) (s G : gset string) : Prop :=
  ∀ c, reachable root c → str c ∈ s → str c ∈ G ∨ closed s c.

(** Every node ever put on the deque, apart from the first node, has a
    parent that was put on the deque before, was found neither solved nor
    pruned, and of whose puzzle the node holds an extension. *)
Definition enq_parents `{Puzzle C} (st : bfs_state C) : Prop :=
  ∀ id nd, id ∈ enqueued st → heap st !! id = Some nd →
    id = 0 ∨
    ∃ p pn, parent nd = Some p ∧ p ∈ enqueued st ∧ heap st !! p = Some pn ∧
            expanded (puzzle pn) ∧ puzzle nd ∈ extensions (puzzle pn).

(** [ancestors h id up]: [up] lists node [id], its parent, the parent of
    its parent, and so on up to a node without parent. *)
Inductive ancestors {C} (h : list (PuzzleNode C)) : nat → list nat → Prop :=
  | ancestors_root id nd :
      h !! id = Some nd → parent nd = None → ancestors h id [id]
  | ancestors_step id nd p up :
      h !! id = Some nd → parent nd = Some p → ancestors h p up →
      ancestors h id (id :: up).


(** ** Cells of a grid *)

(** The symbol at row [i], column [j], both counted from zero. *)
Definition cell_at {A} (g : list (list A)) (i j : nat) : option A :=
  row ← g !! i; row !! j.

(** The grid with the symbol at row [i], column [j] replaced by [x]. *)
Definition upd {A} (g : list (list A)) (i j : nat) (x : A) : list (list A) :=
  alter (<[j := x]>) i g.

(** The cells [(i, j)] and [(i', j')] are next to each other in a row or in
    a column. *)
Definition adjacent (i j i' j' : nat) : Prop :=
  (i' = i ∧ (j' = S j ∨ j = S j')) ∨ (j' = j ∧ (i' = S i ∨ i = S i')).

(** [MN_move p e]: [e] is [p] after one legal move, as the comment above
    [MNPuzzle.extensions] defines it: the star and a symbol to its left,
    right, above or below have changed places, every other cell is as it
    was, and so are the dimensions and the target. *)
Definition MN_move (p e : MN.MNPuzzle) : Prop :=
  ∃ i j i' j' v, adjacent i j i' j' ∧
    cell_at (MN.from_grid p) i j = Some "*"%string ∧
    cell_at (MN.from_grid p) i' j' = Some v ∧
    MN.n e = MN.n p ∧ MN.m e = MN.m p ∧ MN.to_grid e = MN.to_grid p ∧
    shape (MN.n p) (MN.m p) (MN.from_grid e) ∧
    cell_at (MN.from_grid e) i j = Some v ∧
    cell_at (MN.from_grid e) i' j' = Some "*"%string ∧
    ∀ a b, (a, b) ≠ (i, j) → (a, b) ≠ (i', j') →
           cell_at (MN.from_grid e) a b = cell_at (MN.from_grid p) a b.

(** ** Legal moves of peg solitaire *)

(** The peg solitaire puzzle as a configuration of the solvers; as for the
    sliding tiles, a call of [extensions] that raised counts as a
    configuration without extensions. *)
#[global] Instance GridPeg_Puzzle : Puzzle GridPeg.GridPegSolitairePuzzle := {|
  is_solved := GridPeg.is_solved;
  fail_fast := Puzzle_fail_fast;
  extensions := λ p, default [] (GridPeg.extensions p);
  str := GridPeg.__str__;
|}.

(** What [__init__] establishes about a peg solitaire puzzle. *)
Definition peg_valid (p : GridPeg.GridPegSolitairePuzzle) : Prop :=
  GridPeg.__init__ (GridPeg._marker p) (GridPeg._marker_set p) = Some p.

(** The number of pegs on a grid. *)
Definition pegs (g : list (list string)) : nat :=
  length (filter (λ s, s = "*"%string) (concat g)).

(** The cells [(i, j)], [(i1, j1)], [(i2, j2)] follow each other in a row
    or in a column. *)
Definition in_line (i j i1 j1 i2 j2 : nat) : Prop :=
  (i1 = i ∧ i2 = i ∧ ((j1 = S j ∧ j2 = S (S j)) ∨ (j = S j1 ∧ j = S (S j2)))) ∨
  (j1 = j ∧ j2 = j ∧ ((i1 = S i ∧ i2 = S (S i)) ∨ (i = S i1 ∧ i = S (S i2)))).

(** [Peg_move p e]: [e] is [p] after a single jump: a peg two cells away
    from an empty cell has jumped into it over the peg between them, which
    is removed; every other cell is as it was, and so are the dimensions
    and the allowed markers. *)
Definition Peg_move (p e : GridPeg.GridPegSolitairePuzzle) : Prop :=
  ∃ n m i j i1 j1 i2 j2, in_line i j i1 j1 i2 j2 ∧
    shape n m (GridPeg._marker p) ∧ shape n m (GridPeg._marker e) ∧
    GridPeg._marker_set e = GridPeg._marker_set p ∧
    cell_at (GridPeg._marker p) i j = Some "."%string ∧
    cell_at (GridPeg._marker p) i1 j1 = Some "*"%string ∧
    cell_at (GridPeg._marker p) i2 j2 = Some "*"%string ∧
    cell_at (GridPeg._marker e) i j = Some "*"%string ∧
    cell_at (GridPeg._marker e) i1 j1 = Some "."%string ∧
    cell_at (GridPeg._marker e) i2 j2 = Some "."%string ∧
    ∀ a b, (a, b) ≠ (i, j) → (a, b) ≠ (i1, j1) → (a, b) ≠ (i2, j2) →
           cell_at (GridPeg._marker e) a b = cell_at (GridPeg._marker p) a b.

(** The test that [GridPegSolitairePuzzle.__init__] makes on the set of
    allowed markers. *)
Definition marker_set_ok (marker_set : gset string) : bool :=
  forallb (λ x, bool_decide (x = "*"%string) || bool_decide (x = "."%string)
                || bool_decide (x = "#"%string)) (elements marker_set).

(** The row of the first doctest of [extensions], and its only extension. *)
Definition peg_row : GridPeg.GridPegSolitairePuzzle :=
  GridPeg.Mk [["*"; "*"; "."; "*"]%string] ({["*"; "."; "#"]})%string.

Definition peg_row' : GridPeg.GridPegSolitairePuzzle :=
  GridPeg.Mk [["."; "."; "*"; "*"]%string] ({["*"; "."; "#"]})%string.

(** Sliding tiles, 1x2, with a target of two rows. *)
Definition mn_misfit : MN.MNPuzzle :=
  MN.Mk 1 2 [["*"; "1"]]%string [["1"]; ["*"]]%string.

(** A row with two pegs that cannot jump. *)
Definition peg_apart : GridPeg.GridPegSolitairePuzzle :=
  GridPeg.Mk [["*"; "."; "*"]%string] ({["*"; "."; "#"]})%string.

(** A puzzle without end: the only move from [Count n] leads to
    [Count (n + 1)], no configuration is solved, and the key of [Count n]
    is a row of [n] strokes. *)
Inductive counter := Count (n : nat).

Fixpoint strokes (n : nat) : string :=
  match n with
  | 0 => ""%string
  | S n' => String "|"%char (strokes n')
  end.

#[global] Instance counter_Puzzle : Puzzle counter := {|
  is_solved _ := false;
  fail_fast := Puzzle_fail_fast;
  extensions c := match c with Count n => [Count (S n)] end;
  str c := match c with Count n => strokes n end;
|}.
(* ===================================================================== *)
(** * Part II. Properties                                                 *)
(* ===================================================================== *)

(** ** Depth-first solver *)

Section dfs.
Context `{Puzzle C}.

Implicit Types (p x : C) (st : dfs_state C) (t : PuzzleTree C).

Lemma dfs_loop_tree rec p xs st t st' :
  (∀ x st1 t1 st2, rec x st1 = Some (Some t1, st2) → dfs_tree_ok x t1) →
  dfs_loop rec p xs st = Some (Some t, st') → dfs_tree_ok p t.
Proof.
  intros Hrec. revert st. induction xs as [|x xs IH]; intros st; simpl.
  - discriminate.
  - destruct (decide _) as [_|_]; [by apply IH|].
    destruct (rec x _) as [[[t1|] st2]|] eqn:E; [|by apply IH|discriminate].
    intros [= <- <-]. destruct (Hrec _ _ _ _ E) as (Hp & Hl & Hs).
    by repeat split.
Qed.

Lemma _helper_dfs_tree fuel p st t st' :
  _helper_dfs fuel p st = Some (Some t, st') → dfs_tree_ok p t.
Proof.
  revert p st t st'. induction fuel as [|fuel IH]; intros p st t st'; simpl.
  - discriminate.
  - destruct (is_solved p) eqn:Hs.
    + intros [= <- <-]. by repeat split.
    + destruct (fail_fast p); [discriminate|].
      apply dfs_loop_tree. intros x st1 t1 st2. apply IH.
Qed.

(** More fuel does not change a result. *)
Lemma dfs_loop_mono (rec rec' : C → dfs_state C → _) p xs st r :
  (∀ x st1 r1, rec x st1 = Some r1 → rec' x st1 = Some r1) →
  dfs_loop rec p xs st = Some r → dfs_loop rec' p xs st = Some r.
Proof.
  intros Hrec. revert st. induction xs as [|x xs IH]; intros st; simpl; [done|].
  destruct (decide _) as [_|_]; [by apply IH|].
  destruct (rec x _) as [[[t1|] st2]|] eqn:E; [| |discriminate];
    rewrite (Hrec _ _ _ E); [done|by apply IH].
Qed.

Lemma _helper_dfs_mono fuel fuel' p st r :
  fuel ≤ fuel' → _helper_dfs fuel p st = Some r → _helper_dfs fuel' p st = Some r.
Proof.
  revert fuel' p st r. induction fuel as [|fuel IH]; intros fuel' p st r Hle; simpl.
  - discriminate.
  - destruct fuel' as [|fuel']; [lia|]. simpl.
    destruct (is_solved p); [done|]. destruct (fail_fast p); [done|].
    apply dfs_loop_mono. intros x st1 r1. apply IH. lia.
Qed.

End dfs.

(** Implementations that answer alike give the same run. *)
Lemma dfs_loop_ext {C} (P1 P2 : Puzzle C) rec rec' p xs st :
  same_answers P1 P2 →
  (∀ x st1, rec x st1 = rec' x st1) →
  @dfs_loop C P1 rec p xs st = @dfs_loop C P2 rec' p xs st.
Proof.
  intros (_ & _ & _ & Hstr) Hrec. revert st.
  induction xs as [|x xs IH]; intros st; simpl; [done|].
  rewrite Hstr, Hrec. destruct (decide _); [done|].
  destruct (rec' x _) as [[[t1|] st2]|]; done.
Qed.

Lemma _helper_dfs_ext {C} (P1 P2 : Puzzle C) fuel p st :
  same_answers P1 P2 →
  @_helper_dfs C P1 fuel p st = @_helper_dfs C P2 fuel p st.
Proof.
  intros HP. revert p st. induction fuel as [|fuel IH]; intros p st; simpl; [done|].
  destruct HP as (Hs & Hf & He & Hstr). rewrite Hs, Hf, He.
  destruct (is_solved p); [done|]. destruct (fail_fast p); [done|].
  apply dfs_loop_ext; [done|]. intros x st1. apply IH.
Qed.

Section dfs_calls.
Context `{Puzzle C}.

Implicit Types (p x : C) (st : dfs_state C) (t : PuzzleTree C).

Lemma dfs_inv_enter p st :
  dfs_inv st → dfs_pre p st →
  dfs_inv (DfsState (dfs_seen st) (dfs_calls st ++ [(p, dfs_seen st)])).
Proof.
  intros [[Hin Hout] Hsub] [Hp Hfresh]. split; [split|]; simpl.
  - intros j x s Hj Hpos. apply lookup_app_Some in Hj as [Hj|[Hlen Hj]].
    + eauto.
    + apply list_lookup_singleton_Some in Hj as [Hj0 [= <- <-]].
      apply Hp. intros E. rewrite E in Hlen, Hj0. simpl in *. lia.
  - intros i j x s y s' Hi Hj Hij.
    apply lookup_app_Some in Hj as [Hj|[Hlen Hj]].
    + apply lookup_app_Some in Hi as [Hi|[Hlen' _]]; [eauto|].
      apply lookup_lt_Some in Hj. lia.
    + apply list_lookup_singleton_Some in Hj as [Hjl [= <- <-]].
      apply lookup_app_Some in Hi as [Hi|[Hlen' _]]; [|lia].
      eapply Hfresh, list_elem_of_lookup_2, Hi.
  - intros x s [Hx|Hx]%elem_of_app; [eauto|].
    apply list_elem_of_singleton in Hx as [= -> ->]. done.
Qed.

Lemma dfs_inv_mark x st :
  dfs_inv st → str x ∉ dfs_seen st →
  let st1 := DfsState ({[str x]} ∪ dfs_seen st) (dfs_calls st) in
  dfs_inv st1 ∧ dfs_pre x st1.
Proof.
  intros [Hok Hsub] Hx. repeat split; simpl; try apply Hok.
  - intros y s Hy. specialize (Hsub _ _ Hy). set_solver.
  - set_solver.
  - intros y s Hy Hin. specialize (Hsub _ _ Hy). set_solver.
Qed.

Lemma dfs_loop_calls rec p xs st r st' :
  (∀ x st1 r1 st2, rec x st1 = Some (r1, st2) → dfs_call_spec x st1 r1 st2) →
  dfs_loop rec p xs st = Some (r, st') →
  dfs_inv st →
  dfs_inv st' ∧ dfs_seen st ⊆ dfs_seen st' ∧
  ∃ new, dfs_calls st' = dfs_calls st ++ new ∧
         ∀ t, r = Some t → tail (chain t) `sublist_of` new.*1.
Proof.
  intros Hrec. revert st. induction xs as [|x xs IH]; intros st; simpl.
  - intros [= <- <-] Hinv. split; [done|]. split; [done|].
    exists []. rewrite app_nil_r. split; [done|]. discriminate.
  - destruct (decide _) as [_|Hx]; [apply IH|].
    destruct (rec x _) as [[r1 st2]|] eqn:E; [|discriminate].
    intros Hloop Hinv.
    destruct (dfs_inv_mark x st Hinv Hx) as [Hinv1 Hpre1].
    destruct (Hrec _ _ _ _ E Hinv1 Hpre1) as (Hinv2 & Hsub2 & new & Hnew & Hch).
    simpl in *. destruct r1 as [node|].
    + injection Hloop as <- <-. split; [done|]. split; [set_solver|].
      eexists. split; [exact Hnew|]. intros t [= <-]. simpl.
      by apply Hch.
    + destruct (IH _ Hloop Hinv2) as (Hinv3 & Hsub3 & new' & Hnew' & Hch').
      split; [done|]. split; [set_solver|].
      exists ((x, {[str x]} ∪ dfs_seen st) :: new ++ new').
      split.
      * rewrite Hnew', Hnew. by rewrite <-app_assoc.
      * intros t Ht. rewrite fmap_cons, fmap_app.
        apply sublist_cons, sublist_inserts_l. by apply Hch'.
Qed.

Lemma _helper_dfs_calls fuel p st r st' :
  _helper_dfs fuel p st = Some (r, st') → dfs_call_spec p st r st'.
Proof.
  revert p st r st'. induction fuel as [|fuel IH]; intros p st r st'; simpl.
  - discriminate.
  - intros Hrun Hinv Hpre. pose proof (dfs_inv_enter p st Hinv Hpre) as Hinv1.
    destruct (is_solved p).
    { injection Hrun as <- <-. split; [done|]. split; [done|]. exists [].
      split; [done|]. intros t [= <-]. simpl. done. }
    destruct (fail_fast p).
    { injection Hrun as <- <-. split; [done|]. split; [done|]. exists [].
      split; [done|]. discriminate. }
    destruct (dfs_loop_calls _ _ _ _ _ _ IH Hrun Hinv1)
      as (Hinv2 & Hsub & new & Hnew & Hch).
    simpl in *. split; [done|]. split; [done|]. exists new.
    split; [by rewrite Hnew, <-app_assoc|].
    intros t ->. specialize (Hch t eq_refl).
    apply dfs_loop_tree in Hrun as [Hp _].
    2:{ intros ????. apply _helper_dfs_tree. }
    destruct t as [q [|c cs]]; simpl in *; subst q.
    + by apply sublist_skip, sublist_nil_l.
    + by apply sublist_skip.
Qed.

Lemma depth_first_run_calls fuel root r st :
  depth_first_run fuel root = Some (r, st) →
  dfs_calls_ok (dfs_calls st) ∧
  ∃ new, dfs_calls st = (root, ∅) :: new ∧
         ∀ t, r = Some t → chain t `sublist_of` root :: new.*1.
Proof.
  intros Hrun. apply _helper_dfs_calls in Hrun.
  destruct Hrun as ([Hok _] & _ & new & Hnew & Hch).
  - split; [split|]; simpl; [intros ???; by rewrite lookup_nil ..|].
    intros ?? Hx. by apply elem_of_nil in Hx.
  - split; simpl; [done|]. intros ?? Hx. by apply elem_of_nil in Hx.
  - split; [done|]. exists new. split; [done|]. done.
Qed.

End dfs_calls.

(** *** Exhaustion of a finite graph without solved configuration *)

Lemma size_difference_mark (ks s : gset string) (k : string) :
  k ∈ ks → k ∉ s → size (ks ∖ ({[k]} ∪ s)) < size (ks ∖ s).
Proof. intros Hk Hs. apply subset_size. set_solver. Qed.

Lemma size_difference_mono (ks s s' : gset string) :
  s ⊆ s' → size (ks ∖ s') ≤ size (ks ∖ s).
Proof. intros Hs. apply subseteq_size. set_solver. Qed.

Section dfs_exhausts.
Context `{Puzzle C} (root : C) (ks : gset string).
Hypothesis finite : ∀ c, reachable root c → str c ∈ ks.
Hypothesis unsolved : ∀ c, reachable root c → is_solved c = false.

Lemma dfs_loop_exhausts fuel p xs st :
  (∀ x st1, reachable root x → size (ks ∖ dfs_seen st1) < fuel →
     ∃ st2, _helper_dfs fuel x st1 = Some (None, st2) ∧
            dfs_seen st1 ⊆ dfs_seen st2) →
  (∀ x, x ∈ xs → reachable root x) →
  size (ks ∖ dfs_seen st) ≤ fuel →
  ∃ st', dfs_loop (_helper_dfs fuel) p xs st = Some (None, st') ∧
         dfs_seen st ⊆ dfs_seen st'.
Proof.
  intros IH. revert st. induction xs as [|x xs IHxs]; intros st Hxs Hsize; simpl.
  - by exists st.
  - assert (reachable root x) as Hx by (apply Hxs; left).
    assert (∀ y, y ∈ xs → reachable root y) as Hxs' by (intros; apply Hxs; by right).
    destruct (decide _) as [_|Hnew]; [by apply IHxs|].
    destruct (IH x (DfsState ({[str x]} ∪ dfs_seen st) (dfs_calls st)) Hx)
      as (st2 & -> & Hsub); simpl in *.
    { eapply Nat.lt_le_trans; [|exact Hsize].
      by apply size_difference_mark; [apply finite|]. }
    destruct (IHxs st2 Hxs') as (st' & -> & Hsub').
    { etrans; [|exact Hsize]. apply size_difference_mono. set_solver. }
    exists st'. split; [done|]. set_solver.
Qed.

Lemma _helper_dfs_exhausts fuel p st :
  reachable root p → size (ks ∖ dfs_seen st) < fuel →
  ∃ st', _helper_dfs fuel p st = Some (None, st') ∧ dfs_seen st ⊆ dfs_seen st'.
Proof.
  revert p st. induction fuel as [|fuel IH]; intros p st Hp Hsize; [lia|]. simpl.
  rewrite (unsolved p Hp). destruct (fail_fast p); [by eexists|].
  destruct (dfs_loop_exhausts fuel p (extensions p)
    (DfsState (dfs_seen st) (dfs_calls st ++ [(p, dfs_seen st)]))) as (st' & -> & Hsub).
  - intros x st1 Hx Hlt. by apply IH.
  - intros x Hx. by eapply reachable_step.
  - simpl. lia.
  - by exists st'.
Qed.

Lemma depth_first_solve_exhausts fuel :
  size ks < fuel → depth_first_solve fuel root = Some None.
Proof.
  intros Hfuel. unfold depth_first_solve, depth_first_run.
  destruct (_helper_dfs_exhausts fuel root dfs_init) as (st' & -> & _);
    [constructor| |done].
  simpl. eapply Nat.le_lt_trans; [|exact Hfuel].
  apply subseteq_size. set_solver.
Qed.

End dfs_exhausts.

(** ** Breadth-first solver *)

Lemma mapM_seq_fmap {A B} (f : nat → option B) (g : A → B) (l : list A) j :
  (∀ i x, l !! i = Some x → f (j + i) = Some (g x)) →
  mapM f (seq j (length l)) = Some (g <$> l).
Proof.
  intros Hf. apply mapM_Some_2, Forall2_same_length_lookup_2.
  - by rewrite length_seq, length_fmap.
  - intros i id y Hid Hy. apply lookup_seq in Hid as [-> Hi].
    apply list_lookup_fmap_Some in Hy as (x & -> & Hx). eauto.
Qed.

Lemma _helper_dfs_extension_eq {C} (list_ : list C) par (h : list (PuzzleNode C)) :
  _helper_dfs_extension list_ par h =
  (seq (length h) (length list_), h ++ ((λ c, MkNode c [] par) <$> list_)).
Proof.
  revert h. induction list_ as [|c cs IH]; intros h; simpl.
  - by rewrite app_nil_r.
  - rewrite IH, length_app. simpl. rewrite Nat.add_1_r.
    by rewrite <-app_assoc.
Qed.

Section bfs_basics.
Context `{Puzzle C}.

Implicit Types (h : list (PuzzleNode C)) (st : bfs_state C).

Lemma bfs_init_eq (root : C) :
  bfs_init root =
  Some (BfsState (bfs_init_heap root) [0] {[first_node_str root]} [0]).
Proof.
  unfold bfs_init. rewrite _helper_dfs_extension_eq. simpl.
  fold (bfs_init_heap root). rewrite length_fmap.
  rewrite (mapM_seq_fmap _
    (λ e, str e +:+ nl +:+ nl +:+ String.concat nl []) (extensions root)).
  - done.
  - intros i e He. destruct (length (extensions root)) as [|k] eqn:Hk.
    { apply lookup_lt_Some in He. lia. }
    simpl. unfold bfs_init_heap. simpl.
    rewrite list_lookup_fmap, He. done.
Qed.

(** More fuel does not change a result. *)
Lemma bfs_loop_mono fuel fuel' st r :
  fuel ≤ fuel' → bfs_loop fuel st = Some r → bfs_loop fuel' st = Some r.
Proof.
  revert fuel' st. induction fuel as [|fuel IH]; intros fuel' st Hle; simpl.
  - discriminate.
  - destruct fuel' as [|fuel']; [lia|]. simpl.
    destruct (queue st) as [|removed q]; [done|]. simpl.
    destruct (heap st !! removed) as [nd|]; [|done]. simpl.
    destruct (is_solved (puzzle nd)); [done|]. simpl.
    destruct (fail_fast (puzzle nd)); simpl; apply IH; lia.
Qed.

End bfs_basics.

Lemma bfs_visit_ext {C} (P1 P2 : Puzzle C) st PN :
  same_answers P1 P2 → @bfs_visit C P1 st PN = @bfs_visit C P2 st PN.
Proof.
  intros (_ & _ & He & Hstr). unfold bfs_visit.
  destruct (heap st !! PN) as [nd|]; [|done]. by rewrite Hstr, He.
Qed.

Lemma bfs_loop_ext {C} (P1 P2 : Puzzle C) fuel st :
  same_answers P1 P2 → @bfs_loop C P1 fuel st = @bfs_loop C P2 fuel st.
Proof.
  intros HP. revert st. induction fuel as [|fuel IH]; intros st; simpl; [done|].
  destruct (queue st) as [|removed q]; [done|]. simpl.
  destruct (heap st !! removed) as [nd|]; [|done]. simpl.
  destruct HP as (Hs & Hf & He & Hstr). rewrite Hs, Hf.
  destruct (is_solved (puzzle nd)); [done|]. simpl.
  destruct (fail_fast (puzzle nd)); simpl; [done|].
  rewrite <-IH. f_equal. generalize (children nd).
  generalize (BfsState (heap st) q (seen st) (enqueued st)).
  intros st' l. revert st'. induction l as [|PN l IHl]; intros st'; simpl; [done|].
  by rewrite IHl, (bfs_visit_ext P1 P2).
Qed.

Lemma breadth_first_solve_ext {C} (P1 P2 : Puzzle C) fuel root :
  same_answers P1 P2 →
  @breadth_first_solve C P1 fuel root = @breadth_first_solve C P2 fuel root.
Proof.
  intros HP. unfold breadth_first_solve, breadth_first_run, _helper_bfs.
  rewrite !bfs_init_eq. simpl.
  pose proof HP as (Hs & Hf & He & Hstr).
  assert (@bfs_init_heap C P1 root = @bfs_init_heap C P2 root) as ->.
  { unfold bfs_init_heap. by rewrite He. }
  assert (@first_node_str C P1 root = @first_node_str C P2 root) as ->.
  { unfold first_node_str. rewrite He, Hstr.
    by rewrite (list_fmap_ext _
      (λ e, @str C P2 e +:+ nl +:+ nl +:+ String.concat nl []) (extensions root))
      by (intros _ e _; by rewrite Hstr). }
  by rewrite (bfs_loop_ext P1 P2).
Qed.

Lemma breadth_first_solve_mono `{Puzzle C} fuel fuel' (root : C) r :
  fuel ≤ fuel' →
  breadth_first_solve fuel root = Some r → breadth_first_solve fuel' root = Some r.
Proof.
  intros Hle. unfold breadth_first_solve, breadth_first_run, _helper_bfs.
  rewrite bfs_init_eq. simpl.
  destruct (bfs_loop fuel _) as [[bfs st]|] eqn:E; [|discriminate].
  by rewrite (bfs_loop_mono _ _ _ _ Hle E).
Qed.

Section heap.
Context `{Puzzle C}.

Implicit Types (h : list (PuzzleNode C)) (st : bfs_state C) (nd : PuzzleNode C).

Lemma lookup_expand h PN nd exts id x :
  h !! PN = Some nd →
  expand h PN nd exts !! id = Some x ↔
    (id = PN ∧ x = set_children (seq (length h) (length exts)) nd) ∨
    (id ≠ PN ∧ h !! id = Some x) ∨
    (∃ i e, id = length h + i ∧ exts !! i = Some e ∧ x = MkNode e [] (Some PN)).
Proof.
  intros HPN. pose proof (lookup_lt_Some _ _ _ HPN) as Hlt. unfold expand.
  rewrite list_lookup_insert_Some, lookup_app_Some, length_app.
  split.
  - intros [(-> & -> & _)|(Hne & [Hid|[Hge Hid]])]; [by left|right; by left|].
    right; right. apply list_lookup_fmap_Some in Hid as (e & -> & He).
    exists (id - length h), e. split; [lia|done].
  - intros [[-> ->]|[[Hne Hid]|(i & e & -> & He & ->)]].
    + left. split; [done|]. split; [done|]. lia.
    + right. split; [done|]. by left.
    + right. split; [lia|]. right. split; [lia|].
      replace (length h + i - length h) with i by lia.
      by rewrite list_lookup_fmap, He.
Qed.

Lemma length_expand h PN nd exts :
  length (expand h PN nd exts) = length h + length exts.
Proof. unfold expand. by rewrite length_insert, length_app, length_fmap. Qed.

Lemma heap_le_refl h : heap_le h h.
Proof. intros id nd Hid. by exists nd. Qed.

Lemma heap_le_trans h1 h2 h3 : heap_le h1 h2 → heap_le h2 h3 → heap_le h1 h3.
Proof.
  intros H12 H23 id nd Hid. destruct (H12 _ _ Hid) as (nd2 & Hid2 & <- & <-).
  apply (H23 _ _ Hid2).
Qed.

Lemma heap_le_expand h PN nd exts :
  h !! PN = Some nd → heap_le h (expand h PN nd exts).
Proof.
  intros HPN id nd' Hid. destruct (decide (id = PN)) as [->|Hne].
  - exists (set_children (seq (length h) (length exts)) nd).
    rewrite lookup_expand by done. simplify_eq. split; [by left|done].
  - exists nd'. rewrite lookup_expand by done. split; [|done]. right; by left.
Qed.

Lemma heap_le_cfg h h' id c : heap_le h h' → cfg h id = Some c → cfg h' id = Some c.
Proof.
  unfold cfg. intros Hle Hc. destruct (h !! id) as [nd|] eqn:Hid; [|done].
  destruct (Hle _ _ Hid) as (nd' & -> & Hp & _). simpl in *. congruence.
Qed.

Lemma heap_le_length h h' : heap_le h h' → length h ≤ length h'.
Proof.
  intros Hle. destruct (decide (length h = 0)) as [|Hne]; [lia|].
  destruct (lookup_lt_is_Some_2 h (length h - 1)) as [nd Hnd]; [lia|].
  destruct (Hle _ _ Hnd) as (nd' & Hnd' & _). apply lookup_lt_Some in Hnd'. lia.
Qed.

Lemma heap_ok_init (root : C) : heap_ok root (bfs_init_heap root).
Proof.
  unfold bfs_init_heap. split.
  - eexists. by split.
  - intros [|id] nd p; simpl; [by intros [= <-]|].
    rewrite list_lookup_fmap. intros (e & He & ->)%fmap_Some [= <-]. lia.
  - intros [|id] nd; simpl; [done|].
    rewrite list_lookup_fmap. by intros (e & He & ->)%fmap_Some.
  - intros [|id] nd c; simpl.
    + intros [= <-]; simpl. intros [Hlo Hhi]%elem_of_seq.
      destruct c as [|c]; [lia|].
      destruct (lookup_lt_is_Some_2 (extensions root) c) as [e He]; [lia|].
      exists (MkNode e [] (Some 0)). simpl.
      rewrite list_lookup_fmap, He. split; [done|]. split; [done|].
      simpl. by eapply list_elem_of_lookup_2.
    + rewrite list_lookup_fmap. intros (e & He & ->)%fmap_Some. simpl.
      by intros ?%elem_of_nil.
  - intros [|id] nd; simpl.
    + intros [= <-]. constructor.
    + rewrite list_lookup_fmap. intros (e & He & ->)%fmap_Some. simpl.
      eapply reachable_step; [constructor|]. by eapply list_elem_of_lookup_2.
Qed.

Lemma heap_ok_expand (root : C) h PN nd :
  heap_ok root h → h !! PN = Some nd →
  heap_ok root (expand h PN nd (extensions (puzzle nd))).
Proof.
  intros [Hroot Hpar Horph Hch Hreach] HPN.
  pose proof (lookup_lt_Some _ _ _ HPN) as Hlt.
  pose proof (heap_le_expand h PN nd (extensions (puzzle nd)) HPN) as Hle.
  split.
  - destruct Hroot as (nd0 & H0 & Hp & Hn).
    destruct (Hle _ _ H0) as (nd' & ? & ? & ?). exists nd'. split; [done|].
    split; congruence.
  - intros id x p. rewrite lookup_expand by done.
    intros [[-> ->]|[[Hne Hid]|(i & e & -> & He & ->)]]; simpl; eauto.
    intros [= <-]. lia.
  - intros id x. rewrite lookup_expand by done.
    intros [[-> ->]|[[Hne Hid]|(i & e & -> & He & ->)]]; simpl; eauto. done.
  - intros id x c. rewrite lookup_expand by done.
    intros [[-> ->]|[[Hne Hid]|(i & e & -> & He & ->)]]; simpl.
    + intros [Hlo Hhi]%elem_of_seq.
      destruct (lookup_lt_is_Some_2 (extensions (puzzle nd)) (c - length h))
        as [e He]; [lia|].
      exists (MkNode e [] (Some PN)). split; [|split; [done|]].
      * apply lookup_expand; [done|]. right; right.
        exists (c - length h), e. split; [lia|done].
      * simpl. by eapply list_elem_of_lookup_2.
    + intros Hc. destruct (Hch _ _ _ Hid Hc) as (cn & Hcn & Hcp & Hce).
      destruct (Hle _ _ Hcn) as (cn' & ? & ? & ?). exists cn'.
      split; [done|]. split; congruence.
    + by intros ?%elem_of_nil.
  - intros id x. rewrite lookup_expand by done.
    intros [[-> ->]|[[Hne Hid]|(i & e & -> & He & ->)]]; simpl; eauto.
    eapply reachable_step; [by eapply Hreach|]. by eapply list_elem_of_lookup_2.
Qed.

(** [bfs_visit] on a node of the heap. *)
Lemma bfs_visit_eq st PN nd :
  heap st !! PN = Some nd →
  bfs_visit st PN =
    if decide (str (puzzle nd) ∈ seen st) then st
    else BfsState (expand (heap st) PN nd (extensions (puzzle nd)))
                  (queue st ++ [PN]) ({[str (puzzle nd)]} ∪ seen st)
                  (enqueued st ++ [PN]).
Proof.
  intros HPN. unfold bfs_visit. rewrite HPN.
  destruct (decide _); [done|]. by rewrite _helper_dfs_extension_eq.
Qed.

End heap.

Section depth.
Context `{Puzzle C}.

Implicit Types (h : list (PuzzleNode C)) (st : bfs_state C) (nd : PuzzleNode C).

Lemma depth_inj h id d d' : depth h id d → depth h id d' → d = d'.
Proof.
  intros Hd. revert d'. induction Hd as [id nd Hid Hp|id nd p d Hid Hp Hd IH];
    intros d'; inversion 1; simplify_eq; [done|]. f_equal. by apply IH.
Qed.

Lemma depth_le h h' id d : heap_le h h' → depth h id d → depth h' id d.
Proof.
  intros Hle. induction 1 as [id nd Hid Hp|id nd p d Hid Hp Hd IH];
    destruct (Hle _ _ Hid) as (nd' & Hid' & _ & Hp').
  - eapply depth_0; [exact Hid'|by rewrite Hp'].
  - eapply depth_S; [exact Hid'|by rewrite Hp'|done].
Qed.

Lemma depth_valid h id d : depth h id d → is_Some (h !! id).
Proof. by inversion 1; eexists. Qed.

Lemma depth_exists (root : C) h id :
  heap_ok root h → is_Some (h !! id) → ∃ d, depth h id d.
Proof.
  intros Hok. induction (lt_wf id) as [id _ IH]. intros [nd Hid].
  destruct (parent nd) as [p|] eqn:Hp.
  - pose proof (heap_parent _ _ Hok _ _ _ Hid Hp) as Hlt.
    destruct (IH p Hlt) as [d Hd].
    { apply lookup_lt_is_Some. apply lookup_lt_Some in Hid. lia. }
    exists (S d). by eapply depth_S.
  - exists 0. by eapply depth_0.
Qed.

Lemma key_le h h' id k : heap_le h h' → key h id = Some k → key h' id = Some k.
Proof.
  unfold key. intros Hle (c & Hc & ->)%fmap_Some.
  by rewrite (heap_le_cfg _ _ _ _ Hle Hc).
Qed.

Lemma key_fmap_le h h' (l : list nat) :
  heap_le h h' → (∀ id, id ∈ l → is_Some (h !! id)) →
  key h' <$> l = key h <$> l.
Proof.
  intros Hle Hl. apply list_fmap_ext. intros i id Hid.
  destruct (Hl id) as [nd Hnd]; [by eapply list_elem_of_lookup_2|].
  assert (key h id = Some (str (puzzle nd))) as Hk
    by (unfold key, cfg; by rewrite Hnd).
  by rewrite Hk, (key_le _ _ _ _ Hle Hk).
Qed.

Lemma bfs_le_refl st : bfs_le st st.
Proof. split; [apply heap_le_refl|done|done]. Qed.

Lemma bfs_le_trans st1 st2 st3 : bfs_le st1 st2 → bfs_le st2 st3 → bfs_le st1 st3.
Proof.
  intros [] []. split; [by eapply heap_le_trans|set_solver|by etrans].
Qed.

End depth.

Section bfs_inv.
Context `{Puzzle C} (root : C).

Implicit Types (h : list (PuzzleNode C)) (st : bfs_state C) (nd : PuzzleNode C).

Lemma bfs_inv_init :
  bfs_inv root [] 0
    (BfsState (bfs_init_heap root) [0] {[first_node_str root]} [0]).
Proof.
  split; simpl.
  - apply heap_ok_init.
  - done.
  - exists []. split; [done|]. split; [constructor|].
    intros k. rewrite elem_of_singleton. split; [by left|].
    intros [?|Hk]; [done|]. by apply elem_of_nil in Hk.
  - intros id ->%list_elem_of_singleton. eexists. split; [done|]. simpl.
    apply Forall2_same_length_lookup_2; [by rewrite length_seq|].
    intros i c e [-> Hi]%lookup_seq He. unfold cfg. simpl.
    by rewrite list_lookup_fmap, He.
  - by intros id ?%elem_of_nil.
  - exists [0], []. split; [done|]. split.
    + intros id ->%list_elem_of_singleton. by eapply depth_0.
    + by intros id ?%elem_of_nil.
Qed.

Lemma bfs_visit_inv D lvl st PN nd p :
  bfs_inv root D lvl st →
  heap st !! PN = Some nd → parent nd = Some p → depth (heap st) p lvl →
  bfs_inv root D lvl (bfs_visit st PN) ∧
  bfs_le st (bfs_visit st PN) ∧
  str (puzzle nd) ∈ seen (bfs_visit st PN) ∧
  (bfs_visit st PN = st ∨
   ((str (puzzle nd) ∉ seen st) ∧
    queue (bfs_visit st PN) = queue st ++ [PN] ∧
    seen (bfs_visit st PN) = {[str (puzzle nd)]} ∪ seen st)).
Proof.
  intros Hinv HPN Hpar Hdp. rewrite (bfs_visit_eq _ _ _ HPN).
  destruct (decide _) as [Hin|Hnew].
  { split; [done|]. split; [apply bfs_le_refl|]. split; [done|]. by left. }
  destruct Hinv as [Hok Hsplit (E & HE & Hnodup & Hseen) Hexp Hdone
                    (Q1 & Q2 & HQ & HQ1 & HQ2)].
  set (h' := expand (heap st) PN nd (extensions (puzzle nd))).
  assert (heap_le (heap st) h') as Hle by by apply heap_le_expand.
  assert (PN ∉ enqueued st) as HPNq.
  { rewrite HE. intros [->|HPNE]%elem_of_cons.
    - destruct (heap_root _ _ Hok) as (nd0 & H0 & _ & Hn0). congruence.
    - apply Hnew, Hseen. right.
      apply list_elem_of_fmap. exists PN. split; [|done].
      unfold key, cfg. by rewrite HPN. }
  assert (∀ id, id ∈ enqueued st → is_Some (heap st !! id)) as Hvalid.
  { intros id Hid. destruct (Hexp _ Hid) as (? & ? & _). by eexists. }
  assert (key h' <$> E = key (heap st) <$> E) as HkE.
  { apply key_fmap_le; [done|]. intros id Hid. apply Hvalid.
    rewrite HE. by right. }
  assert (h' !! PN = Some (set_children
            (seq (length (heap st)) (length (extensions (puzzle nd)))) nd))
    as HPN' by (apply lookup_expand; [done|by left]).
  assert (key h' PN = Some (str (puzzle nd))) as HkPN
    by (unfold key, cfg; by rewrite HPN').
  split; [|split; [|split]].
  - split; simpl.
    + by apply heap_ok_expand.
    + by rewrite Hsplit, app_assoc.
    + exists (E ++ [PN]). split; [by rewrite HE|]. fold h'.
      rewrite fmap_app, HkE. simpl. rewrite HkPN. split.
      * apply NoDup_app. split; [done|]. split; [|apply NoDup_singleton].
        intros k Hk ->%list_elem_of_singleton. apply Hnew, Hseen. by right.
      * intros k. rewrite elem_of_union, elem_of_singleton, Hseen.
        rewrite elem_of_app, list_elem_of_singleton. naive_solver.
    + fold h'. intros id [Hid| ->%list_elem_of_singleton]%elem_of_app.
      * destruct (Hexp _ Hid) as (x & Hx & Hch). exists x. split.
        { apply lookup_expand; [done|]. right; left. split; [|done].
          intros ->. done. }
        eapply Forall2_impl; [exact Hch|]. intros c e. simpl.
        by apply heap_le_cfg.
      * eexists. split; [exact HPN'|]. simpl.
        apply Forall2_same_length_lookup_2; [by rewrite length_seq|].
        intros i c e [-> Hi]%lookup_seq He. unfold cfg.
        assert (h' !! (length (heap st) + i) = Some (MkNode e [] (Some PN)))
          as -> by (apply lookup_expand; [done|]; right; right; eauto).
        done.
    + fold h'. intros id Hid. destruct (Hdone _ Hid) as (d & Hd & Hdl).
      exists d. split; [|done]. by eapply depth_le.
    + fold h'. exists Q1, (Q2 ++ [PN]). split; [by rewrite HQ, app_assoc|].
      split.
      * intros id Hid. eapply depth_le; [done|]. by apply HQ1.
      * intros id [Hid| ->%list_elem_of_singleton]%elem_of_app.
        { eapply depth_le; [done|]. by apply HQ2. }
        eapply depth_S; [exact HPN'|done|]. by eapply depth_le.
  - split; simpl; [done|set_solver|by apply prefix_app_r].
  - simpl. set_solver.
  - right. done.
Qed.

Lemma bfs_fold_inv D lvl r (l : list nat) st :
  bfs_inv root D lvl st → depth (heap st) r lvl →
  (∀ PN, PN ∈ l → ∃ nd, heap st !! PN = Some nd ∧ parent nd = Some r) →
  bfs_inv root D lvl (foldl bfs_visit st l) ∧
  bfs_le st (foldl bfs_visit st l) ∧
  (∀ PN e, PN ∈ l → cfg (heap st) PN = Some e →
     str e ∈ seen (foldl bfs_visit st l)) ∧
  (∀ ks : gset string, (∀ c, reachable root c → str c ∈ ks) →
     length (queue (foldl bfs_visit st l)) + size (ks ∖ seen (foldl bfs_visit st l))
     ≤ length (queue st) + size (ks ∖ seen st)).
Proof.
  revert st. induction l as [|PN l IH]; intros st Hinv Hr Hl; simpl.
  { split; [done|]. split; [apply bfs_le_refl|]. split; [|done].
    by intros ?? ?%elem_of_nil. }
  destruct (Hl PN) as (nd & HPN & Hpar); [by left|].
  destruct (bfs_visit_inv D lvl st PN nd r Hinv HPN Hpar Hr)
    as (Hinv1 & Hle1 & Hin1 & Hcase).
  destruct (IH (bfs_visit st PN) Hinv1) as (Hinv2 & Hle2 & Hin2 & Hm2).
  { eapply depth_le; [apply Hle1|done]. }
  { intros PN' HPN'. destruct (Hl PN') as (nd' & Hnd' & Hpar'); [by right|].
    destruct (le_heap _ _ Hle1 _ _ Hnd') as (x & ? & ? & ?). exists x.
    split; [done|congruence]. }
  split; [done|]. split; [by eapply bfs_le_trans|]. split.
  - intros PN' e [->|HPN']%elem_of_cons Hcfg.
    + unfold cfg in Hcfg. rewrite HPN in Hcfg. simplify_eq/=.
      by apply (le_seen _ _ Hle2).
    + eapply Hin2; [done|]. eapply heap_le_cfg; [apply Hle1|done].
  - intros ks Hks. etrans; [by apply Hm2|].
    destruct Hcase as [->|(Hnew & -> & ->)]; [done|].
    rewrite length_app. simpl.
    assert (str (puzzle nd) ∈ ks) as Hk.
    { apply Hks. eapply heap_reachable; [apply Hinv|done]. }
    pose proof (size_difference_mark ks _ _ Hk Hnew). lia.
Qed.

Lemma bfs_pop_inv D lvl st r q :
  bfs_inv root D lvl st → queue st = r :: q →
  ∃ lvl', bfs_inv root (D ++ [r]) lvl'
            (BfsState (heap st) q (seen st) (enqueued st)) ∧
          depth (heap st) r lvl' ∧ lvl ≤ lvl'.
Proof.
  intros [Hok Hsplit HE Hexp Hdone (Q1 & Q2 & HQ & HQ1 & HQ2)] Hq.
  rewrite Hq in *. destruct Q1 as [|r' Q1]; simpl in *.
  - subst Q2. exists (S lvl). split; [|split; [apply HQ2; by left|lia]].
    split; simpl; [done|by rewrite Hsplit, <-app_assoc|done|done| |].
    + intros id [Hid| ->%list_elem_of_singleton]%elem_of_app.
      * destruct (Hdone _ Hid) as (d & ? & ?). exists d. split; [done|lia].
      * exists (S lvl). split; [apply HQ2; by left|done].
    + exists q, []. rewrite app_nil_r. split; [done|]. split.
      * intros id Hid. apply HQ2. by right.
      * by intros id ?%elem_of_nil.
  - injection HQ as <- ->. exists lvl. split; [|split; [apply HQ1; by left|lia]].
    split; simpl; [done|by rewrite Hsplit, <-app_assoc|done|done| |].
    + intros id [Hid| ->%list_elem_of_singleton]%elem_of_app; [by apply Hdone|].
      exists lvl. split; [apply HQ1; by left|done].
    + exists Q1, Q2. split; [done|]. split; [|done].
      intros id Hid. apply HQ1. by right.
Qed.

Lemma processed_le D st st' :
  (∀ id, id ∈ D → is_Some (heap st !! id)) →
  bfs_le st st' → processed root D st → processed root D st'.
Proof.
  intros Hvalid [Hle Hs Hpre] Hpr id nd' Hid Hnd'.
  destruct (Hvalid _ Hid) as [nd Hnd].
  destruct (Hle _ _ Hnd) as (x & Hx & Hp & _). simplify_eq.
  destruct (Hpr _ _ Hid Hnd) as [Hun Hcov]. rewrite Hp.
  split; [done|]. intros Hff e He.
  destruct (Hcov Hff e He) as [?|(id' & d & d' & Hq & Hk & Hd & Hd' & Hdd)];
    [by left|right].
  exists id', d, d'. split; [by eapply elem_of_prefix|].
  split; [by eapply key_le|]. split; [by eapply depth_le|].
  split; [by eapply depth_le|done].
Qed.

Lemma bfs_round_inv D lvl st r q nd :
  bfs_inv root D lvl st → processed root D st →
  queue st = r :: q → heap st !! r = Some nd → is_solved (puzzle nd) = false →
  let st1 := BfsState (heap st) q (seen st) (enqueued st) in
  let st2 := if fail_fast (puzzle nd) then st1
             else foldl bfs_visit st1 (children nd) in
  ∃ lvl', bfs_inv root (D ++ [r]) lvl' st2 ∧ processed root (D ++ [r]) st2 ∧
    ∀ ks : gset string, (∀ c, reachable root c → str c ∈ ks) →
      length (queue st2) + size (ks ∖ seen st2)
      < length (queue st) + size (ks ∖ seen st).
Proof.
  intros Hinv Hpr Hq Hr Hun st1 st2.
  destruct (bfs_pop_inv D lvl st r q Hinv Hq) as (lvl' & Hinv1 & Hdr & _).
  assert (r ∈ enqueued st) as Hrq.
  { rewrite (inv_split _ _ _ _ Hinv), Hq. apply elem_of_app. right. by left. }
  assert (∀ id, id ∈ D → is_Some (heap st !! id)) as HDvalid.
  { intros id Hid. destruct (inv_expanded _ _ _ _ Hinv id) as (x & ? & _).
    - rewrite (inv_split _ _ _ _ Hinv). apply elem_of_app. by left.
    - by eexists. }
  assert (bfs_le st st1) as Hle1 by (split; [apply heap_le_refl|done|done]).
  exists lvl'. subst st2. destruct (fail_fast (puzzle nd)) eqn:Hff.
  { split; [done|]. split.
    - intros id x [Hid| ->%list_elem_of_singleton]%elem_of_app Hx.
      + by apply (Hpr id x).
      + simpl in Hx. simplify_eq. split; [done|]. by rewrite Hff.
    - intros ks _. subst st1. rewrite Hq. simpl. lia. }
  destruct (bfs_fold_inv (D ++ [r]) lvl' r (children nd) st1 Hinv1 Hdr)
    as (Hinv2 & Hle2 & Hin2 & Hm2).
  { intros PN HPN.
    destruct (heap_children _ _ (inv_heap _ _ _ _ Hinv) _ _ _ Hr HPN)
      as (cn & ? & ? & _). by exists cn. }
  set (st2 := foldl bfs_visit st1 (children nd)) in *.
  split; [done|]. split.
  - intros id x [Hid| ->%list_elem_of_singleton]%elem_of_app Hx.
    + eapply (processed_le D st st2); [done|by eapply bfs_le_trans|done..].
    + destruct (le_heap _ _ Hle2 _ _ Hr) as (x' & Hx' & Hp & _).
      simplify_eq. rewrite Hp. split; [done|]. intros _ e He.
      destruct (inv_expanded _ _ _ _ Hinv r Hrq) as (nd' & Hnd' & Hch).
      simplify_eq.
      apply list_elem_of_lookup in He as [i He].
      destruct (Forall2_lookup_r _ _ _ _ _ Hch He) as (c & Hc & Hcfg).
      assert (str e ∈ seen st2) as Hseen.
      { eapply Hin2; [by eapply list_elem_of_lookup_2|done]. }
      destruct (inv_head _ _ _ _ Hinv2) as (E & HE & _ & HseenE).
      destruct (proj1 (HseenE _) Hseen) as [?|Hk]; [by left|right].
      apply list_elem_of_fmap in Hk as (id' & Hk & Hid').
      assert (id' ∈ enqueued st2) as Hq' by (rewrite HE; by right).
      assert (depth (heap st2) r lvl') as Hdr2
        by (eapply depth_le; [apply Hle2|done]).
      assert (∃ d', depth (heap st2) id' d' ∧ d' ≤ S lvl') as (d' & Hd' & Hdd).
      { rewrite (inv_split _ _ _ _ Hinv2) in Hq'.
        apply elem_of_app in Hq' as [HD|HQ].
        - destruct (inv_done _ _ _ _ Hinv2 _ HD) as (d' & ? & ?).
          exists d'. split; [done|lia].
        - destruct (inv_level _ _ _ _ Hinv2) as (Q1 & Q2 & HQQ & HQ1 & HQ2).
          rewrite HQQ in HQ. apply elem_of_app in HQ as [HQ|HQ].
          + exists lvl'. split; [by apply HQ1|lia].
          + exists (S lvl'). split; [by apply HQ2|lia]. }
      exists id', lvl', d'. done.
  - intros ks Hks. eapply Nat.le_lt_trans; [by apply Hm2|].
    subst st1. rewrite Hq. simpl. lia.
Qed.

Lemma bfs_loop_inv fuel D lvl st res st' :
  bfs_loop fuel st = Some (res, st') →
  bfs_inv root D lvl st → processed root D st →
  match res with
  | Some r =>
      ∃ D' lvl' nd, bfs_inv root (D' ++ [r]) lvl' st' ∧ processed root D' st' ∧
        depth (heap st') r lvl' ∧ heap st' !! r = Some nd ∧
        is_solved (puzzle nd) = true
  | None =>
      ∃ D' lvl', bfs_inv root D' lvl' st' ∧ processed root D' st' ∧
        queue st' = []
  end.
Proof.
  revert D lvl st. induction fuel as [|fuel IH]; intros D lvl st; simpl.
  - discriminate.
  - destruct (queue st) as [|r q] eqn:Hq.
    { intros [= <- <-] Hinv Hpr. by exists D, lvl. }
    simpl. destruct (heap st !! r) as [nd|] eqn:Hr; [|discriminate]. simpl.
    intros Hrun Hinv Hpr.
    destruct (is_solved (puzzle nd)) eqn:Hs; simpl in Hrun.
    + injection Hrun as <- <-.
      destruct (bfs_pop_inv D lvl st r q Hinv Hq) as (lvl' & Hinv1 & Hdr & _).
      exists D, lvl', nd. done.
    + destruct (bfs_round_inv D lvl st r q nd Hinv Hpr Hq Hr Hs)
        as (lvl' & Hinv2 & Hpr2 & _).
      destruct (fail_fast (puzzle nd)); simpl in *; by eapply IH.
Qed.

Lemma bfs_loop_terminates (ks : gset string) fuel D lvl st :
  (∀ c, reachable root c → str c ∈ ks) →
  bfs_inv root D lvl st → processed root D st →
  length (queue st) + size (ks ∖ seen st) < fuel →
  ∃ res st', bfs_loop fuel st = Some (res, st').
Proof.
  intros Hks. revert D lvl st.
  induction fuel as [|fuel IH]; intros D lvl st Hinv Hpr Hfuel; [lia|]. simpl.
  destruct (queue st) as [|r q] eqn:Hq; [by eexists _, _|]. simpl.
  destruct (inv_expanded _ _ _ _ Hinv r) as (nd & Hr & _).
  { rewrite (inv_split _ _ _ _ Hinv), Hq. apply elem_of_app. right. by left. }
  rewrite Hr. simpl.
  destruct (is_solved (puzzle nd)) eqn:Hs; simpl; [by eexists _, _|].
  destruct (bfs_round_inv D lvl st r q nd Hinv Hpr Hq Hr Hs)
    as (lvl' & Hinv2 & Hpr2 & Hm).
  specialize (Hm ks Hks). rewrite Hq in Hm. simpl in Hm.
  destruct (fail_fast (puzzle nd)); simpl in *.
  - eapply IH; [done|done|]. simpl. lia.
  - eapply IH; [done|done|]. lia.
Qed.

End bfs_inv.

(** *** Reading a chain, and [_helper_bfs_rebuild] *)

Lemma linear_node_count {C} (t : PuzzleTree C) :
  linear t = true → node_count t = length (chain t).
Proof.
  revert t. fix IH 1. intros [p [|c [|c' cs]]]; simpl; [done| |done].
  intros Hl. by rewrite (IH c Hl), Nat.add_0_r.
Qed.

Lemma final_puzzle_last {C} (t : PuzzleTree C) :
  last (chain t) = Some (final_puzzle t).
Proof.
  revert t. fix IH 1. intros [p [|c cs]]; simpl; [done|].
  specialize (IH c). destruct (chain c) eqn:E; [done|]. done.
Qed.

Lemma chain_head {C} (t : PuzzleTree C) : head (chain t) = Some (t_puzzle t).
Proof. by destruct t as [p [|c cs]]. Qed.

Section rebuild.
Context {C : Type}.

Implicit Types (h : list (PuzzleNode C)) (nd : PuzzleNode C).

Lemma tree_of_chain fuel h id rest :
  is_chain h id rest → length rest < fuel →
  ∃ t, tree_of fuel h id = Some t ∧ linear t = true ∧
       Forall2 (λ i c, cfg h i = Some c) (id :: rest) (chain t).
Proof.
  revert id rest. induction fuel as [|fuel IH]; intros id rest Hch Hlen; [lia|].
  destruct rest as [|id' rest]; simpl in *.
  - destruct Hch as (nd & Hid & Hc). rewrite Hid. simpl. rewrite Hc. simpl.
    eexists. split; [done|]. split; [done|]. simpl.
    constructor; [|done]. unfold cfg. by rewrite Hid.
  - destruct Hch as (nd & Hid & Hc & Hch). rewrite Hid. simpl. rewrite Hc. simpl.
    destruct (IH id' rest Hch) as (t & -> & Hl & Hcfg); [lia|]. simpl.
    eexists. split; [done|]. split; [done|]. simpl.
    constructor; [|done]. unfold cfg. by rewrite Hid.
Qed.

Lemma is_chain_insert h id rest tmp x :
  Forall (λ i, tmp < i) (id :: rest) →
  is_chain h id rest → is_chain (<[tmp := x]> h) id rest.
Proof.
  revert id. induction rest as [|id' rest IH]; intros id Hall; simpl.
  - intros (nd & Hid & Hc). exists nd. split; [|done].
    rewrite list_lookup_insert_ne; [done|]. apply Forall_cons in Hall as [? _]. lia.
  - intros (nd & Hid & Hc & Hch). exists nd.
    apply Forall_cons in Hall as [? Hall].
    rewrite list_lookup_insert_ne by lia. split; [done|]. split; [done|].
    by apply IH.
Qed.

Lemma depth_bound h id d :
  (∀ i nd p, h !! i = Some nd → parent nd = Some p → p < i) →
  depth h id d → d ≤ id.
Proof.
  intros Hpar. induction 1 as [i nd Hi Hp|i nd p d Hi Hp Hd IH]; [lia|].
  specialize (Hpar _ _ _ Hi Hp). lia.
Qed.

Lemma heap_le_set_children h tmp tnd cs :
  h !! tmp = Some tnd →
  heap_le h (<[tmp := set_children cs tnd]> h) ∧
  heap_le (<[tmp := set_children cs tnd]> h) h.
Proof.
  intros Htmp. pose proof (lookup_lt_Some _ _ _ Htmp). split; intros id nd.
  - intros Hid. destruct (decide (id = tmp)) as [->|Hne].
    + rewrite Htmp in Hid. injection Hid as <-. exists (set_children cs tnd).
      by rewrite list_lookup_insert_eq.
    + exists nd. by rewrite list_lookup_insert_ne.
  - destruct (decide (id = tmp)) as [->|Hne].
    + rewrite list_lookup_insert_eq by done. intros [= <-]. by exists tnd.
    + rewrite list_lookup_insert_ne by done. intros Hid. by exists nd.
Qed.

Lemma rebuild_loop_chain h0 fuel h node rest d :
  (∀ i nd p, h0 !! i = Some nd → parent nd = Some p → p < i) →
  (∀ i nd, h0 !! i = Some nd → parent nd = None → i = 0) →
  heap_le h0 h → heap_le h h0 →
  is_chain h node rest → Forall (λ i, node ≤ i) rest →
  depth h node d → d < fuel →
  ∃ h' rest', rebuild_loop fuel h node = Some (0, h') ∧
    heap_le h h' ∧ length h' = length h ∧
    is_chain h' 0 rest' ∧ length rest' = d + length rest ∧
    last (0 :: rest') = last (node :: rest).
Proof.
  intros Hpar Horph. revert h node rest d.
  induction fuel as [|fuel IH]; intros h node rest d Hle Hge Hch Hall Hd Hfuel;
    [lia|].
  simpl. inversion Hd as [i nd Hi Hp|i nd p d' Hi Hp Hd']; subst; rewrite Hi; simpl;
    rewrite Hp.
  - destruct (Hge _ _ Hi) as (nd0 & Hi0 & _ & Hp0).
    assert (node = 0) as -> by (eapply Horph; [done|congruence]).
    exists h, rest. split; [done|]. split; [apply heap_le_refl|]. done.
  - destruct (depth_valid h p d' Hd') as [tnd Htmp]. rewrite Htmp. simpl.
    assert (p < node) as Hlt.
    { destruct (Hge _ _ Hi) as (nd0 & Hi0 & _ & Hp0).
      eapply Hpar; [done|congruence]. }
    destruct (heap_le_set_children h p tnd [node] Htmp) as [Hle1 Hge1].
    destruct (IH (<[p := set_children [node] tnd]> h) p (node :: rest) d')
      as (h' & rest' & -> & Hle' & Hlen' & Hch' & Hlen & Hlast).
    + by eapply heap_le_trans.
    + by eapply heap_le_trans.
    + simpl. exists (set_children [node] tnd).
      rewrite list_lookup_insert_eq by by eapply lookup_lt_Some.
      split; [done|]. split; [done|]. apply is_chain_insert; [|done].
      constructor; [done|]. eapply Forall_impl; [done|]. simpl. lia.
    + constructor; [lia|]. eapply Forall_impl; [done|]. simpl. lia.
    + by eapply depth_le.
    + lia.
    + exists h', rest'. split; [done|]. split; [by eapply heap_le_trans|].
      split; [by rewrite Hlen', length_insert|]. split; [done|].
      split; [simpl in *; lia|]. rewrite Hlast. done.
Qed.

Lemma _helper_bfs_rebuild_chain `{Puzzle C} (root : C) h r nd d :
  heap_ok root h → h !! r = Some nd → depth h r d →
  ∃ h' t, _helper_bfs_rebuild h r = Some (0, h') ∧
    tree_of (length h') h' 0 = Some t ∧
    linear t = true ∧ length (chain t) = S d ∧
    t_puzzle t = root ∧ final_puzzle t = puzzle nd.
Proof.
  intros Hok Hr Hd. unfold _helper_bfs_rebuild. rewrite Hr. simpl.
  destruct (heap_le_set_children h r nd [] Hr) as [Hle Hge].
  pose proof (lookup_lt_Some _ _ _ Hr) as Hlt.
  destruct (rebuild_loop_chain h (length h) (<[r := set_children [] nd]> h) r [] d)
    as (h' & rest' & -> & Hle' & Hlen' & Hch' & Hlen & Hlast); try done.
  - apply Hok.
  - apply Hok.
  - simpl. exists (set_children [] nd). by rewrite list_lookup_insert_eq.
  - by eapply depth_le.
  - pose proof (depth_bound h r d (heap_parent _ _ Hok) Hd). lia.
  - rewrite length_insert in Hlen'.
    destruct (tree_of_chain (length h') h' 0 rest' Hch') as (t & Ht & Hl & Hcfg).
    { pose proof (depth_bound h r d (heap_parent _ _ Hok) Hd).
      simpl in Hlen. lia. }
    exists h', t. split; [done|]. split; [done|]. split; [done|].
    pose proof (Forall2_length _ _ _ Hcfg) as Hlen2. simpl in *.
    split; [lia|].
    assert (heap_le h h') as Hhh' by by eapply heap_le_trans.
    split.
    + pose proof (chain_head t) as Hh.
      destruct (heap_root _ _ Hok) as (nd0 & H0 & Hp0 & _).
      destruct (chain t) as [|c cs] eqn:E; [done|].
      apply Forall2_cons in Hcfg as [Hc _].
      rewrite (heap_le_cfg h h' 0 root Hhh') in Hc
        by (unfold cfg; by rewrite H0; simpl; rewrite Hp0).
      simpl in Hh. congruence.
    + pose proof (final_puzzle_last t) as Hf.
      assert (last (0 :: rest') = Some r) as Hr' by by rewrite Hlast.
      apply last_Some in Hr' as (l' & Hl').
      rewrite Hl' in Hcfg.
      apply Forall2_app_inv_l in Hcfg as (k1 & k2 & _ & Hk2 & Hk).
      apply Forall2_cons_inv_l in Hk2 as (c & k3 & Hc & Hk3 & ->).
      apply Forall2_nil_inv_l in Hk3 as ->.
      rewrite Hk, last_snoc in Hf.
      rewrite (heap_le_cfg h h' r (puzzle nd) Hhh') in Hc
        by (unfold cfg; by rewrite Hr).
      congruence.
Qed.

End rebuild.

(** ** The runs of the two solvers *)

Section runs.
Context `{Puzzle C}.

Implicit Types (root : C) (st : bfs_state C).

Lemma _helper_bfs_inv fuel root res st :
  _helper_bfs fuel root = Some (res, st) →
  match res with
  | Some r =>
      ∃ D lvl nd, bfs_inv root (D ++ [r]) lvl st ∧ processed root D st ∧
        depth (heap st) r lvl ∧ heap st !! r = Some nd ∧
        is_solved (puzzle nd) = true
  | None =>
      ∃ D lvl, bfs_inv root D lvl st ∧ processed root D st ∧ queue st = []
  end.
Proof.
  unfold _helper_bfs. rewrite bfs_init_eq. simpl. intros Hrun.
  eapply bfs_loop_inv; [exact Hrun|apply bfs_inv_init|].
  by intros id nd ?%elem_of_nil.
Qed.

Lemma unpruned_path_reachable root n c : unpruned_path root n c → reachable root c.
Proof. induction 1; [constructor|by eapply reachable_step]. Qed.

(** A node put on the deque that is less deep than the returned node was
    taken off before it. *)
Lemma enqueued_before root D r lvl st id d :
  bfs_inv root (D ++ [r]) lvl st → depth (heap st) r lvl →
  id ∈ enqueued st → depth (heap st) id d → d < lvl → id ∈ D.
Proof.
  intros Hinv Hr Hid Hd Hlt. rewrite (inv_split _ _ _ _ Hinv) in Hid.
  apply elem_of_app in Hid as [[Hid| ->%list_elem_of_singleton]%elem_of_app|Hid].
  - done.
  - pose proof (depth_inj _ _ _ _ Hr Hd). lia.
  - destruct (inv_level _ _ _ _ Hinv) as (Q1 & Q2 & HQ & HQ1 & HQ2).
    rewrite HQ in Hid. apply elem_of_app in Hid as [Hid|Hid].
    + pose proof (depth_inj _ _ _ _ (HQ1 _ Hid) Hd). lia.
    + pose proof (depth_inj _ _ _ _ (HQ2 _ Hid) Hd). lia.
Qed.

(** Every configuration at the end of an unpruned path shorter than the
    depth of the returned node was taken off the deque. *)
Lemma unpruned_path_covered root D r lvl st n c :
  (∀ c1 c2, reachable root c1 → reachable root c2 → str c1 = str c2 → c1 = c2) →
  (∀ c, reachable root c → str c ≠ first_node_str root) →
  bfs_inv root (D ++ [r]) lvl st → processed root D st →
  depth (heap st) r lvl →
  unpruned_path root n c → n < lvl →
  ∃ id nd d, id ∈ D ∧ heap st !! id = Some nd ∧ puzzle nd = c ∧
             depth (heap st) id d ∧ d ≤ n.
Proof.
  intros Hinj Hfresh Hinv Hpr Hr.
  induction 1 as [|n c e Hpath IH Hff He]; intros Hlt.
  - destruct (heap_root _ _ (inv_heap _ _ _ _ Hinv)) as (nd0 & H0 & Hp0 & Hn0).
    assert (depth (heap st) 0 0) as Hd0 by by eapply depth_0.
    exists 0, nd0, 0. split; [|done].
    eapply enqueued_before; [done..| |done|done].
    destruct (inv_head _ _ _ _ Hinv) as (E & -> & _). by left.
  - destruct IH as (id & nd & d & HD & Hid & <- & Hd & Hdn); [lia|].
    destruct (Hpr _ _ HD Hid) as [_ Hcov].
    assert (reachable root e) as Hre.
    { eapply reachable_step; [|done]. by eapply unpruned_path_reachable. }
    destruct (Hcov Hff e He) as [Hbad|(id' & d0 & d' & Hq & Hk & Hd0 & Hd' & Hdd)].
    { by apply Hfresh in Hbad. }
    pose proof (depth_inj _ _ _ _ Hd Hd0) as <-.
    unfold key, cfg in Hk.
    destruct (heap st !! id') as [nd'|] eqn:Hid'; [|done]. simpl in Hk.
    exists id', nd', d'. split; [|split; [done|split; [|split; [done|lia]]]].
    + eapply enqueued_before; [done..|lia].
    + apply Hinj; [|done|congruence].
      eapply heap_reachable; [apply Hinv|done].
Qed.

End runs.



(** C3. On a solved root both solvers return the one-node tree of the
    root.  The depth-first solver makes the single call on the root and
    marks nothing; the breadth-first solver takes the first node off the
    deque and returns it: the heap, [seen] and the record of enqueued nodes
    are still those the loop started with, so no configuration other than
    the root had its extensions computed. *)
Theorem solved_root_one_node `{Puzzle C} fuel (root : C) :
  is_solved root = true →
  depth_first_run (S fuel) root =
    Some (Some (TNode root []), DfsState ∅ [(root, ∅)]) ∧
  depth_first_solve (S fuel) root = Some (Some (TNode root [])) ∧
  _helper_bfs (S fuel) root =
    Some (Some 0, BfsState (bfs_init_heap root) [] {[first_node_str root]} [0]) ∧
  breadth_first_solve (S fuel) root = Some (Some (TNode root [])).
Proof.
  intros Hs.
  assert (depth_first_run (S fuel) root =
    Some (Some (TNode root []), DfsState ∅ [(root, ∅)])) as Hd.
  { unfold depth_first_run. simpl. by rewrite Hs. }
  assert (_helper_bfs (S fuel) root =
    Some (Some 0, BfsState (bfs_init_heap root) [] {[first_node_str root]} [0]))
    as Hb.
  { unfold _helper_bfs. rewrite bfs_init_eq. simpl. by rewrite Hs. }
  split; [done|]. split; [unfold depth_first_solve; by rewrite Hd|].
  split; [done|].
  unfold breadth_first_solve, breadth_first_run. rewrite Hb. simpl.
  done.
Qed.

(** C6. In one call of [depth_first_solve] the first invocation of
    [_helper_dfs] is on the root with an empty set; every later invocation
    is on an extension whose key is already in the set when the invocation
    starts; and the configuration of an invocation has a key that is in
    none of the sets seen by earlier invocations: a key once in the set is
    never recursed on again. *)
Theorem dfs_marks_before_recursing `{Puzzle C} fuel (root : C) r st :
  depth_first_run fuel root = Some (r, st) →
  head (dfs_calls st) = Some (root, ∅) ∧
  (∀ j x s, dfs_calls st !! j = Some (x, s) → 0 < j → str x ∈ s) ∧
  (∀ i j x s y s',
     dfs_calls st !! i = Some (x, s) → dfs_calls st !! j = Some (y, s') →
     i < j → str y ∉ s).
Proof.
  intros Hrun.
  apply depth_first_run_calls in Hrun as ([Hin Hout] & new & Hnew & _).
  split; [by rewrite Hnew|]. done.
Qed.

(** C7. When the configurations reachable from the root have finitely many
    keys and none of them is solved, both solvers return [None], for every
    bound on the recursion depth and on the number of rounds that is larger
    than the number of keys plus one. *)
Theorem exhaustion_returns_None `{Puzzle C} (root : C) (ks : gset string) fuel :
  (∀ c, reachable root c → str c ∈ ks) →
  (∀ c, reachable root c → is_solved c = false) →
  size ks + 1 < fuel →
  depth_first_solve fuel root = Some None ∧
  breadth_first_solve fuel root = Some None.
Proof.
  intros Hks Hun Hfuel. split.
  { apply (depth_first_solve_exhausts root ks); [done|done|lia]. }
  unfold breadth_first_solve, breadth_first_run.
  destruct (bfs_loop_terminates root ks fuel [] 0
    (BfsState (bfs_init_heap root) [0] {[first_node_str root]} [0]))
    as (res & st & Hrun); [done|apply bfs_inv_init| | |].
  { by intros id nd ?%elem_of_nil. }
  { simpl. assert (size (ks ∖ {[first_node_str root]}) ≤ size ks)
      by (apply subseteq_size; set_solver). lia. }
  assert (_helper_bfs fuel root = Some (res, st)) as Hb
    by (unfold _helper_bfs; by rewrite bfs_init_eq).
  rewrite Hb. simpl. destruct res as [r|]; [|done].
  apply _helper_bfs_inv in Hb as (D & lvl & nd & Hinv & _ & _ & Hr & Hs).
  rewrite Hun in Hs; [done|]. eapply heap_reachable; [apply Hinv|done].
Qed.

(** X6. The breadth-first solver returns a shortest solution, provided that
    configurations reachable from the root with equal keys are equal and
    that none of their keys is the rendering of the first node with which
    [seen] starts: the number of moves of the returned chain is at most the
    length of any unpruned path from the root to a solved configuration. *)
Theorem breadth_first_solve_minimal `{Puzzle C} fuel (root : C) t n c :
  (∀ c1 c2, reachable root c1 → reachable root c2 → str c1 = str c2 → c1 = c2) →
  (∀ c, reachable root c → str c ≠ first_node_str root) →
  breadth_first_solve fuel root = Some (Some t) →
  solution root n c →
  t_puzzle t = root ∧ linear t = true ∧ is_solved (final_puzzle t) = true ∧
  moves t ≤ n.
Proof.
  intros Hinj Hfresh Hrun [Hpath Hsolved].
  unfold breadth_first_solve, breadth_first_run in Hrun.
  destruct (_helper_bfs fuel root) as [[[r|] st]|] eqn:Hb; simpl in Hrun; [|done..].
  apply _helper_bfs_inv in Hb as (D & lvl & nd & Hinv & Hpr & Hd & Hr & Hs).
  destruct (_helper_bfs_rebuild_chain root (heap st) r nd lvl)
    as (h' & t' & Hreb & Ht' & Hlin & Hlen & Hroot & Hfin);
    [apply Hinv|done|done|].
  rewrite Hreb in Hrun. simpl in Hrun. rewrite Ht' in Hrun. simpl in Hrun.
  injection Hrun as <-.
  split; [done|]. split; [done|]. split; [by rewrite Hfin|].
  unfold moves. rewrite (linear_node_count _ Hlin), Hlen.
  destruct (decide (lvl ≤ n)) as [|Hlt]; [lia|]. exfalso.
  destruct (unpruned_path_covered root D r lvl st n c Hinj Hfresh Hinv Hpr Hd Hpath)
    as (id & x & d & HD & Hid & Hx & _); [lia|].
  destruct (Hpr _ _ HD Hid) as [Hun _]. congruence.
Qed.

(** ** The solvers on concrete puzzles *)

Lemma follow_reachable `{Puzzle C} (root p : C) ks e :
  reachable root p → follow p ks = Some e → reachable root e.
Proof.
  revert p. induction ks as [|k ks IH]; intros p Hp; simpl.
  - by intros [= <-].
  - destruct (extensions p !! k) as [x|] eqn:Hk; [|done]. simpl.
    apply IH. eapply reachable_step; [done|]. by eapply list_elem_of_lookup_2.
Qed.

Lemma solved_root_one_node_witness :
  is_solved mn_solved = true ∧
  depth_first_solve 1 mn_solved = Some (Some (TNode mn_solved [])) ∧
  breadth_first_solve 1 mn_solved = Some (Some (TNode mn_solved [])).
Proof.
  assert (is_solved mn_solved = true) as E by (vm_compute; reflexivity).
  split; [exact E|].
  destruct (solved_root_one_node 0 mn_solved E) as (_ & Hd & _ & Hb).
  split; [exact Hd|exact Hb].
Defined.

Lemma dfs_marks_before_recursing_witness :
  ∃ r st, depth_first_run 10 mn_cycle = Some (r, st) ∧
    head (dfs_calls st) = Some (mn_cycle, ∅) ∧
    (∀ j x s, dfs_calls st !! j = Some (x, s) → 0 < j → str x ∈ s) ∧
    (∀ i j x s y s',
       dfs_calls st !! i = Some (x, s) → dfs_calls st !! j = Some (y, s') →
       i < j → str y ∉ s).
Proof.
  destruct (depth_first_run 10 mn_cycle) as [[r st]|] eqn:E.
  - exists r, st. split; [reflexivity|].
    exact (dfs_marks_before_recursing 10 mn_cycle r st E).
  - exfalso. vm_compute in E. discriminate E.
Defined.


(** The first node is rendered with its children, so the string with which
    [seen] starts is longer than the key of the root. *)
Lemma length_append (s t : string) :
  String.length (s +:+ t) = String.length s + String.length t.
Proof. induction s as [|a s IH]; simpl; [done|]. by rewrite <-IH. Qed.

Lemma first_node_str_not_key `{Puzzle C} (root : C) :
  str root ≠ first_node_str root.
Proof.
  intros E. apply (f_equal String.length) in E. unfold first_node_str in E.
  rewrite !length_append in E. simpl in E. lia.
Qed.

(** C5, on the code.  [_helper_bfs] starts [seen] with the rendering of
    the first node, which is never the key of the root, so the key of the
    root is not in [seen] when the loop starts, for any root.  On
    [mn_cycle] the extension found two moves later that equals the root is
    then marked, gets its own children (nodes 7 and 8) and is put on the
    deque as node 3. *)
Theorem bfs_root_key_not_recorded :
  (∀ `{Puzzle C} (root : C) st, bfs_init root = Some st → str root ∉ seen st) ∧
  ∃ res st,
    _helper_bfs 10 mn_cycle = Some (res, st) ∧
    cfg (heap st) 3 = Some mn_cycle ∧
    children <$> heap st !! 3 = Some [7; 8] ∧
    enqueued st = [0; 1; 2; 3; 4] ∧
    str mn_cycle ∈ seen st.
Proof.
  split.
  - intros C H root st. rewrite bfs_init_eq. intros [= <-]. simpl.
    rewrite elem_of_singleton. apply first_node_str_not_key.
  - eexists _, _.
    split; [vm_compute; reflexivity|].
    split; [vm_compute; reflexivity|].
    split; [vm_compute; reflexivity|].
    split; [vm_compute; reflexivity|].
    by vm_compute.
Qed.

Lemma mn_stuck_reachable c :
  reachable mn_stuck c → c = mn_stuck ∨ c = mn_stuck'.
Proof.
  assert (extensions mn_stuck = [mn_stuck']) as E by (vm_compute; reflexivity).
  assert (extensions mn_stuck' = [mn_stuck]) as E' by (vm_compute; reflexivity).
  induction 1 as [|c e Hc IH He]; [by left|].
  destruct IH as [->| ->].
  - rewrite E in He. apply list_elem_of_singleton in He. by right.
  - rewrite E' in He. apply list_elem_of_singleton in He. by left.
Defined.

Lemma exhaustion_returns_None_witness :
  size ({[str mn_stuck; str mn_stuck']} : gset string) + 1 < 4 ∧
  depth_first_solve 4 mn_stuck = Some None ∧
  breadth_first_solve 4 mn_stuck = Some None.
Proof.
  assert (size ({[str mn_stuck; str mn_stuck']} : gset string) + 1 < 4) as Hfuel
    by (vm_compute; lia).
  split; [exact Hfuel|].
  apply (exhaustion_returns_None mn_stuck {[str mn_stuck; str mn_stuck']} 4).
  - intros c Hc. destruct (mn_stuck_reachable c Hc) as [->| ->]; set_solver.
  - intros c Hc.
    destruct (mn_stuck_reachable c Hc) as [->| ->]; vm_compute; reflexivity.
  - exact Hfuel.
Defined.

(** C1, on the code.  In the puzzle [maze] distinct configurations have
    distinct keys, and the key of [Near] is the string with which
    [_helper_bfs] starts [seen] on the root [Start].  [Near] is solved and
    two moves away from [Start], yet [breadth_first_solve] skips it as
    already visited and returns the chain of three moves that ends in
    [Goal]; [depth_first_solve] returns the chain of two moves. *)
Theorem bfs_chain_not_shortest :
  (∀ c1 c2 : maze, str c1 = str c2 → c1 = c2) ∧
  str Near = first_node_str Start ∧
  solution Start 2 Near ∧
  breadth_first_solve 10 Start = Some (Some (chain_tree Start [Mid; Far; Goal])) ∧
  moves (chain_tree Start [Mid; Far; Goal]) = 3 ∧
  depth_first_solve 10 Start = Some (Some (chain_tree Start [Mid; Near])).
Proof.
  split.
  { intros [] []; vm_compute; intros E; try reflexivity; discriminate E. }
  split; [vm_compute; reflexivity|].
  split.
  { split; [|reflexivity].
    apply (unpruned_step Start 1 Mid Near); [|reflexivity|simpl; by left].
    apply (unpruned_step Start 0 Start Mid); [constructor|reflexivity|simpl; by left]. }
  split; [vm_compute; reflexivity|].
  split; [vm_compute; reflexivity|].
  vm_compute; reflexivity.
Qed.

Lemma mn_slide_reachable c :
  reachable mn_slide c → c = mn_slide ∨ c = mn_slide'.
Proof.
  assert (extensions mn_slide = [mn_slide']) as E by (vm_compute; reflexivity).
  assert (extensions mn_slide' = [mn_slide]) as E' by (vm_compute; reflexivity).
  induction 1 as [|c e Hc IH He]; [by left|].
  destruct IH as [->| ->].
  - rewrite E in He. apply list_elem_of_singleton in He. by right.
  - rewrite E' in He. apply list_elem_of_singleton in He. by left.
Defined.

Lemma breadth_first_solve_minimal_witness :
  breadth_first_solve 5 mn_slide = Some (Some (chain_tree mn_slide [mn_slide'])) ∧
  solution mn_slide 1 mn_slide' ∧
  moves (chain_tree mn_slide [mn_slide']) ≤ 1.
Proof.
  assert (breadth_first_solve 5 mn_slide =
          Some (Some (chain_tree mn_slide [mn_slide']))) as E
    by (vm_compute; reflexivity).
  assert (solution mn_slide 1 mn_slide') as Hsol.
  { split; [|vm_compute; reflexivity].
    apply (unpruned_step mn_slide 0 mn_slide mn_slide');
      [constructor|reflexivity|vm_compute; by left]. }
  split; [exact E|]. split; [exact Hsol|].
  apply (breadth_first_solve_minimal 5 mn_slide _ 1 mn_slide'); [| |exact E|exact Hsol].
  - intros c1 c2 H1 H2.
    destruct (mn_slide_reachable c1 H1) as [->| ->],
             (mn_slide_reachable c2 H2) as [->| ->];
      vm_compute; intros Hk; try reflexivity; discriminate Hk.
  - intros c Hc. destruct (mn_slide_reachable c Hc) as [->| ->];
      vm_compute; intros Hk; discriminate Hk.
Defined.

(** C9. The peg puzzle with the single row [* * . *] is accepted by
    [__init__]; its [extensions] are one configuration, whose grid is
    [. . * *] and which prints as that row followed by the rule of five
    underscores; and [is_solved] is false on the starting configuration. *)
Theorem peg_row_scenario :
  ∃ p e,
    GridPeg.row_puzzle = Some p ∧
    GridPeg.extensions p = Some [e] ∧
    GridPeg._marker e = [["."; "."; "*"; "*"]]%string ∧
    GridPeg.__str__ e = ("..**" +:+ nl +:+ "_____")%string ∧
    GridPeg.is_solved p = false.
Proof.
  eexists _, _.
  split; [vm_compute; reflexivity|].
  split; [vm_compute; reflexivity|].
  split; [vm_compute; reflexivity|].
  split; vm_compute; reflexivity.
Qed.

(** ** Rendering of grids *)

Lemma append_cons a (s t : string) : String a s +:+ t = String a (s +:+ t).
Proof. reflexivity. Qed.

Lemma append_assoc (s t u : string) : (s +:+ t) +:+ u = s +:+ (t +:+ u).
Proof. induction s as [|a s IH]; [done|]. rewrite !append_cons. by f_equal. Qed.

Lemma append_nil_r (s : string) : s +:+ "" = s.
Proof. induction s as [|a s IH]; [done|]. rewrite append_cons. by f_equal. Qed.

Lemma drop_last_snoc (s : string) : drop_last (s +:+ nl) = s.
Proof.
  unfold drop_last. rewrite length_append. simpl.
  replace (String.length s + 1 - 1) with (String.length s) by lia.
  induction s as [|a s IH]; [done|]. rewrite append_cons. simpl. by rewrite IH.
Qed.

Lemma foldl_row_str (row : list string) (acc t : string) :
  foldl (λ s j, s +:+ j) acc row +:+ t = acc +:+ row_str row t.
Proof.
  revert acc. induction row as [|x row IH]; intros acc; simpl; [done|].
  by rewrite IH, append_assoc.
Qed.

Lemma foldl_rows_str (g : list (list string)) (acc t : string) :
  foldl (λ string_ i, foldl (λ s j, s +:+ j) string_ i +:+ nl) acc g +:+ t
  = acc +:+ rows_str g t.
Proof.
  revert acc. induction g as [|row g IH]; intros acc; simpl; [done|].
  by rewrite IH, append_assoc, foldl_row_str.
Qed.

Lemma render_eq (g : list (list string)) :
  g ≠ [] → render g = rows_str g "_____".
Proof.
  intros Hg. unfold render, render_rows.
  induction g as [|row g' _] using rev_ind; [done|]. clear Hg.
  rewrite foldl_app. simpl. rewrite drop_last_snoc.
  pose proof (foldl_rows_str (g' ++ [row]) "" "_____") as E.
  change ("" +:+ ?x) with x in E. rewrite <-E, foldl_app. simpl.
  by rewrite append_assoc.
Qed.

Lemma single_char_inv (s : string) :
  String.length s = 1 → ∃ a, s = String a "".
Proof. destruct s as [|a [|b s]]; simpl; [done|by eexists|done]. Qed.

Lemma row_str_inj (r1 r2 : list string) (t1 t2 : string) :
  length r1 = length r2 →
  Forall (λ s, String.length s = 1) r1 → Forall (λ s, String.length s = 1) r2 →
  row_str r1 t1 = row_str r2 t2 → r1 = r2 ∧ t1 = t2.
Proof.
  revert r2. induction r1 as [|s1 r1 IH]; intros [|s2 r2] Hlen H1 H2; simpl in *;
    try done.
  apply Forall_cons in H1 as [(a1 & ->)%single_char_inv H1].
  apply Forall_cons in H2 as [(a2 & ->)%single_char_inv H2].
  rewrite !append_cons. intros [= -> E].
  destruct (IH r2) as [-> ->]; [lia|done..].
Qed.

Lemma rows_str_inj (n m : nat) (g1 g2 : list (list string)) (t : string) :
  shape n m g1 → shape n m g2 → single_chars g1 → single_chars g2 →
  rows_str g1 t = rows_str g2 t → g1 = g2.
Proof.
  intros [Hn1 Hm1] [Hn2 Hm2]. subst n. revert g2 Hn2 Hm2 Hm1.
  induction g1 as [|r1 g1 IH]; intros [|r2 g2] Hlen Hm2 Hm1 Hs1 Hs2; simpl in *;
    try done.
  apply Forall_cons in Hm1 as [Hr1 Hm1]. apply Forall_cons in Hm2 as [Hr2 Hm2].
  apply Forall_cons in Hs1 as [Hc1 Hs1]. apply Forall_cons in Hs2 as [Hc2 Hs2].
  intros E. apply row_str_inj in E as [-> E]; [|lia|done..].
  unfold nl in E. rewrite !append_cons in E. injection E as E.
  f_equal. apply IH; [lia|done..].
Qed.

(** ** The sliding-tile puzzle *)

Lemma py_index_lt len i k : py_index len i = Some k → k < len.
Proof. unfold py_index. repeat case_match; intros [= <-]; lia. Qed.

Lemma py_get_elem {A} (l : list A) i x : py_get l i = Some x → x ∈ l.
Proof.
  unfold py_get. destruct (py_index _ _) as [k|]; [|done]. simpl.
  apply list_elem_of_lookup_2.
Qed.

Lemma py_set_inv {A} (l : list A) i x l' :
  py_set l i x = Some l' → ∃ k, k < length l ∧ l' = <[k := x]> l.
Proof.
  unfold py_set. destruct (py_index _ _) as [k|] eqn:Hk; [|done]. simpl.
  intros [= <-]. exists k. split; [by eapply py_index_lt|done].
Qed.

Lemma get2_elem {A} (g : list (list A)) i j x :
  get2 g i j = Some x → ∃ row, row ∈ g ∧ x ∈ row.
Proof.
  unfold get2. destruct (py_get g i) as [row|] eqn:Hrow; [|done]. simpl.
  intros Hx. exists row. split; by eapply py_get_elem.
Qed.

Lemma set2_Forall {A} (Q : list A → Prop) (g : list (list A)) i j x g' :
  (∀ row k, Q row → Q (<[k := x]> row)) →
  set2 g i j x = Some g' → Forall Q g → length g' = length g ∧ Forall Q g'.
Proof.
  intros HQ. unfold set2.
  destruct (py_get g i) as [row|] eqn:Hrow; [|done]. simpl.
  destruct (py_set row j x) as [row'|] eqn:Hrow'; [|done]. simpl.
  intros Hg' Hall. apply py_set_inv in Hrow' as (k & _ & ->).
  apply py_set_inv in Hg' as (k' & _ & ->).
  split; [by rewrite length_insert|]. apply Forall_insert; [done|].
  apply HQ. eapply Forall_forall; [exact Hall|]. by eapply py_get_elem.
Qed.

Lemma set2_shape n m (g : list (list string)) i j x g' :
  set2 g i j x = Some g' → shape n m g → shape n m g'.
Proof.
  intros Hset [Hn Hm].
  destruct (set2_Forall (λ row, length row = m) g i j x g')
    as [Hlen Hall]; [|done|done|].
  - intros row k. by rewrite length_insert.
  - split; [lia|done].
Qed.

Lemma set2_single_chars (g : list (list string)) i j x g' :
  set2 g i j x = Some g' → String.length x = 1 →
  single_chars g → single_chars g'.
Proof.
  intros Hset Hx Hg.
  destruct (set2_Forall (Forall (λ s, String.length s = 1)) g i j x g')
    as [_ Hall]; [|done|done|done].
  intros row k Hrow. by apply Forall_insert.
Qed.

Lemma get2_single_chars (g : list (list string)) i j x :
  get2 g i j = Some x → single_chars g → String.length x = 1.
Proof.
  intros (row & Hrow & Hx)%get2_elem Hg.
  pose proof (proj1 (Forall_forall _ _) Hg row Hrow) as Hr.
  exact (proj1 (Forall_forall _ _) Hr x Hx).
Qed.

Lemma MN_helper_id (g : list (list string)) :
  MN._extensions_helper_tuple_list g = g.
Proof.
  unfold MN._extensions_helper_tuple_list.
  assert (∀ acc, foldl (λ a (row : list string), a ++ [row]) acc g = acc ++ g)
    as Hfold.
  { induction g as [|row g IH]; intros acc; simpl; [by rewrite app_nil_r|].
    by rewrite IH, <-app_assoc. }
  apply (Hfold []).
Qed.

Lemma MN_init_Some fg tg p :
  MN.__init__ fg tg = Some p →
  ∃ row0, fg !! 0 = Some row0 ∧ Forall (λ r, length r = length row0) fg ∧
          p = MN.Mk (length fg) (length row0) fg tg.
Proof.
  unfold MN.__init__. destruct (0 <? length fg) eqn:Hlen; simpl; [|done].
  apply Nat.ltb_lt in Hlen.
  assert (py_get fg 0 = fg !! 0) as ->.
  { unfold py_get, py_index. simpl.
    destruct (0 <? Z.of_nat (length fg))%Z eqn:E; [done|]. lia. }
  destruct (fg !! 0) as [row0|] eqn:H0; [|done]. simpl.
  destruct (forallb _ fg) eqn:Hall; simpl; [|done].
  destruct (mapM _ tg) as [ok|]; [|done]. simpl.
  destruct (forallb id ok); simpl; [|done].
  intros [= <-]. exists row0. split; [done|]. split; [|done].
  apply Forall_forall. intros r Hr.
  rewrite forallb_forall in Hall. apply Nat.eqb_eq, Hall.
  by apply list_elem_of_In.
Qed.

Lemma MN_slide_inv self grid i j i' j' e :
  MN.slide self grid i j i' j' = Some e →
  ∃ v g1 g2, get2 grid i' j' = Some v ∧ set2 grid i j v = Some g1 ∧
             set2 g1 i' j' "*" = Some g2 ∧
             MN.__init__ g2 (MN.to_grid self) = Some e.
Proof.
  unfold MN.slide. rewrite list_fmap_id. intros Hs.
  destruct (get2 grid i' j') as [v|] eqn:Hv; [|done]. simpl in Hs.
  destruct (set2 grid i j v) as [g1|] eqn:H1; [|done]. simpl in Hs.
  destruct (set2 g1 i' j' "*") as [g2|] eqn:H2; [|done]. simpl in Hs.
  rewrite MN_helper_id in Hs. by exists v, g1, g2.
Qed.

Lemma MN_check_inv self grid x len i j i' j' l e :
  MN.check self grid x len i j i' j' = Some l → e ∈ l →
  MN.slide self grid i j i' j' = Some e.
Proof.
  unfold MN.check. destruct (in_range x len).
  - destruct (get2 grid i' j'); [|done]. simpl.
    destruct (MN.slide self grid i j i' j') as [e'|]; [|done]. simpl.
    intros [= <-] ->%list_elem_of_singleton. done.
  - intros [= <-] ?%elem_of_nil. done.
Qed.

Lemma MN_cell_inv self grid i j l e :
  MN.cell_extensions self grid i j = Some l → e ∈ l →
  ∃ i' j', MN.slide self grid i j i' j' = Some e.
Proof.
  unfold MN.cell_extensions. destruct (get2 grid i j) as [c|]; [|done]. simpl.
  case_bool_decide; [|by intros [= <-] ?%elem_of_nil].
  destruct (MN.check _ _ (j + 1)%Z _ _ _ _ _) as [r|] eqn:Hr; [|done]. simpl.
  destruct (MN.check _ _ (j - 1)%Z _ _ _ _ _) as [l'|] eqn:Hl; [|done]. simpl.
  destruct (MN.check _ _ (i + 1)%Z _ _ _ _ _) as [a|] eqn:Ha; [|done]. simpl.
  destruct (MN.check _ _ (i - 1)%Z _ _ _ _ _) as [b|] eqn:Hb; [|done]. simpl.
  intros [= <-]. rewrite !elem_of_app.
  intros [He|[He|[He|He]]].
  - exists i, (j + 1)%Z. eapply MN_check_inv; [exact Hr|exact He].
  - exists i, (j - 1)%Z. eapply MN_check_inv; [exact Hl|exact He].
  - exists (i + 1)%Z, j. eapply MN_check_inv; [exact Ha|exact He].
  - exists (i - 1)%Z, j. eapply MN_check_inv; [exact Hb|exact He].
Qed.

Lemma mapM_concat_elem {A B} (f : A → option (list B)) (l : list A) ls e :
  mapM f l = Some ls → e ∈ concat ls → ∃ x lx, x ∈ l ∧ f x = Some lx ∧ e ∈ lx.
Proof.
  intros Hm He. apply mapM_Some_1 in Hm.
  apply list_elem_of_In, in_concat in He as (lx & Hlx & He).
  apply list_elem_of_In in Hlx, He.
  apply list_elem_of_lookup in Hlx as [k Hk].
  destruct (Forall2_lookup_r _ _ _ _ _ Hm Hk) as (x & Hx & Hfx).
  exists x, lx. split; [by eapply list_elem_of_lookup_2|done].
Qed.

Lemma MN_extensions_inv p exts e :
  MN.extensions p = Some exts → e ∈ exts →
  ∃ i j i' j', MN.slide p (MN.from_grid p) i j i' j' = Some e.
Proof.
  unfold MN.extensions. rewrite MN_helper_id.
  destruct (mapM _ (range (MN.n p))) as [ls|] eqn:Hls; [|done]. simpl.
  intros [= <-] He.
  destruct (mapM_concat_elem _ _ _ _ Hls He) as (i & li & _ & Hli & Hei).
  destruct (mapM _ (range (MN.m p))) as [ls'|] eqn:Hls'; [|done]. simpl in Hli.
  injection Hli as <-.
  destruct (mapM_concat_elem _ _ _ _ Hls' Hei) as (j & lj & _ & Hlj & Hej).
  destruct (MN_cell_inv _ _ _ _ _ _ Hlj Hej) as (i' & j' & Hs).
  by exists i, j, i', j'.
Qed.

Lemma mn_inv_root root :
  MN.valid root → single_chars (MN.from_grid root) → mn_inv root root.
Proof.
  intros (row0 & H0 & Hall & Hroot)%MN_init_Some Hs.
  assert (MN.n root = length (MN.from_grid root)) as Hn by by rewrite Hroot at 1.
  assert (MN.m root = length row0) as Hm by by rewrite Hroot at 1.
  split; [done|]. split; [done|]. split; [done|]. split; [|done].
  split; [done|]. by rewrite Hm.
Qed.

Lemma MN_slide_target self grid i j i' j' e :
  MN.slide self grid i j i' j' = Some e → MN.to_grid e = MN.to_grid self.
Proof.
  intros (v & g1 & g2 & _ & _ & _ & Hinit)%MN_slide_inv.
  by apply MN_init_Some in Hinit as (row0 & _ & _ & ->).
Qed.

Lemma mn_inv_step root c e :
  mn_inv root c → e ∈ extensions c → mn_inv root e.
Proof.
  intros (Ht & Hn & Hm & Hshape & Hs). simpl.
  destruct (MN.extensions c) as [exts|] eqn:Hexts; simpl;
    [|by intros ?%elem_of_nil].
  intros He. destruct (MN_extensions_inv _ _ _ Hexts He) as (i & j & i' & j' & Hsl).
  pose proof (MN_slide_target _ _ _ _ _ _ _ Hsl) as Hte.
  apply MN_slide_inv in Hsl as (v & g1 & g2 & Hv & Hg1 & Hg2 & Hinit).
  apply MN_init_Some in Hinit as (row0 & H0 & _ & ->). simpl in *.
  assert (shape (MN.n root) (MN.m root) g2) as [Hlen Hrows].
  { eapply set2_shape; [exact Hg2|]. eapply set2_shape; [exact Hg1|done]. }
  assert (single_chars g2) as Hs2.
  { eapply set2_single_chars; [exact Hg2|done|].
    eapply set2_single_chars; [exact Hg1| |done].
    by eapply get2_single_chars. }
  split; [done|]. split; [done|]. split; [|done].
  eapply Forall_forall in Hrows; [exact Hrows|].
  by eapply list_elem_of_lookup_2.
Qed.

Lemma mn_inv_reachable root c :
  MN.valid root → single_chars (MN.from_grid root) →
  reachable root c → mn_inv root c.
Proof.
  intros Hv Hs. induction 1 as [|c e Hc IH He]; [by apply mn_inv_root|].
  by eapply mn_inv_step.
Qed.

(** C10, amended. Every configuration returned by [MNPuzzle.extensions]
    has the target grid of the configuration it extends; consequently,
    among the configurations reachable from a root made by [__init__] whose
    symbols are single characters, configurations with equal keys are
    equal, and [__eq__] holds of them. *)
Theorem mn_keys_identify_configurations :
  (∀ p exts e,
     MN.extensions p = Some exts → e ∈ exts → MN.to_grid e = MN.to_grid p) ∧
  (∀ root c1 c2,
     MN.valid root → single_chars (MN.from_grid root) →
     reachable root c1 → reachable root c2 →
     str c1 = str c2 → c1 = c2 ∧ MN.__eq__ c1 c2 = true).
Proof.
  split.
  { intros p exts e Hexts He.
    destruct (MN_extensions_inv _ _ _ Hexts He) as (i & j & i' & j' & Hsl).
    by eapply MN_slide_target. }
  intros root c1 c2 Hv Hs H1 H2 Hstr.
  destruct (mn_inv_reachable root c1 Hv Hs H1) as (Ht1 & Hn1 & Hm1 & Hsh1 & Hs1).
  destruct (mn_inv_reachable root c2 Hv Hs H2) as (Ht2 & Hn2 & Hm2 & Hsh2 & Hs2).
  assert (MN.n root ≠ 0) as Hpos.
  { apply MN_init_Some in Hv as (row0 & H0 & _ & Hroot).
    rewrite Hroot. simpl. apply lookup_lt_Some in H0. lia. }
  assert (∀ g, shape (MN.n root) (MN.m root) g → g ≠ []) as Hne.
  { intros g [Hlen _] ->. simpl in Hlen. lia. }
  simpl in Hstr. unfold MN.__str__ in Hstr.
  rewrite !render_eq in Hstr by by apply Hne.
  apply (rows_str_inj _ _ _ _ _ Hsh1 Hsh2 Hs1 Hs2) in Hstr.
  assert (c1 = c2) as ->.
  { destruct c1, c2. simpl in *. congruence. }
  split; [done|]. unfold MN.__eq__. by rewrite !bool_decide_eq_true_2.
Qed.

Lemma mn_keys_identify_configurations_witness :
  MN.valid mn_cycle ∧ single_chars (MN.from_grid mn_cycle) ∧
  follow mn_cycle [0; 0] = Some mn_cycle ∧
  MN.__eq__ mn_cycle mn_cycle = true.
Proof.
  assert (MN.valid mn_cycle) as Hv by (vm_compute; reflexivity).
  assert (single_chars (MN.from_grid mn_cycle)) as Hs
    by (repeat constructor).
  assert (follow mn_cycle [0; 0] = Some mn_cycle) as Hf
    by (vm_compute; reflexivity).
  split; [exact Hv|]. split; [exact Hs|]. split; [exact Hf|].
  apply (proj2 mn_keys_identify_configurations mn_cycle mn_cycle mn_cycle Hv Hs).
  - constructor.
  - exact (follow_reachable mn_cycle mn_cycle [0; 0] mn_cycle
             (reachable_root mn_cycle) Hf).
  - reflexivity.
Defined.

(** C10, as stated, fails. [fifteen] is a shuffled fifteen puzzle made by
    [__init__]; twenty moves lead from it to [fifteen'], in which the tiles
    1 and 11 and the tiles 12 and 2 have changed places.  Both print alike,
    since [__str__] writes the symbols of a row without separator, and
    they are different configurations. *)
Lemma fifteen_keys_collide :
  MN.__init__ (MN.from_grid fifteen) (MN.to_grid fifteen) = Some fifteen ∧
  reachable fifteen fifteen ∧ reachable fifteen fifteen' ∧
  str fifteen = str fifteen' ∧
  fifteen ≠ fifteen' ∧ MN.__eq__ fifteen fifteen' = false.
Proof.
  split; [vm_compute; reflexivity|].
  split; [constructor|].
  split.
  { apply (follow_reachable fifteen fifteen fifteen_moves); [constructor|].
    vm_compute. reflexivity. }
  split; [vm_compute; reflexivity|].
  split; [discriminate|]. vm_compute. reflexivity.
Qed.

(** *** [MNPuzzle.extensions] raises nothing on a puzzle made by [__init__] *)

Lemma py_index_in_range len i :
  in_range i len = true → py_index len i = Some (Z.to_nat i).
Proof.
  unfold in_range, py_index. intros [H0 Hlen]%andb_prop. by rewrite H0, Hlen.
Qed.

Lemma in_range_lt len i : in_range i len = true → Z.to_nat i < len.
Proof.
  unfold in_range. intros [H0 Hlen]%andb_prop.
  apply Z.leb_le in H0. apply Z.ltb_lt in Hlen. lia.
Qed.

Lemma elem_of_range len i : i ∈ range len → in_range i len = true.
Proof.
  unfold range, in_range.
  intros (k & -> & [_ Hk]%elem_of_seq)%list_elem_of_fmap.
  apply andb_true_intro. split; [apply Z.leb_le|apply Z.ltb_lt]; lia.
Qed.

Lemma py_get_in_range {A} (l : list A) i :
  in_range i (length l) = true → is_Some (py_get l i).
Proof.
  intros Hi. unfold py_get. rewrite (py_index_in_range _ _ Hi). simpl.
  apply lookup_lt_is_Some. by apply in_range_lt.
Qed.

Lemma py_set_in_range {A} (l : list A) i x :
  in_range i (length l) = true → is_Some (py_set l i x).
Proof.
  intros Hi. unfold py_set. rewrite (py_index_in_range _ _ Hi). by eexists.
Qed.

Lemma get2_in_range n m (g : list (list string)) i j :
  shape n m g → in_range i n = true → in_range j m = true →
  is_Some (get2 g i j).
Proof.
  intros [Hn Hm] Hi Hj. unfold get2. subst n.
  destruct (py_get_in_range g i Hi) as [row Hrow]. rewrite Hrow. simpl.
  apply py_get_in_range.
  by rewrite (proj1 (Forall_forall _ _) Hm row (py_get_elem _ _ _ Hrow)).
Qed.

Lemma set2_in_range n m (g : list (list string)) i j x :
  shape n m g → in_range i n = true → in_range j m = true →
  is_Some (set2 g i j x).
Proof.
  intros [Hn Hm] Hi Hj. unfold set2. subst n.
  destruct (py_get_in_range g i Hi) as [row Hrow]. rewrite Hrow. simpl.
  destruct (py_set_in_range row j x) as [row' Hrow'].
  { by rewrite (proj1 (Forall_forall _ _) Hm row (py_get_elem _ _ _ Hrow)). }
  rewrite Hrow'. simpl. by apply py_set_in_range.
Qed.

Lemma MN_init_target fg tg p : MN.__init__ fg tg = Some p → target_ok tg.
Proof.
  unfold MN.__init__. destruct (0 <? length fg); simpl; [|done].
  destruct (py_get fg 0); [|done]. simpl.
  destruct (forallb _ fg); simpl; [|done].
  destruct (mapM _ tg) as [ok|] eqn:Hok; [|done]. simpl.
  destruct (forallb id ok) eqn:Hall; simpl; [|done].
  intros _. by exists ok.
Qed.

Lemma MN_init_intro n m fg tg :
  n ≠ 0 → shape n m fg → target_ok tg →
  MN.__init__ fg tg = Some (MN.Mk n m fg tg).
Proof.
  intros Hn [Hlen Hrows] (ok & Hok & Hall). unfold MN.__init__.
  assert ((0 <? length fg) = true) as -> by (apply Nat.ltb_lt; lia). simpl.
  destruct (py_get_in_range fg 0) as [row0 Hrow0].
  { unfold in_range. simpl. apply Z.ltb_lt. lia. }
  rewrite Hrow0. simpl.
  assert (length row0 = m) as Hm.
  { exact (proj1 (Forall_forall _ _) Hrows row0 (py_get_elem _ _ _ Hrow0)). }
  assert (forallb (λ r, length r =? length row0) fg = true) as ->.
  { apply forallb_forall. intros r Hr%list_elem_of_In. apply Nat.eqb_eq.
    rewrite Hm. exact (proj1 (Forall_forall _ _) Hrows r Hr). }
  simpl. rewrite Hok. simpl. rewrite Hall. simpl. by rewrite Hlen, Hm.
Qed.

Lemma MN_valid_shape p :
  MN.valid p →
  MN.n p ≠ 0 ∧ shape (MN.n p) (MN.m p) (MN.from_grid p) ∧ target_ok (MN.to_grid p).
Proof.
  intros Hv. pose proof (MN_init_target _ _ _ Hv) as Htg.
  apply MN_init_Some in Hv as (row0 & H0 & Hall & Hp).
  rewrite Hp. simpl. apply lookup_lt_Some in H0.
  split; [lia|]. split; [|done]. by split.
Qed.

Lemma MN_slide_total p i j i' j' :
  MN.valid p →
  in_range i (MN.n p) = true → in_range j (MN.m p) = true →
  in_range i' (MN.n p) = true → in_range j' (MN.m p) = true →
  is_Some (MN.slide p (MN.from_grid p) i j i' j').
Proof.
  intros (Hn & Hshape & Htg)%MN_valid_shape Hi Hj Hi' Hj'.
  unfold MN.slide. rewrite list_fmap_id.
  destruct (get2_in_range _ _ _ i' j' Hshape Hi' Hj') as [v ->]. simpl.
  destruct (set2_in_range _ _ _ i j v Hshape Hi Hj) as [g1 Hg1].
  rewrite Hg1. simpl.
  pose proof (set2_shape _ _ _ _ _ _ _ Hg1 Hshape) as Hshape1.
  destruct (set2_in_range _ _ _ i' j' "*" Hshape1 Hi' Hj') as [g2 Hg2].
  rewrite Hg2. simpl.
  pose proof (set2_shape _ _ _ _ _ _ _ Hg2 Hshape1) as Hshape2.
  rewrite MN_helper_id, (MN_init_intro _ _ _ _ Hn Hshape2 Htg). by eexists.
Qed.

Lemma MN_check_total p x len i j i' j' :
  MN.valid p →
  in_range i (MN.n p) = true → in_range j (MN.m p) = true →
  (in_range x len = true →
   in_range i' (MN.n p) = true ∧ in_range j' (MN.m p) = true) →
  is_Some (MN.check p (MN.from_grid p) x len i j i' j').
Proof.
  intros Hv Hi Hj Hx. unfold MN.check.
  destruct (in_range x len); [|by eexists].
  destruct Hx as [Hi' Hj']; [done|].
  pose proof Hv as (_ & Hshape & _)%MN_valid_shape.
  destruct (get2_in_range _ _ _ i' j' Hshape Hi' Hj') as [v ->]. simpl.
  destruct (MN_slide_total p i j i' j') as [e ->]; [done..|]. by eexists.
Qed.

Lemma MN_cell_total p i j :
  MN.valid p → in_range i (MN.n p) = true → in_range j (MN.m p) = true →
  is_Some (MN.cell_extensions p (MN.from_grid p) i j).
Proof.
  intros Hv Hi Hj. unfold MN.cell_extensions.
  pose proof Hv as (_ & Hshape & _)%MN_valid_shape.
  destruct (get2_in_range _ _ _ i j Hshape Hi Hj) as [c ->]. simpl.
  case_bool_decide; [|by eexists].
  destruct (MN_check_total p (j + 1)%Z (MN.m p) i j i (j + 1)%Z) as [r ->];
    [done..| |]; [by intros ?|]. simpl.
  destruct (MN_check_total p (j - 1)%Z (MN.m p) i j i (j - 1)%Z) as [l ->];
    [done..| |]; [by intros ?|]. simpl.
  destruct (MN_check_total p (i + 1)%Z (MN.n p) i j (i + 1)%Z j) as [a ->];
    [done..| |]; [by intros ?|]. simpl.
  destruct (MN_check_total p (i - 1)%Z (MN.n p) i j (i - 1)%Z j) as [b ->];
    [done..| |]; [by intros ?|]. simpl.
  by eexists.
Qed.

(** On a puzzle made by [__init__], [extensions] raises nothing and every
    puzzle it returns passed the assertions of [__init__]. *)
Lemma MN_extensions_total p :
  MN.valid p →
  ∃ exts, MN.extensions p = Some exts ∧ extensions p = exts ∧
          Forall MN.valid exts.
Proof.
  intros Hv. unfold MN.extensions. rewrite MN_helper_id.
  assert (is_Some (mapM (λ i,
            (@concat _) <$> mapM (λ j, MN.cell_extensions p (MN.from_grid p) i j)
                              (range (MN.m p))) (range (MN.n p)))) as [ls Hls].
  { apply mapM_is_Some_2, Forall_forall. intros i Hi%elem_of_range. simpl.
    assert (is_Some (mapM (λ j, MN.cell_extensions p (MN.from_grid p) i j)
                       (range (MN.m p)))) as [lj ->]; [|by eexists].
    apply mapM_is_Some_2, Forall_forall. intros j Hj%elem_of_range. simpl.
    by apply MN_cell_total. }
  assert (MN.extensions p = Some (concat ls)) as Hexts.
  { unfold MN.extensions. by rewrite MN_helper_id, Hls. }
  exists (concat ls). rewrite Hls. simpl. split; [done|]. split.
  { unfold MN.extensions. by rewrite MN_helper_id, Hls. }
  apply Forall_forall. intros e He.
  destruct (MN_extensions_inv _ _ _ Hexts He) as (i & j & i' & j' & Hsl).
  apply MN_slide_inv in Hsl as (v & g1 & g2 & _ & _ & _ & Hinit).
  unfold MN.valid.
  pose proof Hinit as (row0 & _ & _ & ->)%MN_init_Some. done.
Qed.

(** ** Both solvers return on a graph with finitely many keys *)

Section returns.
Context `{Puzzle C} (root : C) (ks : gset string).
Hypothesis finite : ∀ c, reachable root c → str c ∈ ks.

Lemma dfs_loop_returns fuel p xs st :
  (∀ x st1, reachable root x → size (ks ∖ dfs_seen st1) < fuel →
     ∃ r st2, _helper_dfs fuel x st1 = Some (r, st2) ∧
              dfs_seen st1 ⊆ dfs_seen st2) →
  (∀ x, x ∈ xs → reachable root x) →
  size (ks ∖ dfs_seen st) ≤ fuel →
  ∃ r st', dfs_loop (_helper_dfs fuel) p xs st = Some (r, st') ∧
           dfs_seen st ⊆ dfs_seen st'.
Proof.
  intros IH. revert st. induction xs as [|x xs IHxs]; intros st Hxs Hsize; simpl.
  - by exists None, st.
  - assert (reachable root x) as Hx by (apply Hxs; left).
    assert (∀ y, y ∈ xs → reachable root y) as Hxs' by (intros; apply Hxs; by right).
    destruct (decide _) as [_|Hnew]; [by apply IHxs|].
    destruct (IH x (DfsState ({[str x]} ∪ dfs_seen st) (dfs_calls st)) Hx)
      as (r & st2 & -> & Hsub); simpl in *.
    { eapply Nat.lt_le_trans; [|exact Hsize].
      by apply size_difference_mark; [apply finite|]. }
    destruct r as [node|].
    { eexists _, _. split; [done|]. set_solver. }
    destruct (IHxs st2 Hxs') as (r & st' & -> & Hsub').
    { etrans; [|exact Hsize]. apply size_difference_mono. set_solver. }
    exists r, st'. split; [done|]. set_solver.
Qed.

Lemma _helper_dfs_returns fuel p st :
  reachable root p → size (ks ∖ dfs_seen st) < fuel →
  ∃ r st', _helper_dfs fuel p st = Some (r, st') ∧ dfs_seen st ⊆ dfs_seen st'.
Proof.
  revert p st. induction fuel as [|fuel IH]; intros p st Hp Hsize; [lia|]. simpl.
  destruct (is_solved p); [by eexists _, _|].
  destruct (fail_fast p); [by eexists _, _|].
  destruct (dfs_loop_returns fuel p (extensions p)
    (DfsState (dfs_seen st) (dfs_calls st ++ [(p, dfs_seen st)])))
    as (r & st' & -> & Hsub).
  - intros x st1 Hx Hlt. by apply IH.
  - intros x Hx. by eapply reachable_step.
  - simpl. lia.
  - by exists r, st'.
Qed.

(** X7. When the configurations reachable from the root have finitely many
    keys, both solvers return, for every bound larger than the number of
    keys plus one. *)
Theorem solvers_return fuel :
  size ks + 1 < fuel →
  (∃ r, depth_first_solve fuel root = Some r) ∧
  (∃ r, breadth_first_solve fuel root = Some r).
Proof.
  intros Hfuel. split.
  - unfold depth_first_solve, depth_first_run.
    destruct (_helper_dfs_returns fuel root dfs_init) as (r & st' & -> & _);
      [constructor| |by eexists].
    simpl. assert (size (ks ∖ ∅) ≤ size ks)
      by (apply subseteq_size; set_solver). lia.
  - unfold breadth_first_solve, breadth_first_run.
    destruct (bfs_loop_terminates root ks fuel [] 0
      (BfsState (bfs_init_heap root) [0] {[first_node_str root]} [0]))
      as (res & st & Hrun); [done|apply bfs_inv_init| | |].
    { by intros id nd ?%elem_of_nil. }
    { simpl. assert (size (ks ∖ {[first_node_str root]}) ≤ size ks)
        by (apply subseteq_size; set_solver). lia. }
    assert (_helper_bfs fuel root = Some (res, st)) as Hb
      by (unfold _helper_bfs; by rewrite bfs_init_eq).
    rewrite Hb. simpl. destruct res as [r|]; [|by eexists].
    apply _helper_bfs_inv in Hb as (D & lvl & nd & Hinv & _ & Hd & Hr & _).
    destruct (_helper_bfs_rebuild_chain root (heap st) r nd lvl)
      as (h' & t & -> & Ht & _); [apply Hinv|done|done|].
    simpl. rewrite Ht. by eexists.
Qed.

End returns.

(** ** The contract of the depth-first solver *)

Lemma strokes_inj n k : strokes n = strokes k → n = k.
Proof.
  revert k. induction n as [|n IH]; intros [|k]; simpl; try done.
  intros [= E]. f_equal. by apply IH.
Qed.

Lemma counter_dfs_diverges fuel n st :
  (∀ k, n < k → strokes k ∉ dfs_seen st) →
  _helper_dfs fuel (Count n) st = None.
Proof.
  revert n st. induction fuel as [|fuel IH]; intros n st Hnew; [done|]. simpl.
  destruct (decide _) as [Hin|_].
  { exfalso. apply (Hnew (S n)); [lia|exact Hin]. }
  rewrite IH; [done|]. simpl. intros k Hk.
  rewrite elem_of_union, elem_of_singleton. intros [E|Hin].
  - apply (strokes_inj k (S n)) in E. lia.
  - apply (Hnew k); [lia|done].
Qed.

(** C2, as stated, fails.  In the puzzle [counter] every configuration
    has one extension, all keys differ and nothing is solved: on the root
    [Count 0] the depth-first solver recurses without end, and whatever the
    bound on the depth of the recursion it returns neither a tree nor
    [None]. *)
Lemma depth_first_solve_never_returns :
  ¬ ∃ fuel r, depth_first_solve fuel (Count 0) = Some r.
Proof.
  intros (fuel & r & Hrun). unfold depth_first_solve, depth_first_run in Hrun.
  rewrite counter_dfs_diverges in Hrun; [done|].
  intros k _. apply not_elem_of_empty.
Qed.

(** C2, amended. Whatever [depth_first_solve] returns on a root is either
    [None] or a tree whose root node holds the root configuration, in which
    every node has at most one child, and whose final, childless node holds
    a solved configuration; and it does return on every root whose
    reachable configurations have finitely many keys, a bound on the depth
    of the recursion larger than the number of keys plus one being
    enough. *)
Theorem depth_first_solve_contract `{Puzzle C} (root : C) :
  (∀ fuel r, depth_first_solve fuel root = Some r →
     r = None ∨
     ∃ t, r = Some t ∧ t_puzzle t = root ∧ linear t = true ∧
          is_solved (final_puzzle t) = true) ∧
  (∀ (ks : gset string) fuel,
     (∀ c, reachable root c → str c ∈ ks) → size ks + 1 < fuel →
     ∃ r, depth_first_solve fuel root = Some r).
Proof.
  split.
  - intros fuel r. unfold depth_first_solve, depth_first_run.
    destruct (_helper_dfs fuel root dfs_init) as [[[t|] st]|] eqn:E; simpl;
      intros [= <-]; [right|by left].
    apply _helper_dfs_tree in E as (? & ? & ?). by exists t.
  - intros ks fuel Hfin Hfuel. unfold depth_first_solve, depth_first_run.
    destruct (_helper_dfs_returns root ks Hfin fuel root dfs_init)
      as (r & st' & -> & _); [constructor| |by eexists].
    simpl. assert (size (ks ∖ ∅) ≤ size ks)
      by (apply subseteq_size; set_solver). lia.
Qed.

Lemma depth_first_solve_contract_witness :
  size ({[str mn_stuck; str mn_stuck']} : gset string) + 1 < 4 ∧
  ∃ r, depth_first_solve 4 mn_stuck = Some r ∧
       (r = None ∨
        ∃ t, r = Some t ∧ t_puzzle t = mn_stuck ∧ linear t = true ∧
             is_solved (final_puzzle t) = true).
Proof.
  assert (size ({[str mn_stuck; str mn_stuck']} : gset string) + 1 < 4) as Hfuel
    by (vm_compute; lia).
  split; [exact Hfuel|].
  destruct (depth_first_solve_contract mn_stuck) as [Hsafe Hlive].
  destruct (Hlive {[str mn_stuck; str mn_stuck']} 4) as [r Hr].
  - intros c Hc. destruct (mn_stuck_reachable c Hc) as [->| ->]; set_solver.
  - exact Hfuel.
  - exists r. split; [exact Hr|exact (Hsafe 4 r Hr)].
Defined.

(** ** No key is visited twice *)

Lemma _helper_bfs_returns `{Puzzle C} (root : C) (ks : gset string) fuel :
  (∀ c, reachable root c → str c ∈ ks) → size ks + 1 < fuel →
  ∃ res st, _helper_bfs fuel root = Some (res, st).
Proof.
  intros Hfin Hfuel.
  destruct (bfs_loop_terminates root ks fuel [] 0
    (BfsState (bfs_init_heap root) [0] {[first_node_str root]} [0]))
    as (res & st & Hrun); [done|apply bfs_inv_init| | |].
  { by intros id nd ?%elem_of_nil. }
  { simpl. assert (size (ks ∖ {[first_node_str root]}) ≤ size ks)
      by (apply subseteq_size; set_solver). lia. }
  exists res, st. unfold _helper_bfs. by rewrite bfs_init_eq.
Qed.



(** ** The depth-first solver finds a solution whenever there is one *)

Lemma unpruned_path_cons `{Puzzle C} (p x c : C) n :
  fail_fast p = false → x ∈ extensions p →
  unpruned_path x n c → unpruned_path p (S n) c.
Proof.
  intros Hff Hx. induction 1 as [|n c e Hpath IH Hffc He].
  - eapply unpruned_step; [constructor|done..].
  - eapply unpruned_step; [exact IH|done..].
Qed.

Lemma chain_nonempty {C} (t : PuzzleTree C) : chain t ≠ [].
Proof. by destruct t as [p [|c cs]]. Qed.

Section dfs_sound.
Context `{Puzzle C}.

Implicit Types (p x : C) (st : dfs_state C) (t : PuzzleTree C).

Lemma sound_tree_leaf p : is_solved p = true → sound_tree p (TNode p []).
Proof.
  intros Hs. repeat split; simpl; try done. constructor.
Qed.

Lemma sound_tree_node p x t :
  is_solved p = false → fail_fast p = false → x ∈ extensions p →
  sound_tree x t → sound_tree p (TNode p [t]).
Proof.
  intros Hs Hff Hx (Hp & Hl & Hpath & Hexp & Hun & Hsol).
  pose proof (chain_head t) as Hh. rewrite Hp in Hh.
  pose proof (chain_nonempty t) as Hne.
  assert (chain (TNode p [t]) = p :: chain t) as Hc by done.
  assert (length (chain (TNode p [t])) - 1 = S (length (chain t) - 1)) as Hlen.
  { rewrite Hc. destruct (chain t); [done|]. simpl. lia. }
  unfold sound_tree. rewrite Hlen, Hc.
  split; [done|]. split; [done|]. split; [|split; [|split]].
  - destruct (chain t) as [|y l]; [done|]. simpl in Hh. simplify_eq.
    by split.
  - destruct (chain t) as [|y l]; [done|]. by constructor.
  - by eapply unpruned_path_cons.
  - done.
Qed.

Lemma dfs_loop_sound rec p xs st t st' :
  is_solved p = false → fail_fast p = false →
  (∀ x, x ∈ xs → x ∈ extensions p) →
  (∀ x st1 t1 st2, rec x st1 = Some (Some t1, st2) → sound_tree x t1) →
  dfs_loop rec p xs st = Some (Some t, st') → sound_tree p t.
Proof.
  intros Hs Hff Hxs Hrec. revert st. induction xs as [|x xs IH]; intros st; simpl.
  - discriminate.
  - assert (∀ y, y ∈ xs → y ∈ extensions p) as Hxs'
      by (intros; apply Hxs; by right).
    destruct (decide _) as [_|_]; [by apply IH|].
    destruct (rec x _) as [[[t1|] st2]|] eqn:E; [|by apply IH|discriminate].
    intros [= <- <-]. eapply sound_tree_node; [done..| |by eapply Hrec].
    apply Hxs. by left.
Qed.

Lemma _helper_dfs_sound fuel p st t st' :
  _helper_dfs fuel p st = Some (Some t, st') → sound_tree p t.
Proof.
  revert p st t st'. induction fuel as [|fuel IH]; intros p st t st'; simpl.
  - discriminate.
  - destruct (is_solved p) eqn:Hs.
    + intros [= <- <-]. by apply sound_tree_leaf.
    + destruct (fail_fast p) eqn:Hff; [discriminate|].
      apply dfs_loop_sound; [done..|]. intros x st1 t1 st2. apply IH.
Qed.

Lemma closed_mono (s s' : gset string) (c : C) :
  s ⊆ s' → closed s c → closed s' c.
Proof.
  intros Hs [Hun Hext]. split; [done|]. intros Hff e He.
  apply Hs. by apply Hext.
Qed.

Section complete.
Context (root : C).
Hypothesis keys_inj :
  ∀ c1 c2, reachable root c1 → reachable root c2 → str c1 = str c2 → c1 = c2.

Lemma dfs_closed_mark (s G : gset string) x :
  dfs_closed root s G → dfs_closed root ({[str x]} ∪ s) ({[str x]} ∪ G).
Proof.
  intros Hcl c Hc [He%elem_of_singleton|Hin]%elem_of_union.
  - left. set_solver.
  - destruct (Hcl c Hc Hin) as [HG|Hclosed]; [left; set_solver|right].
    eapply closed_mono; [|done]. set_solver.
Qed.

Lemma dfs_closed_done (s G : gset string) x :
  reachable root x → closed s x →
  dfs_closed root s ({[str x]} ∪ G) → dfs_closed root s G.
Proof.
  intros Hx Hclosed Hcl c Hc Hin.
  destruct (Hcl c Hc Hin) as [[He%elem_of_singleton|HG]%elem_of_union|?];
    [right|by left|by right].
  by rewrite (keys_inj c x Hc Hx He).
Qed.

Lemma dfs_loop_closed rec p xs st st' G :
  (∀ x st1 st2 G1, rec x st1 = Some (None, st2) → reachable root x →
     dfs_closed root (dfs_seen st1) G1 →
     dfs_closed root (dfs_seen st2) G1 ∧ closed (dfs_seen st2) x ∧
     dfs_seen st1 ⊆ dfs_seen st2) →
  dfs_loop rec p xs st = Some (None, st') →
  (∀ x, x ∈ xs → reachable root x) →
  dfs_closed root (dfs_seen st) G →
  dfs_closed root (dfs_seen st') G ∧
  (∀ x, x ∈ xs → str x ∈ dfs_seen st') ∧
  dfs_seen st ⊆ dfs_seen st'.
Proof.
  intros Hrec. revert st. induction xs as [|x xs IH]; intros st; simpl.
  - intros [= <-] _ Hcl. split; [done|]. split; [|done].
    by intros x ?%elem_of_nil.
  - intros Hloop Hxs Hcl.
    assert (reachable root x) as Hx by (apply Hxs; by left).
    assert (∀ y, y ∈ xs → reachable root y) as Hxs'
      by (intros; apply Hxs; by right).
    destruct (decide _) as [Hin|Hnew].
    { destruct (IH st Hloop Hxs' Hcl) as (Hcl' & Hall & Hsub).
      split; [done|]. split; [|done].
      intros y [->|Hy]%elem_of_cons; [by apply Hsub|by apply Hall]. }
    destruct (rec x _) as [[[t1|] st2]|] eqn:E; [discriminate| |discriminate].
    destruct (Hrec _ _ _ ({[str x]} ∪ G) E Hx) as (Hcl2 & Hclosed & Hsub2);
      [by apply dfs_closed_mark|]. simpl in *.
    apply dfs_closed_done in Hcl2; [|done..].
    destruct (IH st2 Hloop Hxs' Hcl2) as (Hcl' & Hall & Hsub).
    split; [done|]. split; [|set_solver].
    intros y [->|Hy]%elem_of_cons; [|by apply Hall].
    apply Hsub, Hsub2. set_solver.
Qed.

Lemma _helper_dfs_closed fuel p st st' G :
  _helper_dfs fuel p st = Some (None, st') → reachable root p →
  dfs_closed root (dfs_seen st) G →
  dfs_closed root (dfs_seen st') G ∧ closed (dfs_seen st') p ∧
  dfs_seen st ⊆ dfs_seen st'.
Proof.
  revert p st st' G. induction fuel as [|fuel IH]; intros p st st' G; simpl.
  - discriminate.
  - destruct (is_solved p) eqn:Hs; [discriminate|].
    destruct (fail_fast p) eqn:Hff.
    { intros [= <-] Hp Hcl. simpl. split; [done|]. split; [|done].
      split; [done|]. congruence. }
    intros Hloop Hp Hcl.
    destruct (dfs_loop_closed _ _ _ _ _ G IH Hloop) as (Hcl' & Hall & Hsub).
    + intros x Hx. by eapply reachable_step.
    + done.
    + split; [done|]. split; [|done]. split; [done|]. intros _. exact Hall.
Qed.

Lemma dfs_none_closes fuel st n c :
  depth_first_run fuel root = Some (None, st) →
  unpruned_path root n c → closed (dfs_seen st) c.
Proof.
  intros Hrun. apply (_helper_dfs_closed _ _ _ _ ∅) in Hrun
    as (Hcl & Hroot & _); [|constructor|].
  2:{ intros x _ Hx. simpl in Hx. set_solver. }
  induction 1 as [|n c e Hpath IH Hff He]; [done|].
  destruct IH as [_ Hext].
  destruct (Hcl e) as [HG|Hclosed]; [|by apply Hext|set_solver|done].
  eapply reachable_step; [by eapply unpruned_path_reachable|done].
Qed.

End complete.
End dfs_sound.

(** X1. A tree returned by [depth_first_solve] is a path, as the docstring
    says: its root holds the given puzzle, every node has one child at
    most, the puzzle of each child is an extension of the puzzle of its
    parent, every puzzle but the last is neither solved nor pruned by
    [fail_fast], and the last one is solved. *)
Theorem depth_first_solve_sound `{Puzzle C} fuel (root : C) t :
  depth_first_solve fuel root = Some (Some t) →
  t_puzzle t = root ∧ linear t = true ∧
  is_path (chain t) ∧ Forall expanded (removelast (chain t)) ∧
  unpruned_path root (length (chain t) - 1) (final_puzzle t) ∧
  is_solved (final_puzzle t) = true.
Proof.
  unfold depth_first_solve, depth_first_run.
  destruct (_helper_dfs fuel root dfs_init) as [[[t'|] st]|] eqn:E; simpl;
    intros [= <-]. by apply _helper_dfs_sound in E.
Qed.

Lemma depth_first_solve_sound_witness :
  depth_first_solve 10 mn_cycle =
    Some (Some (chain_tree mn_cycle
      [MN.Mk 2 2 [["1"; "2"]; ["*"; "3"]]%string (MN.to_grid mn_cycle);
       mn_cycle;
       MN.Mk 2 2 [["1"; "*"]; ["3"; "2"]]%string (MN.to_grid mn_cycle)])) ∧
  is_path [mn_cycle;
       MN.Mk 2 2 [["1"; "2"]; ["*"; "3"]]%string (MN.to_grid mn_cycle);
       mn_cycle;
       MN.Mk 2 2 [["1"; "*"]; ["3"; "2"]]%string (MN.to_grid mn_cycle)].
Proof.
  assert (depth_first_solve 10 mn_cycle =
    Some (Some (chain_tree mn_cycle
      [MN.Mk 2 2 [["1"; "2"]; ["*"; "3"]]%string (MN.to_grid mn_cycle);
       mn_cycle;
       MN.Mk 2 2 [["1"; "*"]; ["3"; "2"]]%string (MN.to_grid mn_cycle)]))) as E
    by (vm_compute; reflexivity).
  split; [exact E|].
  exact (proj1 (proj2 (proj2 (depth_first_solve_sound 10 mn_cycle _ E)))).
Defined.

(** X2. [depth_first_solve] returns [None] only when there is no solution:
    if configurations reachable from the root with equal keys are equal and
    some solved configuration is reachable by moves from configurations
    that [fail_fast] does not prune, a run that returns, returns a tree. *)
Theorem depth_first_solve_complete `{Puzzle C} fuel (root : C) r n c :
  (∀ c1 c2, reachable root c1 → reachable root c2 → str c1 = str c2 → c1 = c2) →
  solution root n c →
  depth_first_solve fuel root = Some r → r ≠ None.
Proof.
  intros Hinj [Hpath Hsolved]. unfold depth_first_solve.
  destruct (depth_first_run fuel root) as [[r' st]|] eqn:E; simpl; [|done].
  intros [= <-] ->.
  destruct (dfs_none_closes root Hinj fuel st n c E Hpath) as [Hun _].
  congruence.
Qed.

Lemma depth_first_solve_complete_witness :
  solution mn_slide 1 mn_slide' ∧
  depth_first_solve 5 mn_slide = Some (Some (chain_tree mn_slide [mn_slide'])) ∧
  Some (chain_tree mn_slide [mn_slide']) ≠ None.
Proof.
  assert (solution mn_slide 1 mn_slide') as Hsol.
  { split; [|vm_compute; reflexivity].
    apply (unpruned_step mn_slide 0 mn_slide mn_slide');
      [constructor|reflexivity|vm_compute; by left]. }
  assert (depth_first_solve 5 mn_slide =
          Some (Some (chain_tree mn_slide [mn_slide']))) as E
    by (vm_compute; reflexivity).
  split; [exact Hsol|]. split; [exact E|].
  apply (depth_first_solve_complete 5 mn_slide _ 1 mn_slide'); [|exact Hsol|exact E].
  intros c1 c2 H1 H2.
  destruct (mn_slide_reachable c1 H1) as [->| ->],
           (mn_slide_reachable c2 H2) as [->| ->];
    vm_compute; intros Hk; try reflexivity; discriminate Hk.
Defined.

(** ** The breadth-first solver finds a solution whenever there is one *)

Lemma bfs_none_covers `{Puzzle C} (root : C) D lvl st n c :
  (∀ c1 c2, reachable root c1 → reachable root c2 → str c1 = str c2 → c1 = c2) →
  (∀ c, reachable root c → str c ≠ first_node_str root) →
  bfs_inv root D lvl st → processed root D st → queue st = [] →
  unpruned_path root n c →
  ∃ id nd, id ∈ D ∧ heap st !! id = Some nd ∧ puzzle nd = c.
Proof.
  intros Hinj Hfresh Hinv Hpr Hq.
  assert (enqueued st = D) as HD
    by (by rewrite (inv_split _ _ _ _ Hinv), Hq, app_nil_r).
  induction 1 as [|n c e Hpath IH Hff He].
  - destruct (heap_root _ _ (inv_heap _ _ _ _ Hinv)) as (nd0 & H0 & Hp0 & _).
    exists 0, nd0. split; [|done].
    destruct (inv_head _ _ _ _ Hinv) as (E & HE & _). rewrite <-HD, HE. by left.
  - destruct IH as (id & nd & Hid & Hnd & <-).
    destruct (Hpr _ _ Hid Hnd) as [_ Hcov].
    assert (reachable root e) as Hre.
    { eapply reachable_step; [|done]. by eapply unpruned_path_reachable. }
    destruct (Hcov Hff e He) as [Hbad|(id' & d0 & d' & Hq' & Hk & _)].
    { by apply Hfresh in Hbad. }
    unfold key, cfg in Hk.
    destruct (heap st !! id') as [nd'|] eqn:Hid'; [|done]. simpl in Hk.
    exists id', nd'. split; [by rewrite <-HD|]. split; [done|].
    apply Hinj; [|done|congruence].
    eapply heap_reachable; [apply Hinv|done].
Qed.

(** X3. [breadth_first_solve] returns [None] only when there is no
    solution: if configurations reachable from the root with equal keys are
    equal, none of their keys is the rendering of the first node, and some
    solved configuration is reachable by moves from configurations that
    [fail_fast] does not prune, a run that returns, returns a tree. *)
Theorem breadth_first_solve_complete `{Puzzle C} fuel (root : C) r n c :
  (∀ c1 c2, reachable root c1 → reachable root c2 → str c1 = str c2 → c1 = c2) →
  (∀ c, reachable root c → str c ≠ first_node_str root) →
  solution root n c →
  breadth_first_solve fuel root = Some r → r ≠ None.
Proof.
  intros Hinj Hfresh [Hpath Hsolved].
  unfold breadth_first_solve, breadth_first_run.
  destruct (_helper_bfs fuel root) as [[[node|] st]|] eqn:Hb; simpl; [| |done].
  - destruct (_helper_bfs_rebuild (heap st) node) as [[first h]|]; simpl; [|done].
    destruct (tree_of (length h) h first); simpl; [|done].
    by intros [= <-].
  - intros _ _. apply _helper_bfs_inv in Hb as (D & lvl & Hinv & Hpr & Hq).
    destruct (bfs_none_covers root D lvl st n c Hinj Hfresh Hinv Hpr Hq Hpath)
      as (id & nd & Hid & Hnd & Hc).
    destruct (Hpr _ _ Hid Hnd) as [Hun _]. congruence.
Qed.

Lemma breadth_first_solve_complete_witness :
  solution mn_slide 1 mn_slide' ∧
  breadth_first_solve 5 mn_slide = Some (Some (chain_tree mn_slide [mn_slide'])) ∧
  Some (chain_tree mn_slide [mn_slide']) ≠ None.
Proof.
  assert (solution mn_slide 1 mn_slide') as Hsol.
  { split; [|vm_compute; reflexivity].
    apply (unpruned_step mn_slide 0 mn_slide mn_slide');
      [constructor|reflexivity|vm_compute; by left]. }
  assert (breadth_first_solve 5 mn_slide =
          Some (Some (chain_tree mn_slide [mn_slide']))) as E
    by (vm_compute; reflexivity).
  split; [exact Hsol|]. split; [exact E|].
  apply (breadth_first_solve_complete 5 mn_slide _ 1 mn_slide');
    [| |exact Hsol|exact E].
  - intros c1 c2 H1 H2.
    destruct (mn_slide_reachable c1 H1) as [->| ->],
             (mn_slide_reachable c2 H2) as [->| ->];
      vm_compute; intros Hk; try reflexivity; discriminate Hk.
  - intros c Hc. destruct (mn_slide_reachable c Hc) as [->| ->];
      vm_compute; intros Hk; discriminate Hk.
Defined.

(** ** The tree returned by the breadth-first solver is a path of moves *)

Section bfs_sound.
Context `{Puzzle C} (root : C).

Implicit Types (h : list (PuzzleNode C)) (st : bfs_state C) (nd : PuzzleNode C).

Lemma bfs_visit_parents D lvl st PN nd r rn :
  bfs_inv root D lvl st → enq_parents st →
  heap st !! PN = Some nd → parent nd = Some r →
  r ∈ enqueued st → heap st !! r = Some rn → expanded (puzzle rn) →
  puzzle nd ∈ extensions (puzzle rn) →
  enq_parents (bfs_visit st PN).
Proof.
  intros Hinv Hpar HPN Hp Hr Hrn Hexp Hext. rewrite (bfs_visit_eq _ _ _ HPN).
  destruct (decide _) as [_|Hnew]; [done|].
  set (h' := expand (heap st) PN nd (extensions (puzzle nd))).
  assert (heap_le (heap st) h') as Hle by by apply heap_le_expand.
  assert (∀ id x, id ∈ enqueued st → heap st !! id = Some x →
            id = 0 ∨ ∃ p pn, parent x = Some p ∧ p ∈ enqueued st ++ [PN] ∧
              h' !! p = Some pn ∧ expanded (puzzle pn) ∧
              puzzle x ∈ extensions (puzzle pn)) as Hold.
  { intros id x Hid Hx. destruct (Hpar _ _ Hid Hx)
      as [->|(p & pn & Hxp & Hpq & Hpn & Hpe & Hxe)]; [by left|right].
    destruct (Hle _ _ Hpn) as (pn' & Hpn' & Hpp & _).
    exists p, pn'. rewrite Hpp. split; [done|]. split; [|done].
    apply elem_of_app. by left. }
  intros id x. simpl. fold h'.
  intros [Hid| ->%list_elem_of_singleton]%elem_of_app Hx.
  - destruct (inv_expanded _ _ _ _ Hinv _ Hid) as (x0 & Hx0 & _).
    destruct (Hle _ _ Hx0) as (x' & Hx' & Hxp & Hxpar). simplify_eq.
    destruct (Hold _ _ Hid Hx0) as [->|(p & pn & ? & ? & ? & ? & ?)];
      [by left|right].
    exists p, pn. rewrite Hxp, Hxpar. done.
  - right. destruct (Hle _ _ HPN) as (x' & Hx' & Hxp & Hxpar). simplify_eq.
    destruct (Hle _ _ Hrn) as (rn' & Hrn' & Hrp & _).
    exists r, rn'. rewrite Hxp, Hxpar, Hrp. split; [done|].
    split; [apply elem_of_app; by left|done].
Qed.

Lemma bfs_fold_parents D lvl r cr (l : list nat) st :
  bfs_inv root D lvl st → depth (heap st) r lvl → enq_parents st →
  r ∈ enqueued st → cfg (heap st) r = Some cr → expanded cr →
  (∀ PN, PN ∈ l → ∃ nd, heap st !! PN = Some nd ∧ parent nd = Some r ∧
                         puzzle nd ∈ extensions cr) →
  enq_parents (foldl bfs_visit st l).
Proof.
  revert st. induction l as [|PN l IH]; intros st Hinv Hd Hpar Hr Hcr Hexp Hl;
    simpl; [done|].
  destruct (Hl PN) as (nd & HPN & Hp & Hext); [by left|].
  unfold cfg in Hcr. destruct (heap st !! r) as [rn|] eqn:Hrn; [|done].
  simpl in Hcr. injection Hcr as <-.
  destruct (bfs_visit_inv root D lvl st PN nd r Hinv HPN Hp Hd)
    as (Hinv1 & Hle1 & _).
  apply IH; [done| | | | |done|].
  - eapply depth_le; [apply Hle1|done].
  - by eapply bfs_visit_parents.
  - eapply elem_of_prefix; [done|apply Hle1].
  - eapply heap_le_cfg; [apply Hle1|]. unfold cfg. by rewrite Hrn.
  - intros PN' HPN'. destruct (Hl PN') as (nd' & Hnd' & Hp' & Hext'); [by right|].
    destruct (le_heap _ _ Hle1 _ _ Hnd') as (x & Hx & Hxp & Hxpar).
    exists x. rewrite Hxp, Hxpar. done.
Qed.

Lemma bfs_loop_parents fuel D lvl st res st' :
  bfs_loop fuel st = Some (res, st') →
  bfs_inv root D lvl st → processed root D st → enq_parents st →
  enq_parents st'.
Proof.
  revert D lvl st. induction fuel as [|fuel IH]; intros D lvl st; simpl.
  - discriminate.
  - destruct (queue st) as [|r q] eqn:Hq; [by intros [= <- <-]|].
    simpl. destruct (heap st !! r) as [nd|] eqn:Hr; [|discriminate]. simpl.
    intros Hrun Hinv Hpr Hpar.
    assert (enq_parents (BfsState (heap st) q (seen st) (enqueued st))) as Hpar1
      by done.
    destruct (is_solved (puzzle nd)) eqn:Hs; simpl in Hrun.
    { by injection Hrun as <- <-. }
    destruct (bfs_round_inv root D lvl st r q nd Hinv Hpr Hq Hr Hs)
      as (lvl' & Hinv2 & Hpr2 & _).
    destruct (fail_fast (puzzle nd)) eqn:Hff; simpl in *; [by eapply IH|].
    eapply IH; [done..|].
    destruct (bfs_pop_inv root D lvl st r q Hinv Hq) as (lvl1 & Hinv1 & Hd1 & _).
    eapply (bfs_fold_parents _ lvl1 r (puzzle nd)); [done..| | | |].
    + simpl. rewrite (inv_split _ _ _ _ Hinv), Hq. apply elem_of_app. right. by left.
    + unfold cfg. simpl. by rewrite Hr.
    + by split.
    + intros PN HPN. simpl.
      destruct (heap_children _ _ (inv_heap _ _ _ _ Hinv) _ _ _ Hr HPN)
        as (cn & ? & ? & ?). by exists cn.
Qed.

Lemma _helper_bfs_parents fuel res st :
  _helper_bfs fuel root = Some (res, st) → enq_parents st.
Proof.
  unfold _helper_bfs. rewrite bfs_init_eq. simpl. intros Hrun.
  eapply bfs_loop_parents; [exact Hrun|apply bfs_inv_init| |].
  - by intros id nd ?%elem_of_nil.
  - intros id nd ->%list_elem_of_singleton _. by left.
Qed.

Lemma depth_ancestors h id d :
  depth h id d → ∃ up, ancestors h id up ∧ length up = S d.
Proof.
  induction 1 as [id nd Hid Hp|id nd p d Hid Hp Hd (up & Hup & Hlen)].
  - exists [id]. split; [by eapply ancestors_root|done].
  - exists (id :: up). split; [by eapply ancestors_step|]. simpl. by rewrite Hlen.
Qed.

Lemma ancestors_le h h' id up : heap_le h h' → ancestors h id up → ancestors h' id up.
Proof.
  intros Hle. induction 1 as [id nd Hid Hp|id nd p up Hid Hp Hup IH];
    destruct (Hle _ _ Hid) as (nd' & Hid' & _ & Hp').
  - eapply ancestors_root; [exact Hid'|by rewrite Hp'].
  - eapply ancestors_step; [exact Hid'|by rewrite Hp'|done].
Qed.

Lemma is_path_snoc (l : list C) a c :
  is_path (l ++ [a]) → c ∈ extensions a → is_path ((l ++ [a]) ++ [c]).
Proof.
  induction l as [|x l IH]; simpl; [by intros _ ?|].
  intros [Hx Hl] Hc. split; [|by apply IH].
  destruct l; simpl in *; done.
Qed.

(** The configurations along the ancestors of a node put on the deque. *)
Lemma ancestors_path st r up :
  heap_ok root (heap st) → enq_parents st →
  r ∈ enqueued st → ancestors (heap st) r up →
  ∃ cs c, Forall2 (λ id x, cfg (heap st) id = Some x) (reverse up) (cs ++ [c]) ∧
          cfg (heap st) r = Some c ∧ head (reverse up) = Some 0 ∧
          is_path (cs ++ [c]) ∧ Forall expanded cs ∧
          unpruned_path root (length cs) c.
Proof.
  intros Hok Hpar Hr. induction 1 as [id nd Hid Hp|id nd p up Hid Hp Hup IH].
  - pose proof (heap_orphan _ _ Hok _ _ Hid Hp) as ->.
    destruct (heap_root _ _ Hok) as (nd0 & H0 & Hp0 & _).
    rewrite Hid in H0. injection H0 as <-.
    exists [], (puzzle nd). simpl. unfold cfg. rewrite Hid.
    split; [constructor; [simpl; by rewrite Hid|constructor]|].
    split; [done|]. split; [done|].
    split; [done|]. split; [done|]. rewrite Hp0. constructor.
  - destruct (Hpar _ _ Hr Hid) as [->|(p' & pn & Hp' & Hpq & Hpn & [Hs Hff] & Hext)].
    { destruct (heap_root _ _ Hok) as (nd0 & H0 & _ & Hn0). congruence. }
    simplify_eq.
    destruct (IH Hpq) as (cs & c & Hcfg & Hc & Hhead & Hpath & Hexp & Hun).
    unfold cfg in Hc. rewrite Hpn in Hc. simpl in Hc. injection Hc as <-.
    exists (cs ++ [puzzle pn]), (puzzle nd). rewrite reverse_cons.
    split; [|split; [|split; [|split; [|split]]]].
    + apply Forall2_app; [done|]. constructor; [|done]. unfold cfg. by rewrite Hid.
    + unfold cfg. by rewrite Hid.
    + destruct (reverse up); [done|]. done.
    + by apply is_path_snoc.
    + apply Forall_app. split; [done|]. by repeat constructor.
    + rewrite length_app. simpl. rewrite Nat.add_1_r.
      by eapply unpruned_step.
Qed.

Lemma rebuild_loop_ancestors h0 fuel h node rest up :
  (∀ i nd p, h0 !! i = Some nd → parent nd = Some p → p < i) →
  (∀ i nd, h0 !! i = Some nd → parent nd = None → i = 0) →
  heap_le h0 h → heap_le h h0 →
  is_chain h node rest → Forall (λ i, node ≤ i) rest →
  ancestors h node up → length up ≤ fuel →
  ∃ h' rest', rebuild_loop fuel h node = Some (0, h') ∧
    is_chain h' 0 rest' ∧ 0 :: rest' = reverse up ++ rest.
Proof.
  intros Hpar Horph. revert h node rest up.
  induction fuel as [|fuel IH]; intros h node rest up Hle Hge Hch Hall Hup Hfuel.
  { inversion Hup; subst; simpl in *; lia. }
  simpl. inversion Hup as [i nd Hi Hp|i nd p up' Hi Hp Hup']; subst;
    rewrite Hi; simpl; rewrite Hp.
  - destruct (Hge _ _ Hi) as (nd0 & Hi0 & _ & Hp0).
    assert (node = 0) as -> by (eapply Horph; [done|congruence]).
    by exists h, rest.
  - assert (is_Some (h !! p)) as [tnd Htmp] by (inversion Hup'; by eexists).
    rewrite Htmp. simpl.
    assert (p < node) as Hlt.
    { destruct (Hge _ _ Hi) as (nd0 & Hi0 & _ & Hp0).
      eapply Hpar; [done|congruence]. }
    destruct (heap_le_set_children h p tnd [node] Htmp) as [Hle1 Hge1].
    destruct (IH (<[p := set_children [node] tnd]> h) p (node :: rest) up')
      as (h' & rest' & -> & Hch' & Heq).
    + by eapply heap_le_trans.
    + by eapply heap_le_trans.
    + simpl. exists (set_children [node] tnd).
      rewrite list_lookup_insert_eq by by eapply lookup_lt_Some.
      split; [done|]. split; [done|]. apply is_chain_insert; [|done].
      constructor; [done|]. eapply Forall_impl; [done|]. simpl. lia.
    + constructor; [lia|]. eapply Forall_impl; [done|]. simpl. lia.
    + by eapply ancestors_le.
    + simpl in Hfuel. lia.
    + exists h', rest'. split; [done|]. split; [done|].
      by rewrite Heq, reverse_cons, <-app_assoc.
Qed.

Lemma Forall2_cfg_inj h (l : list nat) (k1 k2 : list C) :
  Forall2 (λ id x, cfg h id = Some x) l k1 →
  Forall2 (λ id x, cfg h id = Some x) l k2 → k1 = k2.
Proof.
  intros H1. revert k2. induction H1 as [|id x l k1 Hx _ IH]; intros k2 H2.
  - by apply Forall2_nil_inv_l in H2.
  - apply Forall2_cons_inv_l in H2 as (y & k2' & Hy & H2 & ->).
    f_equal; [congruence|by apply IH].
Qed.

Lemma _helper_bfs_sound fuel r st :
  _helper_bfs fuel root = Some (Some r, st) →
  ∃ h' t cs, _helper_bfs_rebuild (heap st) r = Some (0, h') ∧
    tree_of (length h') h' 0 = Some t ∧ linear t = true ∧
    chain t = cs ++ [final_puzzle t] ∧
    is_path (chain t) ∧ Forall expanded cs ∧
    unpruned_path root (length cs) (final_puzzle t) ∧
    is_solved (final_puzzle t) = true ∧ t_puzzle t = root.
Proof.
  intros Hb. pose proof (_helper_bfs_parents _ _ _ Hb) as Hpar.
  apply _helper_bfs_inv in Hb as (D & lvl & nd & Hinv & _ & Hd & Hr & Hs).
  pose proof (inv_heap _ _ _ _ Hinv) as Hok.
  destruct (_helper_bfs_rebuild_chain root (heap st) r nd lvl Hok Hr Hd)
    as (h' & t & Hreb & Ht & Hlin & Hlen & Hroot & Hfin).
  destruct (depth_ancestors _ _ _ Hd) as (up & Hup & Hlup).
  assert (r ∈ enqueued st) as Hrq.
  { rewrite (inv_split _ _ _ _ Hinv). rewrite !elem_of_app. left; right. by left. }
  destruct (ancestors_path st r up Hok Hpar Hrq Hup)
    as (cs & c & Hcfg & Hc & Hhead & Hpath & Hexp & Hun).
  unfold cfg in Hc. rewrite Hr in Hc. simpl in Hc. injection Hc as <-.
  pose proof Hreb as Hreb'. unfold _helper_bfs_rebuild in Hreb'.
  rewrite Hr in Hreb'. simpl in Hreb'.
  destruct (heap_le_set_children (heap st) r nd [] Hr) as [Hle Hge].
  pose proof (lookup_lt_Some _ _ _ Hr) as Hlt.
  pose proof (depth_bound (heap st) r lvl (heap_parent _ _ Hok) Hd) as Hbound.
  destruct (rebuild_loop_ancestors (heap st) (length (heap st))
              (<[r := set_children [] nd]> (heap st)) r [] up)
    as (h2 & rest' & Hreb2 & Hch & Heq); try done.
  - apply Hok.
  - apply Hok.
  - simpl. exists (set_children [] nd). by rewrite list_lookup_insert_eq.
  - by eapply ancestors_le.
  - lia.
  - rewrite Hreb2 in Hreb'. injection Hreb' as ->. rewrite app_nil_r in Heq.
    assert (heap_le (heap st) h') as Hle'.
    { unfold _helper_bfs_rebuild in Hreb. rewrite Hr in Hreb. simpl in Hreb.
      pose proof (rebuild_loop_chain (heap st) (length (heap st))
        (<[r := set_children [] nd]> (heap st)) r [] lvl
        (heap_parent _ _ Hok) (heap_orphan _ _ Hok) Hle Hge) as Hrc.
      destruct Hrc as (h3 & rest3 & Hreb3 & Hle3 & _); try done.
      - simpl. exists (set_children [] nd). by rewrite list_lookup_insert_eq.
      - by eapply depth_le.
      - lia.
      - rewrite Hreb3 in Hreb. injection Hreb as ->.
        by eapply heap_le_trans. }
    destruct (tree_of_chain (length h') h' 0 rest' Hch) as (t2 & Ht2 & _ & Hcfg2).
    { assert (length (0 :: rest') = length up) as Hl
        by (by rewrite Heq, length_reverse).
      simpl in Hl. pose proof (heap_le_length _ _ Hle'). lia. }
    rewrite Ht in Ht2. injection Ht2 as <-.
    assert (chain t = cs ++ [puzzle nd]) as Hchain.
    { eapply Forall2_cfg_inj; [exact Hcfg2|]. rewrite Heq.
      eapply Forall2_impl; [exact Hcfg|]. intros id x. simpl.
      by apply heap_le_cfg. }
    exists h', t, cs. rewrite Hfin. split; [done|]. split; [done|].
    split; [done|]. split; [done|]. rewrite Hchain. done.
Qed.

End bfs_sound.

(** X4. A tree returned by [breadth_first_solve] is a path, as the
    docstring says: its root holds the given puzzle, every node has one
    child at most, the puzzle of each child is an extension of the puzzle
    of its parent, every puzzle but the last is neither solved nor pruned
    by [fail_fast], and the last one is solved. *)
Theorem breadth_first_solve_sound `{Puzzle C} fuel (root : C) t :
  breadth_first_solve fuel root = Some (Some t) →
  t_puzzle t = root ∧ linear t = true ∧
  is_path (chain t) ∧ Forall expanded (removelast (chain t)) ∧
  unpruned_path root (length (chain t) - 1) (final_puzzle t) ∧
  is_solved (final_puzzle t) = true.
Proof.
  unfold breadth_first_solve, breadth_first_run.
  destruct (_helper_bfs fuel root) as [[[r|] st]|] eqn:Hb; simpl; [|done..].
  destruct (_helper_bfs_sound root fuel r st Hb)
    as (h' & t' & cs & -> & Ht & Hlin & Hchain & Hpath & Hexp & Hun & Hs & Hroot).
  simpl. rewrite Ht. simpl. intros [= <-].
  split; [done|]. split; [done|]. split; [done|].
  rewrite Hchain, removelast_last, length_app. simpl.
  replace (length cs + 1 - 1) with (length cs) by lia. done.
Qed.

Lemma breadth_first_solve_sound_witness :
  breadth_first_solve 10 mn_cycle =
    Some (Some (chain_tree mn_cycle
      [MN.Mk 2 2 [["1"; "*"]; ["3"; "2"]]%string (MN.to_grid mn_cycle)])) ∧
  is_path [mn_cycle;
           MN.Mk 2 2 [["1"; "*"]; ["3"; "2"]]%string (MN.to_grid mn_cycle)].
Proof.
  assert (breadth_first_solve 10 mn_cycle =
    Some (Some (chain_tree mn_cycle
      [MN.Mk 2 2 [["1"; "*"]; ["3"; "2"]]%string (MN.to_grid mn_cycle)]))) as E
    by (vm_compute; reflexivity).
  split; [exact E|].
  exact (proj1 (proj2 (proj2 (breadth_first_solve_sound 10 mn_cycle _ E)))).
Defined.

(** X5. On a heap in which every parent is older than its children and
    only node 0 has no parent, [_helper_bfs_rebuild] called on a node
    returns node 0; in the heap it leaves, node 0 heads a chain made of the
    ancestors of the given node, each the only child of the one before, and
    the given node has no children; no node is added, and every node keeps
    its puzzle and its parent. *)
Theorem _helper_bfs_rebuild_ancestors {C} (h : list (PuzzleNode C)) r up :
  (∀ i nd p, h !! i = Some nd → parent nd = Some p → p < i) →
  (∀ i nd, h !! i = Some nd → parent nd = None → i = 0) →
  ancestors h r up →
  ∃ h' rest, _helper_bfs_rebuild h r = Some (0, h') ∧
    0 :: rest = reverse up ∧ is_chain h' 0 rest ∧
    length h' = length h ∧ heap_le h h' ∧ heap_le h' h.
Proof.
  intros Hpar Horph Hup.
  assert (∃ nd, h !! r = Some nd) as [nd Hr] by (inversion Hup; by eexists).
  assert (∃ d, depth h r d ∧ length up = S d) as (d & Hd & Hlen).
  { clear Hr. induction Hup as [id x Hid Hp|id x p up Hid Hp Hup (d & Hd & Hl)].
    - exists 0. split; [by eapply depth_0|done].
    - exists (S d). split; [by eapply depth_S|]. simpl. by rewrite Hl. }
  pose proof (depth_bound h r d Hpar Hd) as Hbound.
  pose proof (lookup_lt_Some _ _ _ Hr) as Hlt.
  destruct (heap_le_set_children h r nd [] Hr) as [Hle Hge].
  assert (is_chain (<[r := set_children [] nd]> h) r []) as Hch0.
  { simpl. exists (set_children [] nd). by rewrite list_lookup_insert_eq. }
  unfold _helper_bfs_rebuild. rewrite Hr. simpl.
  destruct (rebuild_loop_ancestors h (length h)
              (<[r := set_children [] nd]> h) r [] up)
    as (h' & rest & Hreb & Hch & Heq); try done.
  { by eapply ancestors_le. }
  { lia. }
  destruct (rebuild_loop_chain h (length h)
              (<[r := set_children [] nd]> h) r [] d)
    as (h2 & rest2 & Hreb2 & Hle2 & Hlen2 & _); try done.
  { by eapply depth_le. }
  { lia. }
  rewrite Hreb in Hreb2. injection Hreb2 as <-.
  exists h', rest. rewrite app_nil_r in Heq. rewrite Hreb.
  split; [done|]. split; [done|]. split; [done|].
  split; [by rewrite Hlen2, length_insert|].
  split; [by eapply heap_le_trans|].
  intros id x Hx.
  assert (is_Some (h !! id)) as [x0 Hx0].
  { apply lookup_lt_is_Some. apply lookup_lt_Some in Hx.
    rewrite Hlen2, length_insert in Hx. done. }
  destruct (Hle _ _ Hx0) as (x1 & Hx1 & Hp1 & Hpar1).
  destruct (Hle2 _ _ Hx1) as (x2 & Hx2 & Hp2 & Hpar2).
  rewrite Hx in Hx2. injection Hx2 as <-.
  exists x0. split; [done|]. split; congruence.
Qed.

Lemma _helper_bfs_rebuild_ancestors_witness :
  ancestors (bfs_init_heap mn_slide) 1 [1; 0] ∧
  ∃ h', _helper_bfs_rebuild (bfs_init_heap mn_slide) 1 = Some (0, h') ∧
        is_chain h' 0 [1] ∧ length h' = 2.
Proof.
  assert (ancestors (bfs_init_heap mn_slide) 1 [1; 0]) as Hup.
  { eapply ancestors_step; [vm_compute; reflexivity|reflexivity|].
    eapply ancestors_root; [vm_compute; reflexivity|reflexivity]. }
  split; [exact Hup|].
  destruct (_helper_bfs_rebuild_ancestors (bfs_init_heap mn_slide) 1 [1; 0])
    as (h' & rest & Hreb & Heq & Hch & Hlen & _).
  - apply (heap_parent mn_slide), heap_ok_init.
  - apply (heap_orphan mn_slide), heap_ok_init.
  - exact Hup.
  - exists h'. split; [exact Hreb|].
    injection Heq as <-. split; [exact Hch|]. rewrite Hlen.
    vm_compute. reflexivity.
Defined.

Lemma solvers_return_witness :
  size ({[str mn_stuck; str mn_stuck']} : gset string) + 1 < 4 ∧
  (∃ r, depth_first_solve 4 mn_stuck = Some r) ∧
  (∃ r, breadth_first_solve 4 mn_stuck = Some r).
Proof.
  assert (size ({[str mn_stuck; str mn_stuck']} : gset string) + 1 < 4) as Hfuel
    by (vm_compute; lia).
  split; [exact Hfuel|].
  apply (solvers_return mn_stuck {[str mn_stuck; str mn_stuck']}).
  - intros c Hc. destruct (mn_stuck_reachable c Hc) as [->| ->]; set_solver.
  - exact Hfuel.
Defined.

(** ** Grids addressed by indices in range *)

Lemma in_range_of_nat i len : i < len → in_range (Z.of_nat i) len = true.
Proof.
  intros Hi. unfold in_range. apply andb_true_intro.
  split; [apply Z.leb_le|apply Z.ltb_lt]; lia.
Qed.

Lemma in_range_to_nat i len :
  in_range i len = true → Z.of_nat (Z.to_nat i) = i ∧ Z.to_nat i < len.
Proof.
  unfold in_range. intros [H0 Hlen]%andb_prop.
  apply Z.leb_le in H0. apply Z.ltb_lt in Hlen. lia.
Qed.

Lemma py_get_nat {A} (l : list A) i :
  i < length l → py_get l (Z.of_nat i) = l !! i.
Proof.
  intros Hi. unfold py_get.
  rewrite (py_index_in_range _ _ (in_range_of_nat _ _ Hi)). simpl.
  by rewrite Nat2Z.id.
Qed.

Lemma py_set_nat {A} (l : list A) i x :
  i < length l → py_set l (Z.of_nat i) x = Some (<[i := x]> l).
Proof.
  intros Hi. unfold py_set.
  rewrite (py_index_in_range _ _ (in_range_of_nat _ _ Hi)). simpl.
  by rewrite Nat2Z.id.
Qed.

Lemma cell_at_Some {A} (g : list (list A)) i j x :
  cell_at g i j = Some x ↔ ∃ row, g !! i = Some row ∧ row !! j = Some x.
Proof.
  unfold cell_at. destruct (g !! i) as [row|]; simpl.
  - split; [by exists row|]. by intros (row' & [= <-] & ?).
  - split; [done|]. by intros (row' & [=] & ?).
Qed.

Lemma get2_nat {A} (g : list (list A)) i j :
  is_Some (cell_at g i j) → get2 g (Z.of_nat i) (Z.of_nat j) = cell_at g i j.
Proof.
  intros [x (row & Hrow & Hx)%cell_at_Some]. unfold get2, cell_at.
  rewrite py_get_nat by (by eapply lookup_lt_Some). rewrite Hrow. simpl.
  apply py_get_nat. by eapply lookup_lt_Some.
Qed.

Lemma set2_nat {A} (g : list (list A)) i j x :
  is_Some (cell_at g i j) →
  set2 g (Z.of_nat i) (Z.of_nat j) x = Some (upd g i j x).
Proof.
  intros [y (row & Hrow & Hy)%cell_at_Some]. unfold set2, upd.
  pose proof (lookup_lt_Some _ _ _ Hrow) as Hi.
  pose proof (lookup_lt_Some _ _ _ Hy) as Hj.
  rewrite py_get_nat by done. rewrite Hrow. simpl.
  rewrite py_set_nat by done. simpl. rewrite py_set_nat by done.
  f_equal. apply list_eq. intros k.
  rewrite list_lookup_insert, list_lookup_alter.
  destruct (decide (i = k)) as [<-|Hne].
  - rewrite decide_True by done. by rewrite Hrow.
  - rewrite decide_False by (by intros [? _]). done.
Qed.

Lemma cell_at_upd_eq {A} (g : list (list A)) i j x :
  is_Some (cell_at g i j) → cell_at (upd g i j x) i j = Some x.
Proof.
  intros [y (row & Hrow & Hy)%cell_at_Some]. unfold cell_at, upd.
  rewrite list_lookup_alter_eq, Hrow. simpl.
  apply list_lookup_insert_eq. by eapply lookup_lt_Some.
Qed.

Lemma cell_at_upd_ne {A} (g : list (list A)) i j x a b :
  (a, b) ≠ (i, j) → cell_at (upd g i j x) a b = cell_at g a b.
Proof.
  intros Hne. unfold cell_at, upd.
  destruct (decide (i = a)) as [<-|Hia].
  - rewrite list_lookup_alter_eq. destruct (g !! i) as [row|]; simpl; [|done].
    apply list_lookup_insert_ne. congruence.
  - by rewrite list_lookup_alter_ne.
Qed.

Lemma cell_at_upd_is_Some {A} (g : list (list A)) i j x a b :
  is_Some (cell_at g a b) → is_Some (cell_at (upd g i j x) a b).
Proof.
  intros Hab. destruct (decide ((a, b) = (i, j))) as [[= -> ->]|Hne].
  - rewrite cell_at_upd_eq; [by eexists|done].
  - by rewrite cell_at_upd_ne.
Qed.

Lemma shape_upd n m (g : list (list string)) i j x :
  shape n m g → shape n m (upd g i j x).
Proof.
  intros [Hn Hm]. split; [unfold upd; by rewrite length_alter|].
  apply Forall_alter; [done|]. intros row _ Hrow. by rewrite length_insert.
Qed.

Lemma cell_at_lt n m (g : list (list string)) i j :
  shape n m g → is_Some (cell_at g i j) → i < n ∧ j < m.
Proof.
  intros [Hn Hm] [x (row & Hrow & Hx)%cell_at_Some].
  split; [rewrite <-Hn; by eapply lookup_lt_Some|].
  rewrite <-(proj1 (Forall_lookup _ _) Hm i row Hrow). by eapply lookup_lt_Some.
Qed.

Lemma cell_at_is_Some n m (g : list (list string)) i j :
  shape n m g → i < n → j < m → is_Some (cell_at g i j).
Proof.
  intros [Hn Hm] Hi Hj. unfold cell_at.
  destruct (lookup_lt_is_Some_2 g i) as [row Hrow]; [lia|]. rewrite Hrow. simpl.
  apply lookup_lt_is_Some_2.
  by rewrite (proj1 (Forall_lookup _ _) Hm i row Hrow).
Qed.

Lemma grid_ext n m (g g' : list (list string)) :
  shape n m g → shape n m g' →
  (∀ a b, cell_at g a b = cell_at g' a b) → g = g'.
Proof.
  intros [Hn Hm] [Hn' Hm'] Hcell.
  apply (list_eq_same_length _ _ n); [done..|].
  intros a row row' Ha Hrow Hrow'. apply list_eq. intros b.
  specialize (Hcell a b). unfold cell_at in Hcell.
  by rewrite Hrow, Hrow' in Hcell.
Qed.

(** ** The extensions of a sliding-tile puzzle are its legal moves *)

Lemma mapM_concat_intro {A B} (f : A → option (list B)) (l : list A) ls x lx e :
  mapM f l = Some ls → x ∈ l → f x = Some lx → e ∈ lx → e ∈ concat ls.
Proof.
  intros Hm Hx Hfx He. apply mapM_Some_1 in Hm.
  apply list_elem_of_lookup in Hx as [k Hk].
  destruct (Forall2_lookup_l _ _ _ _ _ Hm Hk) as (lx' & Hlx' & Hfx').
  rewrite Hfx in Hfx'. injection Hfx' as <-.
  apply list_elem_of_In, in_concat. exists lx.
  split; apply list_elem_of_In; [by eapply list_elem_of_lookup_2|done].
Qed.

Lemma elem_of_range_nat len i : i < len → Z.of_nat i ∈ range len.
Proof.
  intros Hi. unfold range. apply list_elem_of_fmap. exists i.
  split; [done|]. apply elem_of_seq. lia.
Qed.

Lemma MN_slide_nat p i j i' j' v :
  MN.valid p →
  is_Some (cell_at (MN.from_grid p) i j) →
  cell_at (MN.from_grid p) i' j' = Some v →
  MN.slide p (MN.from_grid p) (Z.of_nat i) (Z.of_nat j) (Z.of_nat i') (Z.of_nat j')
  = Some (MN.Mk (MN.n p) (MN.m p)
            (upd (upd (MN.from_grid p) i j v) i' j' "*") (MN.to_grid p)).
Proof.
  intros (Hn & Hshape & Htg)%MN_valid_shape Hij Hv.
  unfold MN.slide. rewrite list_fmap_id.
  rewrite get2_nat, Hv by (by rewrite Hv). simpl.
  rewrite set2_nat by done. simpl.
  rewrite set2_nat by (apply cell_at_upd_is_Some; by rewrite Hv). simpl.
  rewrite MN_helper_id. apply MN_init_intro; [done| |done].
  by do 2 apply shape_upd.
Qed.

Lemma MN_check_inv_range self grid x len i j i' j' l e :
  MN.check self grid x len i j i' j' = Some l → e ∈ l →
  in_range x len = true ∧ MN.slide self grid i j i' j' = Some e.
Proof.
  unfold MN.check. destruct (in_range x len).
  - destruct (get2 grid i' j'); [|done]. simpl.
    destruct (MN.slide self grid i j i' j') as [e'|]; [|done]. simpl.
    intros [= <-] ->%list_elem_of_singleton. done.
  - intros [= <-] ?%elem_of_nil. done.
Qed.

Lemma MN_cell_inv_star self grid i j l e :
  MN.cell_extensions self grid i j = Some l → e ∈ l →
  get2 grid i j = Some "*"%string ∧
  ∃ i' j', MN.slide self grid i j i' j' = Some e ∧
    ((i' = i ∧ (j' = j + 1 ∨ j' = j - 1)%Z ∧ in_range j' (MN.m self) = true) ∨
     (j' = j ∧ (i' = i + 1 ∨ i' = i - 1)%Z ∧ in_range i' (MN.n self) = true)).
Proof.
  unfold MN.cell_extensions. destruct (get2 grid i j) as [c|]; [|done]. simpl.
  case_bool_decide as Hc; [|by intros [= <-] ?%elem_of_nil]. subst c.
  destruct (MN.check _ _ (j + 1)%Z _ _ _ _ _) as [r|] eqn:Hr; [|done]. simpl.
  destruct (MN.check _ _ (j - 1)%Z _ _ _ _ _) as [l'|] eqn:Hl; [|done]. simpl.
  destruct (MN.check _ _ (i + 1)%Z _ _ _ _ _) as [a|] eqn:Ha; [|done]. simpl.
  destruct (MN.check _ _ (i - 1)%Z _ _ _ _ _) as [b|] eqn:Hb; [|done]. simpl.
  intros [= <-]. rewrite !elem_of_app. split; [done|].
  destruct H as [He|[He|[He|He]]].
  - destruct (MN_check_inv_range _ _ _ _ _ _ _ _ _ _ Hr He) as [Hx Hs].
    exists i, (j + 1)%Z. split; [done|]. left. auto.
  - destruct (MN_check_inv_range _ _ _ _ _ _ _ _ _ _ Hl He) as [Hx Hs].
    exists i, (j - 1)%Z. split; [done|]. left. auto.
  - destruct (MN_check_inv_range _ _ _ _ _ _ _ _ _ _ Ha He) as [Hx Hs].
    exists (i + 1)%Z, j. split; [done|]. right. auto.
  - destruct (MN_check_inv_range _ _ _ _ _ _ _ _ _ _ Hb He) as [Hx Hs].
    exists (i - 1)%Z, j. split; [done|]. right. auto.
Qed.

Lemma MN_extensions_inv_star p exts e :
  MN.extensions p = Some exts → e ∈ exts →
  ∃ i j i' j',
    in_range i (MN.n p) = true ∧ in_range j (MN.m p) = true ∧
    get2 (MN.from_grid p) i j = Some "*"%string ∧
    MN.slide p (MN.from_grid p) i j i' j' = Some e ∧
    ((i' = i ∧ (j' = j + 1 ∨ j' = j - 1)%Z ∧ in_range j' (MN.m p) = true) ∨
     (j' = j ∧ (i' = i + 1 ∨ i' = i - 1)%Z ∧ in_range i' (MN.n p) = true)).
Proof.
  unfold MN.extensions. rewrite MN_helper_id.
  destruct (mapM _ (range (MN.n p))) as [ls|] eqn:Hls; [|done]. simpl.
  intros [= <-] He.
  destruct (mapM_concat_elem _ _ _ _ Hls He) as (i & li & Hi & Hli & Hei).
  destruct (mapM _ (range (MN.m p))) as [ls'|] eqn:Hls'; [|done]. simpl in Hli.
  injection Hli as <-.
  destruct (mapM_concat_elem _ _ _ _ Hls' Hei) as (j & lj & Hj & Hlj & Hej).
  destruct (MN_cell_inv_star _ _ _ _ _ _ Hlj Hej) as (Hstar & i' & j' & Hs & Hd).
  exists i, j, i', j'. split; [by apply elem_of_range|].
  split; [by apply elem_of_range|]. done.
Qed.

Lemma MN_check_intro p x len i j i' j' e :
  in_range x len = true →
  is_Some (get2 (MN.from_grid p) i' j') →
  MN.slide p (MN.from_grid p) i j i' j' = Some e →
  MN.check p (MN.from_grid p) x len i j i' j' = Some [e].
Proof.
  intros Hx [v Hv] Hs. unfold MN.check. by rewrite Hx, Hv, Hs.
Qed.

Lemma MN_slide_in_extensions p i j i' j' v e :
  MN.valid p → adjacent i j i' j' →
  cell_at (MN.from_grid p) i j = Some "*"%string →
  cell_at (MN.from_grid p) i' j' = Some v →
  MN.slide p (MN.from_grid p)
    (Z.of_nat i) (Z.of_nat j) (Z.of_nat i') (Z.of_nat j') = Some e →
  e ∈ extensions p.
Proof.
  intros Hv Hadj Hstar Hcell Hs.
  destruct (MN_extensions_total p Hv) as (exts & Hexts & -> & _).
  pose proof Hv as (_ & Hshape & _)%MN_valid_shape.
  destruct (cell_at_lt _ _ _ i j Hshape) as [Hi Hj]; [by rewrite Hstar|].
  destruct (cell_at_lt _ _ _ i' j' Hshape) as [Hi' Hj']; [by rewrite Hcell|].
  pose proof (in_range_of_nat _ _ Hi) as Hri.
  pose proof (in_range_of_nat _ _ Hj) as Hrj.
  assert (is_Some (get2 (MN.from_grid p) (Z.of_nat i') (Z.of_nat j'))) as Hget.
  { rewrite get2_nat, Hcell by (by rewrite Hcell). by eexists. }
  assert (∃ l, MN.cell_extensions p (MN.from_grid p) (Z.of_nat i) (Z.of_nat j)
               = Some l ∧ e ∈ l) as (l & Hl & Hel).
  { unfold MN.cell_extensions.
    rewrite get2_nat, Hstar by (by rewrite Hstar). simpl.
    destruct (MN_check_total p (Z.of_nat j + 1)%Z (MN.m p) (Z.of_nat i) (Z.of_nat j)
                (Z.of_nat i) (Z.of_nat j + 1)%Z) as [r Hr]; [done..| |].
    { by intros ?. }
    destruct (MN_check_total p (Z.of_nat j - 1)%Z (MN.m p) (Z.of_nat i) (Z.of_nat j)
                (Z.of_nat i) (Z.of_nat j - 1)%Z) as [l' Hl']; [done..| |].
    { by intros ?. }
    destruct (MN_check_total p (Z.of_nat i + 1)%Z (MN.n p) (Z.of_nat i) (Z.of_nat j)
                (Z.of_nat i + 1)%Z (Z.of_nat j)) as [a Ha]; [done..| |].
    { by intros ?. }
    destruct (MN_check_total p (Z.of_nat i - 1)%Z (MN.n p) (Z.of_nat i) (Z.of_nat j)
                (Z.of_nat i - 1)%Z (Z.of_nat j)) as [b Hb]; [done..| |].
    { by intros ?. }
    rewrite Hr, Hl', Ha, Hb. simpl. eexists. split; [done|].
    rewrite !elem_of_app.
    destruct Hadj as [[-> [->| ->]]|[-> [->| ->]]].
    - left. replace (Z.of_nat j + 1)%Z with (Z.of_nat (S j)) in Hr by lia.
      rewrite (MN_check_intro _ _ _ _ _ _ _ e) in Hr; [|by apply in_range_of_nat|done..].
      injection Hr as <-. by apply list_elem_of_singleton.
    - right; left.
      replace (Z.of_nat (S j') - 1)%Z with (Z.of_nat j') in Hl' by lia.
      rewrite (MN_check_intro _ _ _ _ _ _ _ e) in Hl'; [|by apply in_range_of_nat|done..].
      injection Hl' as <-. by apply list_elem_of_singleton.
    - right; right; left.
      replace (Z.of_nat i + 1)%Z with (Z.of_nat (S i)) in Ha by lia.
      rewrite (MN_check_intro _ _ _ _ _ _ _ e) in Ha; [|by apply in_range_of_nat|done..].
      injection Ha as <-. by apply list_elem_of_singleton.
    - right; right; right.
      replace (Z.of_nat (S i') - 1)%Z with (Z.of_nat i') in Hb by lia.
      rewrite (MN_check_intro _ _ _ _ _ _ _ e) in Hb; [|by apply in_range_of_nat|done..].
      injection Hb as <-. by apply list_elem_of_singleton. }
  unfold MN.extensions in Hexts. rewrite MN_helper_id in Hexts.
  destruct (mapM _ (range (MN.n p))) as [ls|] eqn:Hls; [|done]. simpl in Hexts.
  injection Hexts as <-.
  destruct (mapM (λ j0, MN.cell_extensions p (MN.from_grid p) (Z.of_nat i) j0)
              (range (MN.m p))) as [lj|] eqn:Hlj.
  - eapply (mapM_concat_intro _ _ _ (Z.of_nat i)); [exact Hls| | |].
    + by apply elem_of_range_nat.
    + simpl. rewrite Hlj. simpl. reflexivity.
    + eapply (mapM_concat_intro _ _ _ (Z.of_nat j)); [exact Hlj| |exact Hl|exact Hel].
      by apply elem_of_range_nat.
  - exfalso. apply mapM_Some_1 in Hls.
    pose proof (elem_of_range_nat _ _ Hi) as [k Hk]%list_elem_of_lookup.
    destruct (Forall2_lookup_l _ _ _ _ _ Hls Hk) as (lx & _ & Hlx).
    simpl in Hlx. by rewrite Hlj in Hlx.
Qed.

Lemma adjacent_ne i j i' j' : adjacent i j i' j' → (i', j') ≠ (i, j).
Proof. intros [[-> [->| ->]]|[-> [->| ->]]] [= ]; lia. Qed.

Lemma adjacent_sym i j i' j' : adjacent i j i' j' → adjacent i' j' i j.
Proof. unfold adjacent. intros [[-> [->| ->]]|[-> [->| ->]]]; auto. Qed.

Lemma MN_move_grid p e i j i' j' v :
  MN.valid p → (i', j') ≠ (i, j) →
  cell_at (MN.from_grid p) i j = Some "*"%string →
  cell_at (MN.from_grid p) i' j' = Some v →
  MN.n e = MN.n p → MN.m e = MN.m p → MN.to_grid e = MN.to_grid p →
  shape (MN.n p) (MN.m p) (MN.from_grid e) →
  cell_at (MN.from_grid e) i j = Some v →
  cell_at (MN.from_grid e) i' j' = Some "*"%string →
  (∀ a b, (a, b) ≠ (i, j) → (a, b) ≠ (i', j') →
          cell_at (MN.from_grid e) a b = cell_at (MN.from_grid p) a b) →
  e = MN.Mk (MN.n p) (MN.m p)
        (upd (upd (MN.from_grid p) i j v) i' j' "*") (MN.to_grid p).
Proof.
  intros (_ & Hshape & _)%MN_valid_shape Hne Hstar Hcell Hn Hm Htg Hsh Hv Hs Hrest.
  destruct e as [n' m' g' tg']. simpl in *. subst n' m' tg'. f_equal.
  apply (grid_ext (MN.n p) (MN.m p)); [done|by do 2 apply shape_upd|].
  intros a b. destruct (decide ((a, b) = (i', j'))) as [[= -> ->]|Hne'].
  { rewrite Hs, cell_at_upd_eq; [done|].
    apply cell_at_upd_is_Some. by rewrite Hcell. }
  rewrite cell_at_upd_ne by done.
  destruct (decide ((a, b) = (i, j))) as [[= -> ->]|Hne2].
  { rewrite Hv, cell_at_upd_eq; [done|]. by rewrite Hstar. }
  rewrite cell_at_upd_ne by done. by apply Hrest.
Qed.

Lemma MN_extension_move p e : MN.valid p → e ∈ extensions p → MN_move p e.
Proof.
  intros Hv. pose proof Hv as (_ & Hshape & _)%MN_valid_shape.
  destruct (MN_extensions_total p Hv) as (exts & Hexts & -> & _). intros He.
  destruct (MN_extensions_inv_star _ _ _ Hexts He)
    as (i & j & i' & j' & Hi & Hj & Hstar & Hs & Hd).
  destruct (in_range_to_nat _ _ Hi) as [Ei Hi'].
  destruct (in_range_to_nat _ _ Hj) as [Ej Hj'].
  assert (in_range i' (MN.n p) = true ∧ in_range j' (MN.m p) = true) as [Hri Hrj].
  { destruct Hd as [(-> & _ & ?)|(-> & _ & ?)]; done. }
  destruct (in_range_to_nat _ _ Hri) as [Ei' Hi2].
  destruct (in_range_to_nat _ _ Hrj) as [Ej' Hj2].
  set (a := Z.to_nat i) in *. set (b := Z.to_nat j) in *.
  set (a' := Z.to_nat i') in *. set (b' := Z.to_nat j') in *.
  rewrite <-Ei, <-Ej, <-Ei', <-Ej' in Hs.
  pose proof (cell_at_is_Some _ _ _ a b Hshape Hi' Hj') as Hab.
  destruct (cell_at_is_Some _ _ _ a' b' Hshape Hi2 Hj2) as [v Hv'].
  rewrite <-Ei, <-Ej, get2_nat in Hstar by done.
  rewrite (MN_slide_nat p a b a' b' v Hv Hab Hv') in Hs. injection Hs as <-.
  assert (adjacent a b a' b') as Hadj.
  { unfold adjacent. destruct Hd as [(-> & Hd & _)|(-> & Hd & _)]; [left|right];
      (split; [done|]); lia. }
  pose proof (adjacent_ne _ _ _ _ Hadj) as Hne.
  exists a, b, a', b', v. simpl.
  split; [done|]. split; [done|]. split; [done|].
  split; [done|]. split; [done|]. split; [done|].
  split; [by do 2 apply shape_upd|].
  split; [rewrite cell_at_upd_ne by congruence; by apply cell_at_upd_eq|].
  split; [apply cell_at_upd_eq, cell_at_upd_is_Some; by rewrite Hv'|].
  intros x y Hxy Hxy'. by rewrite !cell_at_upd_ne.
Qed.

Lemma MN_move_extension p e : MN.valid p → MN_move p e → e ∈ extensions p.
Proof.
  intros Hv (i & j & i' & j' & v & Hadj & Hstar & Hcell & Hn & Hm & Htg & Hsh
             & Hv' & Hs & Hrest).
  eapply (MN_slide_in_extensions p i j i' j' v); [done..|].
  rewrite (MN_slide_nat p i j i' j' v) by (done || by rewrite Hstar).
  f_equal. symmetry.
  by apply MN_move_grid; [|apply adjacent_ne|..].
Qed.

Lemma MN_move_sym p e : MN.valid p → MN_move p e → MN_move e p.
Proof.
  intros (_ & Hshape & _)%MN_valid_shape.
  intros (i & j & i' & j' & v & Hadj & Hstar & Hcell & Hn & Hm & Htg & Hsh
          & Hv' & Hs & Hrest).
  exists i', j', i, j, v. rewrite Hn, Hm.
  split; [by apply adjacent_sym|]. split; [done|]. split; [done|].
  split; [done|]. split; [done|]. split; [done|]. split; [done|].
  split; [done|]. split; [done|].
  intros a b Hab' Hab. symmetry. by apply Hrest.
Qed.

(** X10. On a puzzle made by [__init__], [MNPuzzle.extensions] returns
    the legal moves and nothing else: a configuration is among the
    extensions exactly when it is the puzzle with the star and one symbol
    next to it exchanged. *)
Theorem MN_extensions_legal_moves p e :
  MN.valid p → e ∈ extensions p ↔ MN_move p e.
Proof.
  intros Hv. split; [by apply MN_extension_move|by apply MN_move_extension].
Qed.

Lemma MN_extensions_legal_moves_witness :
  MN.valid mn_slide ∧ (mn_slide' ∈ extensions mn_slide ↔ MN_move mn_slide mn_slide').
Proof.
  split; [reflexivity|]. apply MN_extensions_legal_moves. reflexivity.
Defined.

(** X11. Every move of the sliding-tile puzzle can be taken back: a puzzle
    made by [__init__] is among the extensions of each of its
    extensions. *)
Theorem MN_extensions_reversible p e :
  MN.valid p → e ∈ extensions p → p ∈ extensions e.
Proof.
  intros Hv He.
  assert (MN.valid e) as Hve.
  { destruct (MN_extensions_total p Hv) as (exts & _ & <- & Hall).
    exact (proj1 (Forall_forall _ _) Hall e He). }
  apply MN_move_extension; [done|].
  apply MN_move_sym; [done|]. by apply MN_extension_move.
Qed.

Lemma MN_extensions_reversible_witness :
  MN.valid mn_slide ∧ mn_slide' ∈ extensions mn_slide ∧
  mn_slide ∈ extensions mn_slide'.
Proof.
  assert (MN.valid mn_slide) as Hv by reflexivity.
  assert (mn_slide' ∈ extensions mn_slide) as He by (vm_compute; by left).
  split; [exact Hv|]. split; [exact He|].
  exact (MN_extensions_reversible _ _ Hv He).
Defined.

(** X9. On a puzzle made by [__init__], [MNPuzzle.extensions] raises
    nothing, and every puzzle it returns passed the assertions of
    [__init__]. *)
Theorem MN_extensions_raise_nothing p :
  MN.valid p →
  ∃ exts, MN.extensions p = Some exts ∧ Forall MN.valid exts.
Proof.
  intros Hv. destruct (MN_extensions_total p Hv) as (exts & Hexts & _ & Hall).
  by exists exts.
Qed.

Lemma MN_extensions_raise_nothing_witness :
  MN.valid mn_cycle ∧
  ∃ exts, MN.extensions mn_cycle = Some exts ∧ Forall MN.valid exts.
Proof.
  assert (MN.valid mn_cycle) as Hv by reflexivity.
  split; [exact Hv|]. exact (MN_extensions_raise_nothing mn_cycle Hv).
Defined.

(** ** The peg solitaire puzzle *)

Lemma py_get_0 {A} (l : list A) : py_get l 0 = l !! 0.
Proof. by destruct l. Qed.

Lemma Peg_init_Some g ms p :
  GridPeg.__init__ g ms = Some p →
  ∃ row0, g !! 0 = Some row0 ∧ shape (length g) (length row0) g ∧
          Forall (Forall (λ x, x ∈ ms)) g ∧ marker_set_ok ms = true ∧
          p = GridPeg.Mk g ms.
Proof.
  unfold GridPeg.__init__. destruct (0 <? length g) eqn:Hlen; simpl; [|done].
  apply Nat.ltb_lt in Hlen.
  rewrite py_get_0.
  destruct (g !! 0) as [row0|] eqn:H0; [|done]. simpl.
  destruct (forallb _ (drop 1 g)) eqn:Hall; simpl; [|done].
  destruct (forallb _ g) eqn:Hin; simpl; [|done].
  destruct (forallb _ (elements ms)) eqn:Hms; simpl; [|done].
  intros [= <-]. exists row0. split; [done|]. split; [split; [done|]|].
  - destruct g as [|r g']; [done|]. simpl in H0. injection H0 as ->.
    constructor; [done|]. simpl in Hall. rewrite drop_0 in Hall.
    apply Forall_forall. intros r Hr. rewrite forallb_forall in Hall.
    apply Nat.eqb_eq, Hall. by apply list_elem_of_In.
  - split; [|done]. apply Forall_forall. intros r Hr.
    apply Forall_forall. intros x Hx. rewrite forallb_forall in Hin.
    apply list_elem_of_In, Hin in Hr. rewrite forallb_forall in Hr.
    apply list_elem_of_In, Hr in Hx. by apply bool_decide_eq_true_1 in Hx.
Qed.

Lemma Peg_init_intro n m g ms :
  n ≠ 0 → shape n m g → Forall (Forall (λ x, x ∈ ms)) g →
  marker_set_ok ms = true →
  GridPeg.__init__ g ms = Some (GridPeg.Mk g ms).
Proof.
  intros Hn [Hlen Hrows] Hin Hms. unfold GridPeg.__init__.
  assert ((0 <? length g) = true) as -> by (apply Nat.ltb_lt; lia).
  rewrite py_get_0.
  destruct (lookup_lt_is_Some_2 g 0) as [row0 H0]; [lia|]. rewrite H0.
  pose proof (proj1 (Forall_lookup _ _) Hrows 0 row0 H0) as Hm.
  cbn [mbind option_bind negb].
  assert (forallb (λ x, length x =? length row0) (drop 1 g) = true) as ->.
  { apply forallb_forall. intros r Hr%list_elem_of_In.
    apply Nat.eqb_eq. rewrite Hm.
    apply (proj1 (Forall_forall _ _) Hrows r). by eapply subseteq_drop. }
  assert (forallb (λ row, forallb (λ x, bool_decide (x ∈ ms)) row) g = true) as ->.
  { apply forallb_forall. intros r Hr%list_elem_of_In.
    apply forallb_forall. intros x Hx%list_elem_of_In.
    apply bool_decide_eq_true_2.
    pose proof (proj1 (Forall_forall _ _) Hin r Hr) as Hr'.
    exact (proj1 (Forall_forall _ _) Hr' x Hx). }
  unfold marker_set_ok in Hms. by rewrite Hms.
Qed.

Lemma peg_valid_shape p :
  peg_valid p →
  ∃ row0, py_get (GridPeg._marker p) 0 = Some row0 ∧
    length (GridPeg._marker p) ≠ 0 ∧
    shape (length (GridPeg._marker p)) (length row0) (GridPeg._marker p) ∧
    Forall (Forall (λ x, x ∈ GridPeg._marker_set p)) (GridPeg._marker p) ∧
    marker_set_ok (GridPeg._marker_set p) = true.
Proof.
  intros (row0 & H0 & Hshape & Hin & Hms & _)%Peg_init_Some.
  pose proof (lookup_lt_Some _ _ _ H0) as Hlt.
  exists row0. rewrite py_get_0. split; [done|]. split; [lia|]. done.
Qed.

Lemma cell_at_elem {A} (g : list (list A)) i j x :
  cell_at g i j = Some x → ∃ row, row ∈ g ∧ x ∈ row.
Proof.
  intros (row & Hrow & Hx)%cell_at_Some. exists row.
  split; by eapply list_elem_of_lookup_2.
Qed.

Lemma cell_at_Forall {A} (Q : A → Prop) (g : list (list A)) i j x :
  Forall (Forall Q) g → cell_at g i j = Some x → Q x.
Proof.
  intros Hall (row & Hrow & Hx)%cell_at_elem.
  pose proof (proj1 (Forall_forall _ _) Hall row Hrow) as Hr.
  exact (proj1 (Forall_forall _ _) Hr x Hx).
Qed.

Lemma upd_Forall {A} (Q : A → Prop) (g : list (list A)) i j x :
  Q x → Forall (Forall Q) g → Forall (Forall Q) (upd g i j x).
Proof.
  intros Hx Hall. apply Forall_alter; [done|]. intros row _ Hrow.
  by apply Forall_insert.
Qed.

Lemma Peg_jump_nat p i j i1 j1 i2 j2 :
  peg_valid p →
  cell_at (GridPeg._marker p) i j = Some "."%string →
  cell_at (GridPeg._marker p) i1 j1 = Some "*"%string →
  is_Some (cell_at (GridPeg._marker p) i2 j2) →
  GridPeg.jump p (Z.of_nat i) (Z.of_nat j) (Z.of_nat i1) (Z.of_nat j1)
    (Z.of_nat i2) (Z.of_nat j2)
  = Some (GridPeg.Mk
      (upd (upd (upd (GridPeg._marker p) i j "*") i1 j1 ".") i2 j2 ".")
      (GridPeg._marker_set p)).
Proof.
  intros (row0 & _ & Hn & Hshape & Hin & Hms)%peg_valid_shape H0 H1 H2.
  unfold GridPeg.jump. rewrite list_fmap_id.
  rewrite set2_nat by (by rewrite H0). simpl.
  rewrite set2_nat by (apply cell_at_upd_is_Some; by rewrite H1). simpl.
  rewrite set2_nat by (by do 2 apply cell_at_upd_is_Some). simpl.
  pose proof (cell_at_Forall _ _ _ _ _ Hin H0) as Hdot.
  pose proof (cell_at_Forall _ _ _ _ _ Hin H1) as Hstar.
  eapply Peg_init_intro; [exact Hn| | |done].
  - by do 3 apply shape_upd.
  - by do 3 (apply upd_Forall; [done|]).
Qed.

Lemma Peg_check_inv self grid x len i j i1 j1 i2 j2 l e :
  GridPeg.check self grid x len i j i1 j1 i2 j2 = Some l → e ∈ l →
  in_range x len = true ∧ get2 grid i1 j1 = Some "*"%string ∧
  get2 grid i2 j2 = Some "*"%string ∧
  GridPeg.jump self i j i1 j1 i2 j2 = Some e.
Proof.
  unfold GridPeg.check. destruct (in_range x len); [|by intros [= <-] ?%elem_of_nil].
  destruct (get2 grid i1 j1) as [a|]; [|done]. simpl.
  case_bool_decide as Ha; [|by intros [= <-] ?%elem_of_nil]. subst a.
  destruct (get2 grid i2 j2) as [b|]; [|done]. simpl.
  case_bool_decide as Hb; [|by intros [= <-] ?%elem_of_nil]. subst b.
  destruct (GridPeg.jump self i j i1 j1 i2 j2) as [e'|]; [|done]. simpl.
  intros [= <-] ->%list_elem_of_singleton. done.
Qed.

Lemma Peg_cell_inv self grid i j l e :
  GridPeg.cell_extensions self grid i j = Some l → e ∈ l →
  get2 grid i j = Some "."%string ∧
  ∃ row0 i1 j1 i2 j2, py_get grid 0 = Some row0 ∧
    get2 grid i1 j1 = Some "*"%string ∧ get2 grid i2 j2 = Some "*"%string ∧
    GridPeg.jump self i j i1 j1 i2 j2 = Some e ∧
    ((i1 = i ∧ i2 = i ∧
      ((j1 = j + 1 ∧ j2 = j + 2) ∨ (j1 = j - 1 ∧ j2 = j - 2))%Z ∧
      in_range j2 (length row0) = true) ∨
     (j1 = j ∧ j2 = j ∧
      ((i1 = i + 1 ∧ i2 = i + 2) ∨ (i1 = i - 1 ∧ i2 = i - 2))%Z ∧
      in_range i2 (length grid) = true)).
Proof.
  unfold GridPeg.cell_extensions. destruct (get2 grid i j) as [c|]; [|done]. simpl.
  case_bool_decide as Hc; [|by intros [= <-] ?%elem_of_nil]. subst c.
  destruct (py_get grid 0) as [row0|]; [|done]. simpl.
  destruct (GridPeg.check _ _ (j + 2)%Z _ _ _ _ _ _ _) as [r|] eqn:Hr; [|done]. simpl.
  destruct (GridPeg.check _ _ (j - 2)%Z _ _ _ _ _ _ _) as [l'|] eqn:Hl; [|done]. simpl.
  destruct (GridPeg.check _ _ (i + 2)%Z _ _ _ _ _ _ _) as [a|] eqn:Ha; [|done]. simpl.
  destruct (GridPeg.check _ _ (i - 2)%Z _ _ _ _ _ _ _) as [b|] eqn:Hb; [|done]. simpl.
  intros [= <-]. rewrite !elem_of_app. intros He. split; [done|]. exists row0.
  destruct He as [He|[He|[He|He]]].
  - destruct (Peg_check_inv _ _ _ _ _ _ _ _ _ _ _ _ Hr He) as (Hx & H1 & H2 & Hj).
    exists i, (j + 1)%Z, i, (j + 2)%Z. do 4 (split; [done|]).
    left. split; [done|]. split; [done|]. split; [by left|done].
  - destruct (Peg_check_inv _ _ _ _ _ _ _ _ _ _ _ _ Hl He) as (Hx & H1 & H2 & Hj).
    exists i, (j - 1)%Z, i, (j - 2)%Z. do 4 (split; [done|]).
    left. split; [done|]. split; [done|]. split; [by right|done].
  - destruct (Peg_check_inv _ _ _ _ _ _ _ _ _ _ _ _ Ha He) as (Hx & H1 & H2 & Hj).
    exists (i + 1)%Z, j, (i + 2)%Z, j. do 4 (split; [done|]).
    right. split; [done|]. split; [done|]. split; [by left|done].
  - destruct (Peg_check_inv _ _ _ _ _ _ _ _ _ _ _ _ Hb He) as (Hx & H1 & H2 & Hj).
    exists (i - 1)%Z, j, (i - 2)%Z, j. do 4 (split; [done|]).
    right. split; [done|]. split; [done|]. split; [by right|done].
Qed.

Lemma Peg_jump_valid self i j i1 j1 i2 j2 e :
  GridPeg.jump self i j i1 j1 i2 j2 = Some e → peg_valid e.
Proof.
  unfold GridPeg.jump, peg_valid.
  destruct (set2 _ i j _) as [g1|]; [|done]. simpl.
  destruct (set2 g1 i1 j1 _) as [g2|]; [|done]. simpl.
  destruct (set2 g2 i2 j2 _) as [g3|]; [|done]. simpl.
  intros Hinit. by pose proof Hinit as (row0 & _ & _ & _ & _ & ->)%Peg_init_Some.
Qed.

Lemma get2_to_nat n m (g : list (list string)) i j :
  shape n m g → in_range i n = true → in_range j m = true →
  get2 g i j = cell_at g (Z.to_nat i) (Z.to_nat j).
Proof.
  intros Hshape [Ei Hi]%in_range_to_nat [Ej Hj]%in_range_to_nat.
  rewrite <-Ei, <-Ej at 1. apply get2_nat. by eapply cell_at_is_Some.
Qed.

(** The two directions of a jump, on integers as the code has them and on
    cells of the grid. *)
Lemma in_line_of_Z n m (i j i1 j1 i2 j2 : Z) :
  in_range i n = true → in_range j m = true →
  in_range i2 n = true → in_range j2 m = true →
  (i1 = i ∧ i2 = i ∧ ((j1 = j + 1 ∧ j2 = j + 2) ∨ (j1 = j - 1 ∧ j2 = j - 2))%Z) ∨
  (j1 = j ∧ j2 = j ∧ ((i1 = i + 1 ∧ i2 = i + 2) ∨ (i1 = i - 1 ∧ i2 = i - 2))%Z) →
  in_range i1 n = true ∧ in_range j1 m = true ∧
  in_line (Z.to_nat i) (Z.to_nat j) (Z.to_nat i1) (Z.to_nat j1)
          (Z.to_nat i2) (Z.to_nat j2).
Proof.
  unfold in_range, in_line. rewrite !andb_true_iff, !Z.leb_le, !Z.ltb_lt.
  intros Hi Hj Hi2 Hj2 [(-> & -> & [[-> ->]|[-> ->]])|(-> & -> & [[-> ->]|[-> ->]])];
    (split; [lia|]); (split; [lia|]); [left|left|right|right];
    (split; [done|]); (split; [done|]); lia.
Qed.

Lemma in_line_ne i j i1 j1 i2 j2 :
  in_line i j i1 j1 i2 j2 →
  (i1, j1) ≠ (i, j) ∧ (i2, j2) ≠ (i, j) ∧ (i2, j2) ≠ (i1, j1).
Proof.
  unfold in_line. intros Hl. repeat split; intros [= ]; lia.
Qed.

Lemma Peg_extensions_inv p exts e :
  peg_valid p → GridPeg.extensions p = Some exts → e ∈ exts →
  ∃ i j i1 j1 i2 j2, in_line i j i1 j1 i2 j2 ∧
    cell_at (GridPeg._marker p) i j = Some "."%string ∧
    cell_at (GridPeg._marker p) i1 j1 = Some "*"%string ∧
    cell_at (GridPeg._marker p) i2 j2 = Some "*"%string ∧
    e = GridPeg.Mk
          (upd (upd (upd (GridPeg._marker p) i j "*") i1 j1 ".") i2 j2 ".")
          (GridPeg._marker_set p).
Proof.
  intros Hv. pose proof Hv as (row0 & H0 & Hn & Hshape & _)%peg_valid_shape.
  unfold GridPeg.extensions. rewrite list_fmap_id.
  destruct (mapM _ (range (length (GridPeg._marker p)))) as [ls|] eqn:Hls; [|done].
  simpl. intros [= <-] He.
  destruct (mapM_concat_elem _ _ _ _ Hls He) as (i & li & Hi & Hli & Hei).
  apply elem_of_range in Hi.
  destruct (py_get (GridPeg._marker p) i) as [row|] eqn:Hrow; [|done].
  simpl in Hli.
  destruct (mapM _ (range (length row))) as [ls'|] eqn:Hls'; [|done].
  simpl in Hli. injection Hli as <-.
  destruct (mapM_concat_elem _ _ _ _ Hls' Hei) as (j & lj & Hj & Hlj & Hej).
  apply elem_of_range in Hj.
  rewrite (proj1 (Forall_forall _ _) (proj2 Hshape) row (py_get_elem _ _ _ Hrow))
    in Hj.
  destruct (Peg_cell_inv _ _ _ _ _ _ Hlj Hej)
    as (Hdot & row0' & i1 & j1 & i2 & j2 & H0' & H1 & H2 & Hjump & Hd).
  rewrite H0 in H0'. injection H0' as <-.
  assert (in_range i2 (length (GridPeg._marker p)) = true ∧
          in_range j2 (length row0) = true) as [Hi2 Hj2].
  { destruct Hd as [(_ & -> & _ & ?)|(_ & -> & _ & ?)]; done. }
  destruct (in_line_of_Z _ _ i j i1 j1 i2 j2 Hi Hj Hi2 Hj2) as (Hi1 & Hj1 & Hline).
  { destruct Hd as [(? & ? & ? & _)|(? & ? & ? & _)]; [left|right]; done. }
  rewrite (get2_to_nat _ _ _ _ _ Hshape) in Hdot by done.
  rewrite (get2_to_nat _ _ _ _ _ Hshape) in H1 by done.
  rewrite (get2_to_nat _ _ _ _ _ Hshape) in H2 by done.
  exists (Z.to_nat i), (Z.to_nat j), (Z.to_nat i1), (Z.to_nat j1),
         (Z.to_nat i2), (Z.to_nat j2).
  do 4 (split; [done|]).
  destruct (in_range_to_nat _ _ Hi) as [Ei _].
  destruct (in_range_to_nat _ _ Hj) as [Ej _].
  destruct (in_range_to_nat _ _ Hi1) as [Ei1 _].
  destruct (in_range_to_nat _ _ Hj1) as [Ej1 _].
  destruct (in_range_to_nat _ _ Hi2) as [Ei2 _].
  destruct (in_range_to_nat _ _ Hj2) as [Ej2 _].
  rewrite <-Ei, <-Ej, <-Ei1, <-Ej1, <-Ei2, <-Ej2 in Hjump.
  rewrite Peg_jump_nat in Hjump; [by injection Hjump|done..|by rewrite H2].
Qed.

Lemma Peg_extension_move p e : peg_valid p → e ∈ extensions p → Peg_move p e.
Proof.
  intros Hv He. simpl in He.
  destruct (GridPeg.extensions p) as [exts|] eqn:Hexts;
    [|by apply elem_of_nil in He].
  simpl in He.
  destruct (Peg_extensions_inv _ _ _ Hv Hexts He)
    as (i & j & i1 & j1 & i2 & j2 & Hline & Hdot & H1 & H2 & ->).
  pose proof Hv as (row0 & H0 & Hn & Hshape & _)%peg_valid_shape.
  destruct (in_line_ne _ _ _ _ _ _ Hline) as (Hne1 & Hne2 & Hne3).
  exists (length (GridPeg._marker p)), (length row0), i, j, i1, j1, i2, j2. simpl.
  split; [done|]. split; [done|]. split; [by do 3 apply shape_upd|].
  split; [done|]. do 3 (split; [done|]).
  split.
  { rewrite !cell_at_upd_ne by congruence. apply cell_at_upd_eq. by rewrite Hdot. }
  split.
  { rewrite cell_at_upd_ne by congruence.
    apply cell_at_upd_eq, cell_at_upd_is_Some. by rewrite H1. }
  split.
  { apply cell_at_upd_eq. do 2 apply cell_at_upd_is_Some. by rewrite H2. }
  intros a b Hab Hab1 Hab2. by rewrite !cell_at_upd_ne.
Qed.

Lemma in_range_between a b c len :
  in_range a len = true → in_range c len = true →
  (a ≤ b ≤ c)%Z ∨ (c ≤ b ≤ a)%Z → in_range b len = true.
Proof.
  unfold in_range. rewrite !andb_true_iff, !Z.leb_le, !Z.ltb_lt. lia.
Qed.

Lemma Peg_check_total p row0 x len i j i1 j1 i2 j2 :
  peg_valid p → py_get (GridPeg._marker p) 0 = Some row0 →
  in_range i (length (GridPeg._marker p)) = true →
  in_range j (length row0) = true →
  get2 (GridPeg._marker p) i j = Some "."%string →
  (in_range x len = true →
   in_range i1 (length (GridPeg._marker p)) = true ∧
   in_range j1 (length row0) = true ∧
   in_range i2 (length (GridPeg._marker p)) = true ∧
   in_range j2 (length row0) = true) →
  is_Some (GridPeg.check p (GridPeg._marker p) x len i j i1 j1 i2 j2).
Proof.
  intros Hv H0 Hi Hj Hdot Hx. unfold GridPeg.check.
  destruct (in_range x len); [|by eexists].
  destruct Hx as (Hi1 & Hj1 & Hi2 & Hj2); [done|].
  pose proof Hv as (row0' & H0' & Hn & Hshape & _)%peg_valid_shape.
  rewrite H0 in H0'. injection H0' as <-.
  destruct (get2_in_range _ _ _ i1 j1 Hshape Hi1 Hj1) as [a Ha].
  rewrite Ha. simpl. case_bool_decide as Ea; [|by eexists]. subst a.
  destruct (get2_in_range _ _ _ i2 j2 Hshape Hi2 Hj2) as [b Hb].
  rewrite Hb. simpl. case_bool_decide as Eb; [|by eexists]. subst b.
  rewrite (get2_to_nat _ _ _ _ _ Hshape) in Hdot by done.
  rewrite (get2_to_nat _ _ _ _ _ Hshape) in Ha by done.
  rewrite (get2_to_nat _ _ _ _ _ Hshape) in Hb by done.
  destruct (in_range_to_nat _ _ Hi) as [Ei _].
  destruct (in_range_to_nat _ _ Hj) as [Ej _].
  destruct (in_range_to_nat _ _ Hi1) as [Ei1 _].
  destruct (in_range_to_nat _ _ Hj1) as [Ej1 _].
  destruct (in_range_to_nat _ _ Hi2) as [Ei2 _].
  destruct (in_range_to_nat _ _ Hj2) as [Ej2 _].
  rewrite <-Ei, <-Ej, <-Ei1, <-Ej1, <-Ei2, <-Ej2.
  rewrite Peg_jump_nat; [by eexists|done..|by rewrite Hb].
Qed.

Lemma Peg_cell_total p row0 i j :
  peg_valid p → py_get (GridPeg._marker p) 0 = Some row0 →
  in_range i (length (GridPeg._marker p)) = true →
  in_range j (length row0) = true →
  is_Some (GridPeg.cell_extensions p (GridPeg._marker p) i j).
Proof.
  intros Hv H0 Hi Hj. unfold GridPeg.cell_extensions.
  pose proof Hv as (row0' & H0' & Hn & Hshape & _)%peg_valid_shape.
  rewrite H0 in H0'. injection H0' as <-.
  destruct (get2_in_range _ _ _ i j Hshape Hi Hj) as [c Hc]. rewrite Hc. simpl.
  case_bool_decide as Ec; [|by eexists]. subst c. rewrite H0. simpl.
  destruct (Peg_check_total p row0 (j + 2)%Z (length row0) i j
              i (j + 1)%Z i (j + 2)%Z) as [r ->]; [done..| |].
  { intros Hx. split; [done|]. split; [|done].
    apply (in_range_between j _ (j + 2)%Z); [done..|lia]. }
  simpl.
  destruct (Peg_check_total p row0 (j - 2)%Z (length row0) i j
              i (j - 1)%Z i (j - 2)%Z) as [l ->]; [done..| |].
  { intros Hx. split; [done|]. split; [|done].
    apply (in_range_between j _ (j - 2)%Z); [done..|lia]. }
  simpl.
  destruct (Peg_check_total p row0 (i + 2)%Z (length (GridPeg._marker p)) i j
              (i + 1)%Z j (i + 2)%Z j) as [a ->]; [done..| |].
  { intros Hx. split; [|done].
    apply (in_range_between i _ (i + 2)%Z); [done..|lia]. }
  simpl.
  destruct (Peg_check_total p row0 (i - 2)%Z (length (GridPeg._marker p)) i j
              (i - 1)%Z j (i - 2)%Z j) as [b ->]; [done..| |].
  { intros Hx. split; [|done].
    apply (in_range_between i _ (i - 2)%Z); [done..|lia]. }
  simpl. by eexists.
Qed.

Lemma Peg_extensions_total p :
  peg_valid p →
  ∃ exts, GridPeg.extensions p = Some exts ∧ extensions p = exts ∧
          Forall peg_valid exts.
Proof.
  intros Hv. pose proof Hv as (row0 & H0 & Hn & Hshape & _)%peg_valid_shape.
  assert (is_Some (GridPeg.extensions p)) as [exts Hexts].
  { unfold GridPeg.extensions. rewrite list_fmap_id.
    assert (is_Some (mapM (λ i,
              row ← py_get (GridPeg._marker p) i;
              (@concat _) <$> mapM (λ j,
                GridPeg.cell_extensions p (GridPeg._marker p) i j)
                (range (length row)))
              (range (length (GridPeg._marker p))))) as [ls ->]; [|by eexists].
    apply mapM_is_Some_2, Forall_forall. intros i Hi%elem_of_range. simpl.
    destruct (py_get_in_range _ i Hi) as [row Hrow]. rewrite Hrow. simpl.
    assert (is_Some (mapM (λ j,
              GridPeg.cell_extensions p (GridPeg._marker p) i j)
              (range (length row)))) as [lj ->]; [|by eexists].
    apply mapM_is_Some_2, Forall_forall. intros j Hj%elem_of_range. simpl.
    rewrite (proj1 (Forall_forall _ _) (proj2 Hshape) row (py_get_elem _ _ _ Hrow))
      in Hj.
    by eapply Peg_cell_total. }
  exists exts. split; [done|]. split; [simpl; by rewrite Hexts|].
  apply Forall_forall. intros e He.
  destruct (Peg_extensions_inv _ _ _ Hv Hexts He)
    as (i & j & i1 & j1 & i2 & j2 & Hline & Hdot & H1 & H2 & ->).
  eapply Peg_jump_valid. apply Peg_jump_nat; [done..|by rewrite H2].
Qed.

Lemma Peg_check_intro p x len i j i1 j1 i2 j2 e :
  in_range x len = true →
  get2 (GridPeg._marker p) i1 j1 = Some "*"%string →
  get2 (GridPeg._marker p) i2 j2 = Some "*"%string →
  GridPeg.jump p i j i1 j1 i2 j2 = Some e →
  GridPeg.check p (GridPeg._marker p) x len i j i1 j1 i2 j2 = Some [e].
Proof.
  intros Hx H1 H2 Hj. unfold GridPeg.check. rewrite Hx, H1. simpl.
  rewrite H2. simpl. by rewrite Hj.
Qed.

Lemma Peg_jump_in_extensions p i j i1 j1 i2 j2 e :
  peg_valid p → in_line i j i1 j1 i2 j2 →
  cell_at (GridPeg._marker p) i j = Some "."%string →
  cell_at (GridPeg._marker p) i1 j1 = Some "*"%string →
  cell_at (GridPeg._marker p) i2 j2 = Some "*"%string →
  GridPeg.jump p (Z.of_nat i) (Z.of_nat j) (Z.of_nat i1) (Z.of_nat j1)
    (Z.of_nat i2) (Z.of_nat j2) = Some e →
  e ∈ extensions p.
Proof.
  intros Hv Hline Hdot H1 H2 Hjump.
  destruct (Peg_extensions_total p Hv) as (exts & Hexts & -> & _).
  pose proof Hv as (row0 & H0 & Hn & Hshape & _)%peg_valid_shape.
  destruct (cell_at_lt _ _ _ i j Hshape) as [Hi Hj]; [by rewrite Hdot|].
  destruct (cell_at_lt _ _ _ i1 j1 Hshape) as [Hi1 Hj1]; [by rewrite H1|].
  destruct (cell_at_lt _ _ _ i2 j2 Hshape) as [Hi2 Hj2]; [by rewrite H2|].
  pose proof (in_range_of_nat _ _ Hi) as Hri.
  pose proof (in_range_of_nat _ _ Hj) as Hrj.
  assert (get2 (GridPeg._marker p) (Z.of_nat i) (Z.of_nat j) = Some "."%string)
    as Hg by (rewrite get2_nat, Hdot by (by rewrite Hdot); done).
  assert (get2 (GridPeg._marker p) (Z.of_nat i1) (Z.of_nat j1) = Some "*"%string)
    as Hg1 by (rewrite get2_nat, H1 by (by rewrite H1); done).
  assert (get2 (GridPeg._marker p) (Z.of_nat i2) (Z.of_nat j2) = Some "*"%string)
    as Hg2 by (rewrite get2_nat, H2 by (by rewrite H2); done).
  assert (∃ l, GridPeg.cell_extensions p (GridPeg._marker p)
                 (Z.of_nat i) (Z.of_nat j) = Some l ∧ e ∈ l) as (l & Hl & Hel).
  { pose proof (Peg_cell_total p row0 _ _ Hv H0 Hri Hrj) as [l Hl].
    exists l. split; [done|]. revert Hl. unfold GridPeg.cell_extensions.
    rewrite Hg. simpl. rewrite H0. simpl.
    destruct (GridPeg.check _ _ (Z.of_nat j + 2)%Z _ _ _ _ _ _ _) as [r|] eqn:Hr;
      [|done]. simpl.
    destruct (GridPeg.check _ _ (Z.of_nat j - 2)%Z _ _ _ _ _ _ _) as [l'|] eqn:Hl';
      [|done]. simpl.
    destruct (GridPeg.check _ _ (Z.of_nat i + 2)%Z _ _ _ _ _ _ _) as [a|] eqn:Ha;
      [|done]. simpl.
    destruct (GridPeg.check _ _ (Z.of_nat i - 2)%Z _ _ _ _ _ _ _) as [b|] eqn:Hb;
      [|done]. simpl.
    intros [= <-]. rewrite !elem_of_app.
    destruct Hline as [(-> & -> & [[-> ->]|[-> E]])|(-> & -> & [[-> ->]|[-> E]])].
    - left. replace (Z.of_nat j + 1)%Z with (Z.of_nat (S j)) in Hr by lia.
      replace (Z.of_nat j + 2)%Z with (Z.of_nat (S (S j))) in Hr by lia.
      rewrite (Peg_check_intro _ _ _ _ _ _ _ _ _ e) in Hr;
        [|by apply in_range_of_nat|done..].
      injection Hr as <-. by apply list_elem_of_singleton.
    - right; left. injection E as ->.
      replace (Z.of_nat (S (S j2)) - 1)%Z with (Z.of_nat (S j2)) in Hl' by lia.
      replace (Z.of_nat (S (S j2)) - 2)%Z with (Z.of_nat j2) in Hl' by lia.
      rewrite (Peg_check_intro _ _ _ _ _ _ _ _ _ e) in Hl';
        [|by apply in_range_of_nat|done..].
      injection Hl' as <-. by apply list_elem_of_singleton.
    - right; right; left.
      replace (Z.of_nat i + 1)%Z with (Z.of_nat (S i)) in Ha by lia.
      replace (Z.of_nat i + 2)%Z with (Z.of_nat (S (S i))) in Ha by lia.
      rewrite (Peg_check_intro _ _ _ _ _ _ _ _ _ e) in Ha;
        [|by apply in_range_of_nat|done..].
      injection Ha as <-. by apply list_elem_of_singleton.
    - right; right; right. injection E as ->.
      replace (Z.of_nat (S (S i2)) - 1)%Z with (Z.of_nat (S i2)) in Hb by lia.
      replace (Z.of_nat (S (S i2)) - 2)%Z with (Z.of_nat i2) in Hb by lia.
      rewrite (Peg_check_intro _ _ _ _ _ _ _ _ _ e) in Hb;
        [|by apply in_range_of_nat|done..].
      injection Hb as <-. by apply list_elem_of_singleton. }
  unfold GridPeg.extensions in Hexts. rewrite list_fmap_id in Hexts.
  destruct (mapM _ (range (length (GridPeg._marker p)))) as [ls|] eqn:Hls; [|done].
  simpl in Hexts. injection Hexts as <-.
  destruct (lookup_lt_is_Some_2 (GridPeg._marker p) i Hi) as [row Hrow].
  assert (py_get (GridPeg._marker p) (Z.of_nat i) = Some row) as Hprow
    by (by rewrite py_get_nat).
  pose proof (proj1 (Forall_lookup _ _) (proj2 Hshape) i row Hrow) as Hlen.
  destruct (mapM (λ j0, GridPeg.cell_extensions p (GridPeg._marker p) (Z.of_nat i) j0)
              (range (length row))) as [lj|] eqn:Hlj.
  - eapply (mapM_concat_intro _ _ _ (Z.of_nat i)); [exact Hls| | |].
    + by apply elem_of_range_nat.
    + simpl. rewrite Hprow. simpl. rewrite Hlj. simpl. reflexivity.
    + eapply (mapM_concat_intro _ _ _ (Z.of_nat j)); [exact Hlj| |exact Hl|exact Hel].
      apply elem_of_range_nat. by rewrite Hlen.
  - exfalso. apply mapM_Some_1 in Hls.
    pose proof (elem_of_range_nat _ _ Hi) as [k Hk]%list_elem_of_lookup.
    destruct (Forall2_lookup_l _ _ _ _ _ Hls Hk) as (lx & _ & Hlx).
    simpl in Hlx. rewrite Hprow in Hlx. simpl in Hlx. by rewrite Hlj in Hlx.
Qed.

Lemma Peg_move_grid p e n m i j i1 j1 i2 j2 :
  shape n m (GridPeg._marker p) → shape n m (GridPeg._marker e) →
  in_line i j i1 j1 i2 j2 →
  GridPeg._marker_set e = GridPeg._marker_set p →
  cell_at (GridPeg._marker p) i j = Some "."%string →
  cell_at (GridPeg._marker p) i1 j1 = Some "*"%string →
  cell_at (GridPeg._marker p) i2 j2 = Some "*"%string →
  cell_at (GridPeg._marker e) i j = Some "*"%string →
  cell_at (GridPeg._marker e) i1 j1 = Some "."%string →
  cell_at (GridPeg._marker e) i2 j2 = Some "."%string →
  (∀ a b, (a, b) ≠ (i, j) → (a, b) ≠ (i1, j1) → (a, b) ≠ (i2, j2) →
          cell_at (GridPeg._marker e) a b = cell_at (GridPeg._marker p) a b) →
  e = GridPeg.Mk
        (upd (upd (upd (GridPeg._marker p) i j "*") i1 j1 ".") i2 j2 ".")
        (GridPeg._marker_set p).
Proof.
  intros Hshape Hsh Hline Hms Hdot H1 H2 He He1 He2 Hrest.
  destruct e as [g' ms']. simpl in *. subst ms'. f_equal.
  apply (grid_ext n m); [done|by do 3 apply shape_upd|].
  intros a b. destruct (decide ((a, b) = (i2, j2))) as [[= -> ->]|Hne2].
  { rewrite He2, cell_at_upd_eq; [done|].
    do 2 apply cell_at_upd_is_Some. by rewrite H2. }
  rewrite cell_at_upd_ne by done.
  destruct (decide ((a, b) = (i1, j1))) as [[= -> ->]|Hne1].
  { rewrite He1, cell_at_upd_eq; [done|].
    apply cell_at_upd_is_Some. by rewrite H1. }
  rewrite cell_at_upd_ne by done.
  destruct (decide ((a, b) = (i, j))) as [[= -> ->]|Hne].
  { rewrite He, cell_at_upd_eq; [done|]. by rewrite Hdot. }
  rewrite cell_at_upd_ne by done. by apply Hrest.
Qed.

Lemma Peg_move_extension p e : peg_valid p → Peg_move p e → e ∈ extensions p.
Proof.
  intros Hv (n & m & i & j & i1 & j1 & i2 & j2 & Hline & Hshape & Hsh & Hms
             & Hdot & H1 & H2 & He & He1 & He2 & Hrest).
  eapply (Peg_jump_in_extensions p i j i1 j1 i2 j2); [done..|].
  rewrite Peg_jump_nat; [|done..|by rewrite H2].
  f_equal. symmetry. by eapply Peg_move_grid.
Qed.

(** *** Counting pegs *)

Lemma pegs_fold (g : list (list string)) (c : nat) :
  foldl (λ count item,
    foldl (λ count symbol,
      if bool_decide (symbol = "*"%string) then count + 1 else count)
      count item) c g = c + pegs g.
Proof.
  assert (∀ (row : list string) c,
    foldl (λ count symbol,
      if bool_decide (symbol = "*"%string) then count + 1 else count) c row
    = c + length (filter (λ s, s = "*"%string) row)) as Hrow.
  { induction row as [|s row IH]; intros c'; simpl; [lia|].
    rewrite IH, filter_cons. case_bool_decide.
    - rewrite decide_True by done. simpl. lia.
    - by rewrite decide_False by done. }
  unfold pegs. revert c. induction g as [|row g IH]; intros c; simpl; [lia|].
  rewrite IH, Hrow, filter_app, length_app. lia.
Qed.

Lemma Peg_is_solved_pegs p :
  GridPeg.is_solved p = (pegs (GridPeg._marker p) =? 1).
Proof. unfold GridPeg.is_solved. by rewrite pegs_fold. Qed.

Lemma pegs_upd (g : list (list string)) i j x old :
  cell_at g i j = Some old →
  pegs (upd g i j x) + (if decide (old = "*"%string) then 1 else 0)
  = pegs g + (if decide (x = "*"%string) then 1 else 0).
Proof.
  intros (row & Hrow & Hold)%cell_at_Some. unfold pegs, upd.
  rewrite <-(take_drop_middle g i row Hrow) at 2.
  assert (alter (<[j := x]>) i g
          = take i g ++ <[j := x]> row :: drop (S i) g) as ->.
  { rewrite <-(take_drop_middle g i row Hrow) at 1.
    pose proof (lookup_lt_Some _ _ _ Hrow) as Hi.
    rewrite alter_app_r_alt by (rewrite length_take; lia).
    rewrite length_take, Nat.min_l, Nat.sub_diag by lia. done. }
  rewrite !concat_app, !filter_app, !length_app. simpl.
  rewrite !filter_app, !length_app.
  assert (length (filter (λ s, s = "*"%string) (<[j := x]> row))
          + (if decide (old = "*"%string) then 1 else 0)
          = length (filter (λ s, s = "*"%string) row)
            + (if decide (x = "*"%string) then 1 else 0)) as Hr; [|lia].
  rewrite <-(take_drop_middle row j old Hold) at 2.
  assert (<[j := x]> row = take j row ++ x :: drop (S j) row) as ->.
  { rewrite <-(take_drop_middle row j old Hold) at 1.
    pose proof (lookup_lt_Some _ _ _ Hold) as Hj.
    rewrite insert_app_r_alt by (rewrite length_take; lia).
    rewrite length_take, Nat.min_l, Nat.sub_diag by lia. done. }
  rewrite !filter_app, !length_app, !filter_cons.
  destruct (decide (old = "*"%string)), (decide (x = "*"%string)); simpl; lia.
Qed.

Lemma pegs_pos (g : list (list string)) i j :
  cell_at g i j = Some "*"%string → 0 < pegs g.
Proof.
  intros (row & Hrow & Hx)%cell_at_elem. unfold pegs.
  assert ("*"%string ∈ filter (λ s, s = "*"%string) (concat g)) as Hin.
  { apply list_elem_of_filter. split; [done|].
    apply list_elem_of_In, in_concat. exists row.
    split; by apply list_elem_of_In. }
  destruct (filter _ _); [by apply elem_of_nil in Hin|]. simpl. lia.
Qed.

Lemma Peg_move_pegs p e :
  Peg_move p e →
  pegs (GridPeg._marker e) + 1 = pegs (GridPeg._marker p) ∧
  0 < pegs (GridPeg._marker e).
Proof.
  intros (n & m & i & j & i1 & j1 & i2 & j2 & Hline & Hshape & Hsh & Hms
          & Hdot & H1 & H2 & He & He1 & He2 & Hrest).
  split; [|by eapply pegs_pos].
  rewrite (Peg_move_grid p e n m i j i1 j1 i2 j2) by done. simpl.
  destruct (in_line_ne _ _ _ _ _ _ Hline) as (Hne1 & Hne2 & Hne3).
  pose proof (pegs_upd (GridPeg._marker p) i j "*" "." Hdot) as E0.
  pose proof (pegs_upd (upd (GridPeg._marker p) i j "*") i1 j1 "." "*") as E1.
  rewrite cell_at_upd_ne in E1 by done. specialize (E1 H1).
  pose proof (pegs_upd (upd (upd (GridPeg._marker p) i j "*") i1 j1 ".")
                i2 j2 "." "*") as E2.
  rewrite !cell_at_upd_ne in E2 by done. specialize (E2 H2).
  revert E0 E1 E2.
  destruct (decide ("*"%string = "*"%string)) as [_|?]; [|done].
  destruct (decide ("."%string = "*"%string)) as [?|_]; [done|]. lia.
Qed.

(** X14. On a puzzle made by [__init__], [GridPegSolitairePuzzle.extensions]
    raises nothing, and every puzzle it returns passed the assertions of
    [__init__]. *)
Theorem Peg_extensions_raise_nothing p :
  peg_valid p →
  ∃ exts, GridPeg.extensions p = Some exts ∧ Forall peg_valid exts.
Proof.
  intros Hv. destruct (Peg_extensions_total p Hv) as (exts & Hexts & _ & Hall).
  by exists exts.
Qed.

Lemma Peg_extensions_raise_nothing_witness :
  peg_valid peg_row ∧
  ∃ exts, GridPeg.extensions peg_row = Some exts ∧ Forall peg_valid exts.
Proof.
  assert (peg_valid peg_row) as Hv by (vm_compute; reflexivity).
  split; [exact Hv|]. exact (Peg_extensions_raise_nothing peg_row Hv).
Defined.

(** X15. On a puzzle made by [__init__], [GridPegSolitairePuzzle.extensions]
    returns the single jumps and nothing else: a configuration is among the
    extensions exactly when it is the puzzle after a peg has jumped over a
    neighbouring peg into an empty cell, in a row or in a column, and the
    peg jumped over has been removed. *)
Theorem Peg_extensions_legal_moves p e :
  peg_valid p → e ∈ extensions p ↔ Peg_move p e.
Proof.
  intros Hv. split; [by apply Peg_extension_move|by apply Peg_move_extension].
Qed.

Lemma Peg_extensions_legal_moves_witness :
  peg_valid peg_row ∧ (peg_row' ∈ extensions peg_row ↔ Peg_move peg_row peg_row').
Proof.
  assert (peg_valid peg_row) as Hv by (vm_compute; reflexivity).
  split; [exact Hv|]. exact (Peg_extensions_legal_moves peg_row peg_row' Hv).
Defined.

(** X16. Every extension of a peg solitaire puzzle made by [__init__] has
    exactly one peg fewer than the puzzle, and at least one peg. *)
Theorem Peg_extension_one_peg_fewer p e :
  peg_valid p → e ∈ extensions p →
  pegs (GridPeg._marker e) + 1 = pegs (GridPeg._marker p) ∧
  0 < pegs (GridPeg._marker e).
Proof. intros Hv He. by apply Peg_move_pegs, Peg_extension_move. Qed.

Lemma Peg_extension_one_peg_fewer_witness :
  peg_valid peg_row ∧ peg_row' ∈ extensions peg_row ∧
  pegs (GridPeg._marker peg_row') + 1 = pegs (GridPeg._marker peg_row).
Proof.
  assert (peg_valid peg_row) as Hv by (vm_compute; reflexivity).
  assert (peg_row' ∈ extensions peg_row) as He by (vm_compute; by left).
  split; [exact Hv|]. split; [exact He|].
  exact (proj1 (Peg_extension_one_peg_fewer peg_row peg_row' Hv He)).
Defined.

(** X17. A solved peg solitaire puzzle has no extensions: with one peg left
    no jump is possible. *)
Theorem Peg_solved_no_extensions p :
  peg_valid p → is_solved p = true → extensions p = [].
Proof.
  intros Hv Hs. destruct (extensions p) as [|e l] eqn:He; [done|]. exfalso.
  assert (e ∈ extensions p) as Hin by (rewrite He; by left).
  apply Peg_extension_move, Peg_move_pegs in Hin as [Hone Hpos]; [|done].
  simpl in Hs. rewrite Peg_is_solved_pegs in Hs. apply Nat.eqb_eq in Hs. lia.
Qed.

Lemma Peg_solved_no_extensions_witness :
  peg_valid (GridPeg.Mk [["*"; "."; "."; "."]%string] ({["*"; "."; "#"]})%string) ∧
  extensions (GridPeg.Mk [["*"; "."; "."; "."]%string] ({["*"; "."; "#"]})%string)
  = [].
Proof.
  assert (peg_valid
            (GridPeg.Mk [["*"; "."; "."; "."]%string] ({["*"; "."; "#"]})%string))
    as Hv by (vm_compute; reflexivity).
  split; [exact Hv|].
  apply (Peg_solved_no_extensions _ Hv). vm_compute. reflexivity.
Defined.

(** X18. From a peg solitaire puzzle made by [__init__], every sequence of
    moves is shorter than the number of pegs: each configuration being an
    extension of the one before, at most [pegs - 1] moves can follow. *)
Theorem Peg_moves_bounded p l :
  peg_valid p → is_path (p :: l) → length l ≤ pegs (GridPeg._marker p) - 1.
Proof.
  revert p. induction l as [|e l IH]; intros p Hv Hpath; simpl; [lia|].
  destruct Hpath as [He Hpath].
  assert (peg_valid e) as Hve'.
  { destruct (Peg_extensions_total p Hv) as (exts & _ & <- & Hall).
    exact (proj1 (Forall_forall _ _) Hall e He). }
  apply Peg_extension_move, Peg_move_pegs in He as [Hone Hpos]; [|done].
  specialize (IH e Hve' Hpath). lia.
Qed.

Lemma Peg_moves_bounded_witness :
  peg_valid peg_row ∧ is_path [peg_row; peg_row'] ∧
  length [peg_row'] ≤ pegs (GridPeg._marker peg_row) - 1.
Proof.
  assert (peg_valid peg_row) as Hv by (vm_compute; reflexivity).
  assert (is_path [peg_row; peg_row']) as Hp.
  { split; [vm_compute; by left|]. split; done. }
  split; [exact Hv|]. split; [exact Hp|].
  exact (Peg_moves_bounded peg_row [peg_row'] Hv Hp).
Defined.

(** ** Depth-first search along a decreasing measure *)

Section dfs_measure.
Context `{Puzzle C} (I : C → Prop) (μ : C → nat).
Hypothesis decreasing : ∀ p e, I p → e ∈ extensions p → I e ∧ μ e < μ p.

Lemma dfs_loop_measure fuel p xs st :
  (∀ x st1, x ∈ xs → ∃ r st2, _helper_dfs fuel x st1 = Some (r, st2)) →
  ∃ r st', dfs_loop (_helper_dfs fuel) p xs st = Some (r, st').
Proof.
  revert st. induction xs as [|x xs IHxs]; intros st Hxs; simpl.
  - by eexists _, _.
  - assert (∀ y st1, y ∈ xs → ∃ r st2, _helper_dfs fuel y st1 = Some (r, st2))
      as Hxs' by (intros; apply Hxs; by right).
    destruct (decide _) as [_|Hnew]; [by apply IHxs|].
    destruct (Hxs x (DfsState ({[str x]} ∪ dfs_seen st) (dfs_calls st)))
      as (r & st2 & ->); [by left|].
    destruct r as [node|]; [by eexists _, _|]. by apply IHxs.
Qed.

Lemma _helper_dfs_measure fuel p st :
  I p → μ p < fuel → ∃ r st', _helper_dfs fuel p st = Some (r, st').
Proof.
  revert p st. induction fuel as [|fuel IH]; intros p st Hp Hfuel; [lia|]. simpl.
  destruct (is_solved p); [by eexists _, _|].
  destruct (fail_fast p); [by eexists _, _|].
  apply dfs_loop_measure. intros x st1 Hx.
  destruct (decreasing p x Hp Hx) as [Hix Hlt]. apply IH; [done|lia].
Qed.

End dfs_measure.

(** ** What a search meets from a puzzle made by [__init__] *)

Lemma MN_reachable_frame root c :
  MN.valid root → reachable root c →
  MN.valid c ∧ MN.n c = MN.n root ∧ MN.m c = MN.m root ∧
  MN.to_grid c = MN.to_grid root.
Proof.
  intros Hv. induction 1 as [|c e Hc (Hvc & Hn & Hm & Htg) He]; [done|].
  split.
  { destruct (MN_extensions_total c Hvc) as (exts & _ & <- & Hall).
    exact (proj1 (Forall_forall _ _) Hall e He). }
  apply MN_extension_move in He as (i & j & i' & j' & v & _ & _ & _ & Hn' & Hm'
    & Htg' & _); [|done].
  split; [congruence|]. split; congruence.
Qed.

(** X12. Every configuration that a search from a sliding-tile puzzle made
    by [__init__] can meet has itself passed the assertions of [__init__],
    has the dimensions and the target of the root, and [extensions] raises
    nothing on it. *)
Theorem MN_reachable_valid root c :
  MN.valid root → reachable root c →
  MN.valid c ∧ MN.n c = MN.n root ∧ MN.m c = MN.m root ∧
  MN.to_grid c = MN.to_grid root ∧
  ∃ exts, MN.extensions c = Some exts.
Proof.
  intros Hv Hc. destruct (MN_reachable_frame root c Hv Hc) as (Hvc & Hn & Hm & Htg).
  do 4 (split; [done|]).
  destruct (MN_extensions_total c Hvc) as (exts & Hexts & _). by exists exts.
Qed.

Lemma MN_reachable_valid_witness :
  MN.valid mn_cycle ∧
  reachable mn_cycle (MN.Mk 2 2 [["1"; "*"]; ["3"; "2"]]%string (MN.to_grid mn_cycle)) ∧
  MN.valid (MN.Mk 2 2 [["1"; "*"]; ["3"; "2"]]%string (MN.to_grid mn_cycle)).
Proof.
  assert (MN.valid mn_cycle) as Hv by reflexivity.
  assert (reachable mn_cycle
            (MN.Mk 2 2 [["1"; "*"]; ["3"; "2"]]%string (MN.to_grid mn_cycle))) as Hr.
  { eapply reachable_step; [constructor|]. vm_compute. right. by left. }
  split; [exact Hv|]. split; [exact Hr|].
  exact (proj1 (MN_reachable_valid mn_cycle _ Hv Hr)).
Defined.

(** X13. [MNPuzzle.__init__] does not compare the dimensions of the two
    grids; when the target has not the dimensions of the puzzle, no
    configuration that a search can meet is solved. *)
Theorem MN_target_shape_unsolvable root c :
  MN.valid root →
  ¬ shape (MN.n root) (MN.m root) (MN.to_grid root) →
  reachable root c → is_solved c = false.
Proof.
  intros Hv Hbad Hc.
  destruct (MN_reachable_frame root c Hv Hc) as (Hvc & Hn & Hm & Htg).
  simpl. unfold MN.is_solved. apply bool_decide_eq_false_2. intros E.
  apply Hbad. apply MN_valid_shape in Hvc as (_ & Hshape & _).
  by rewrite <-Htg, <-E, <-Hn, <-Hm.
Qed.

Lemma MN_target_shape_unsolvable_witness :
  MN.valid mn_misfit ∧
  ¬ shape (MN.n mn_misfit) (MN.m mn_misfit) (MN.to_grid mn_misfit) ∧
  ∀ c, reachable mn_misfit c → is_solved c = false.
Proof.
  assert (MN.valid mn_misfit) as Hv by reflexivity.
  assert (¬ shape (MN.n mn_misfit) (MN.m mn_misfit) (MN.to_grid mn_misfit)) as Hbad.
  { intros [Hlen _]. discriminate Hlen. }
  split; [exact Hv|]. split; [exact Hbad|].
  intros c. exact (MN_target_shape_unsolvable mn_misfit c Hv Hbad).
Defined.

Lemma Peg_reachable_frame root c :
  peg_valid root → reachable root c →
  peg_valid c ∧ GridPeg._marker_set c = GridPeg._marker_set root ∧
  ∃ n m, shape n m (GridPeg._marker root) ∧ shape n m (GridPeg._marker c).
Proof.
  intros Hv. induction 1 as [|c e Hc (Hvc & Hms & n & m & Hsr & Hsc) He].
  { split; [done|]. split; [done|].
    pose proof Hv as (row0 & _ & _ & Hshape & _)%peg_valid_shape. by eexists _, _. }
  split.
  { destruct (Peg_extensions_total c Hvc) as (exts & _ & <- & Hall).
    exact (proj1 (Forall_forall _ _) Hall e He). }
  apply Peg_extension_move in He as (n' & m' & i & j & i1 & j1 & i2 & j2 & _
    & Hsc' & Hse & Hms' & Hdot & _); [|done].
  split; [congruence|]. exists n, m. split; [done|].
  destruct Hsc as [Hn Hm], Hsc' as [Hn' Hm'], Hse as [Hne Hme].
  apply cell_at_Some in Hdot as (row & Hrow & _).
  pose proof (proj1 (Forall_lookup _ _) Hm _ _ Hrow) as E1.
  pose proof (proj1 (Forall_lookup _ _) Hm' _ _ Hrow) as E2.
  split; [congruence|]. by replace m with m' by congruence.
Qed.

(** X19. Every configuration that a search from a peg solitaire puzzle made
    by [__init__] can meet has itself passed the assertions of [__init__],
    has the allowed markers and the dimensions of the root, and
    [extensions] raises nothing on it. *)
Theorem Peg_reachable_valid root c :
  peg_valid root → reachable root c →
  peg_valid c ∧ GridPeg._marker_set c = GridPeg._marker_set root ∧
  (∃ n m, shape n m (GridPeg._marker root) ∧ shape n m (GridPeg._marker c)) ∧
  ∃ exts, GridPeg.extensions c = Some exts.
Proof.
  intros Hv Hc. destruct (Peg_reachable_frame root c Hv Hc) as (Hvc & Hms & Hsh).
  do 3 (split; [done|]).
  destruct (Peg_extensions_total c Hvc) as (exts & Hexts & _). by exists exts.
Qed.

Lemma Peg_reachable_valid_witness :
  peg_valid peg_row ∧ reachable peg_row peg_row' ∧ peg_valid peg_row'.
Proof.
  assert (peg_valid peg_row) as Hv by (vm_compute; reflexivity).
  assert (reachable peg_row peg_row') as Hr.
  { eapply reachable_step; [constructor|]. vm_compute. by left. }
  split; [exact Hv|]. split; [exact Hr|].
  exact (proj1 (Peg_reachable_valid peg_row peg_row' Hv Hr)).
Defined.

(** ** The solvers on the two puzzles *)

Lemma dfs_None_unsolvable `{Puzzle C} fuel (root : C) n c :
  (∀ c1 c2, reachable root c1 → reachable root c2 → str c1 = str c2 → c1 = c2) →
  depth_first_solve fuel root = Some None →
  unpruned_path root n c → is_solved c = false.
Proof.
  intros Hinj Hrun Hpath. unfold depth_first_solve in Hrun.
  destruct (depth_first_run fuel root) as [[r st]|] eqn:E; simpl in Hrun; [|done].
  injection Hrun as ->.
  by destruct (dfs_none_closes root Hinj fuel st n c E Hpath) as [Hun _].
Qed.

Lemma bfs_None_unsolvable `{Puzzle C} fuel (root : C) n c :
  (∀ c1 c2, reachable root c1 → reachable root c2 → str c1 = str c2 → c1 = c2) →
  (∀ c, reachable root c → str c ≠ first_node_str root) →
  breadth_first_solve fuel root = Some None →
  unpruned_path root n c → is_solved c = false.
Proof.
  intros Hinj Hfresh Hrun Hpath.
  unfold breadth_first_solve, breadth_first_run in Hrun.
  destruct (_helper_bfs fuel root) as [[[node|] st]|] eqn:Hb; simpl in Hrun;
    [| |done].
  - destruct (_helper_bfs_rebuild (heap st) node) as [[first h]|];
      simpl in Hrun; [|done].
    destruct (tree_of (length h) h first); simpl in Hrun; done.
  - apply _helper_bfs_inv in Hb as (D & lvl & Hinv & Hpr & Hq).
    destruct (bfs_none_covers root D lvl st n c Hinj Hfresh Hinv Hpr Hq Hpath)
      as (id & nd & Hid & Hnd & <-).
    by destruct (Hpr _ _ Hid Hnd) as [Hun _].
Qed.

Lemma bfs_moves_le `{Puzzle C} fuel (root : C) t n c :
  (∀ c1 c2, reachable root c1 → reachable root c2 → str c1 = str c2 → c1 = c2) →
  (∀ c, reachable root c → str c ≠ first_node_str root) →
  breadth_first_solve fuel root = Some (Some t) →
  unpruned_path root n c → is_solved c = true → moves t ≤ n.
Proof.
  intros Hinj Hfresh Hrun Hpath Hsolved.
  unfold breadth_first_solve, breadth_first_run in Hrun.
  destruct (_helper_bfs fuel root) as [[[r|] st]|] eqn:Hb; simpl in Hrun; [|done..].
  apply _helper_bfs_inv in Hb as (D & lvl & nd & Hinv & Hpr & Hd & Hr & Hs).
  destruct (_helper_bfs_rebuild_chain root (heap st) r nd lvl)
    as (h' & t' & Hreb & Ht' & Hlin & Hlen & _); [apply Hinv|done|done|].
  rewrite Hreb in Hrun. simpl in Hrun. rewrite Ht' in Hrun. simpl in Hrun.
  injection Hrun as <-.
  unfold moves. rewrite (linear_node_count _ Hlin), Hlen.
  destruct (decide (lvl ≤ n)) as [|Hlt]; [lia|]. exfalso.
  destruct (unpruned_path_covered root D r lvl st n c Hinj Hfresh Hinv Hpr Hd Hpath)
    as (id & x & d & HD & Hid & Hx & _); [lia|].
  destruct (Hpr _ _ HD Hid) as [Hun _]. congruence.
Qed.

Lemma reachable_unpruned `{Puzzle C} (root c : C) :
  (∀ x, fail_fast x = false) → reachable root c → ∃ n, unpruned_path root n c.
Proof.
  intros Hff. induction 1 as [|c e Hc [n IH] He].
  - exists 0. constructor.
  - exists (S n). by eapply unpruned_step.
Qed.

Lemma is_path_unpruned `{Puzzle C} (p c : C) (l : list C) :
  (∀ x, fail_fast x = false) →
  is_path (p :: l) → last (p :: l) = Some c → unpruned_path p (length l) c.
Proof.
  intros Hff. revert p. induction l as [|x l IH]; intros p Hpath Hlast.
  - injection Hlast as <-. constructor.
  - destruct Hpath as [Hx Hpath]. simpl.
    apply (unpruned_path_cons p x c); [done..|]. by apply IH.
Qed.

(** *** Keys of grids of single characters *)

Lemma row_str_length (row : list string) (t : string) :
  Forall (λ s, String.length s = 1) row →
  String.length (row_str row t) = length row + String.length t.
Proof.
  induction 1 as [|s row Hs Hrow IH]; simpl; [done|].
  rewrite length_append, IH. lia.
Qed.

Lemma rows_str_length n m (g : list (list string)) (t : string) :
  shape n m g → single_chars g →
  String.length (rows_str g t) = n * (m + 1) + String.length t.
Proof.
  intros [Hn Hm]. subst n. induction g as [|row g IH]; intros Hs; simpl; [done|].
  apply Forall_cons in Hm as [Hrow Hm]. apply Forall_cons in Hs as [Hc Hs].
  rewrite row_str_length, length_append, IH by done. simpl. lia.
Qed.

Lemma render_length n m (g : list (list string)) :
  n ≠ 0 → shape n m g → single_chars g →
  String.length (render g) = n * (m + 1) + 5.
Proof.
  intros Hn Hshape Hs. rewrite render_eq.
  - by rewrite (rows_str_length n m).
  - intros ->. destruct Hshape as [Hlen _]. simpl in Hlen. lia.
Qed.

Lemma first_node_str_longer `{Puzzle C} (root : C) :
  String.length (str root) < String.length (first_node_str root).
Proof. unfold first_node_str. rewrite !length_append. simpl. lia. Qed.

Lemma MN_keys_inj root c1 c2 :
  MN.valid root → single_chars (MN.from_grid root) →
  reachable root c1 → reachable root c2 → str c1 = str c2 → c1 = c2.
Proof.
  intros Hv Hs H1 H2 Hstr.
  destruct (mn_inv_reachable root c1 Hv Hs H1) as (Ht1 & Hn1 & Hm1 & Hsh1 & Hs1).
  destruct (mn_inv_reachable root c2 Hv Hs H2) as (Ht2 & Hn2 & Hm2 & Hsh2 & Hs2).
  pose proof Hv as (Hpos & _)%MN_valid_shape.
  assert (∀ g, shape (MN.n root) (MN.m root) g → g ≠ []) as Hne.
  { intros g [Hlen _] ->. simpl in Hlen. lia. }
  simpl in Hstr. unfold MN.__str__ in Hstr.
  rewrite !render_eq in Hstr by by apply Hne.
  apply (rows_str_inj _ _ _ _ _ Hsh1 Hsh2 Hs1 Hs2) in Hstr.
  destruct c1, c2. simpl in *. congruence.
Qed.

Lemma MN_keys_fresh root c :
  MN.valid root → single_chars (MN.from_grid root) →
  reachable root c → str c ≠ first_node_str root.
Proof.
  intros Hv Hs Hc E.
  destruct (mn_inv_reachable root c Hv Hs Hc) as (_ & _ & _ & Hsh & Hsc).
  destruct (mn_inv_root root Hv Hs) as (_ & _ & _ & Hshr & _).
  pose proof Hv as (Hpos & _)%MN_valid_shape.
  pose proof (first_node_str_longer root) as Hlt. rewrite <-E in Hlt.
  simpl in Hlt. unfold MN.__str__ in Hlt.
  rewrite (render_length _ _ _ Hpos Hsh Hsc) in Hlt.
  rewrite (render_length _ _ _ Hpos Hshr Hs) in Hlt. lia.
Qed.

Lemma Peg_single_chars p : peg_valid p → single_chars (GridPeg._marker p).
Proof.
  intros (row0 & _ & _ & _ & Hin & Hms)%peg_valid_shape.
  unfold marker_set_ok in Hms. rewrite forallb_forall in Hms.
  eapply Forall_impl; [exact Hin|]. intros row Hrow.
  eapply Forall_impl; [exact Hrow|]. intros x Hx. simpl in Hx.
  apply elem_of_elements, list_elem_of_In, Hms in Hx.
  apply orb_prop in Hx as [[Hx|Hx]%orb_prop|Hx];
    apply bool_decide_eq_true_1 in Hx; by subst x.
Qed.

Lemma Peg_keys_inj root c1 c2 :
  peg_valid root →
  reachable root c1 → reachable root c2 → str c1 = str c2 → c1 = c2.
Proof.
  intros Hv H1 H2 Hstr.
  destruct (Peg_reachable_frame root c1 Hv H1) as (Hv1 & Hms1 & n & m & Hr & Hsh1).
  destruct (Peg_reachable_frame root c2 Hv H2) as (Hv2 & Hms2 & n' & m' & Hr' & Hsh2).
  pose proof Hv as (row0 & H0 & Hpos & Hshape & _)%peg_valid_shape.
  rewrite py_get_0 in H0.
  assert (n = length (GridPeg._marker root)) as Hn by (by destruct Hr).
  assert (n' = n) as -> by (destruct Hr'; congruence).
  assert (m' = m) as ->.
  { destruct Hr as [_ Hm], Hr' as [_ Hm'].
    pose proof (proj1 (Forall_lookup _ _) Hm _ _ H0).
    pose proof (proj1 (Forall_lookup _ _) Hm' _ _ H0). congruence. }
  assert (∀ g, shape n m g → g ≠ []) as Hne.
  { intros g [Hlen _] ->. simpl in Hlen. lia. }
  simpl in Hstr. unfold GridPeg.__str__ in Hstr.
  rewrite !render_eq in Hstr by by apply Hne.
  apply (rows_str_inj _ _ _ _ _ Hsh1 Hsh2) in Hstr; [|by apply Peg_single_chars..].
  destruct c1, c2. simpl in *. congruence.
Qed.

Lemma Peg_keys_fresh root c :
  peg_valid root → reachable root c → str c ≠ first_node_str root.
Proof.
  intros Hv Hc E.
  destruct (Peg_reachable_frame root c Hv Hc) as (Hvc & _ & n & m & Hr & Hsh).
  pose proof Hv as (row0 & _ & Hpos & _)%peg_valid_shape.
  assert (n ≠ 0) as Hn by (destruct Hr; congruence).
  pose proof (first_node_str_longer root) as Hlt. rewrite <-E in Hlt.
  simpl in Hlt. unfold GridPeg.__str__ in Hlt.
  rewrite (render_length _ _ _ Hn Hsh (Peg_single_chars c Hvc)) in Hlt.
  rewrite (render_length _ _ _ Hn Hr (Peg_single_chars root Hv)) in Hlt. lia.
Qed.

(** X21. On a sliding-tile puzzle made by [__init__] whose symbols are
    single characters, a solver that returns [None] is right: no
    configuration that can be reached from the puzzle is solved.  This
    holds of the depth-first and of the breadth-first solver. *)
Theorem MN_solvers_None_unsolvable fuel root c :
  MN.valid root → single_chars (MN.from_grid root) →
  depth_first_solve fuel root = Some None ∨
  breadth_first_solve fuel root = Some None →
  reachable root c → is_solved c = false.
Proof.
  intros Hv Hs Hrun Hc.
  destruct (reachable_unpruned root c) as [n Hpath]; [done..|].
  destruct Hrun as [Hrun|Hrun].
  - eapply dfs_None_unsolvable; [|exact Hrun|exact Hpath].
    intros c1 c2. by apply MN_keys_inj.
  - eapply bfs_None_unsolvable; [| |exact Hrun|exact Hpath].
    + intros c1 c2. by apply MN_keys_inj.
    + intros x. by apply MN_keys_fresh.
Qed.

Lemma MN_solvers_None_unsolvable_witness :
  MN.valid mn_stuck ∧ single_chars (MN.from_grid mn_stuck) ∧
  depth_first_solve 5 mn_stuck = Some None ∧
  is_solved mn_stuck' = false.
Proof.
  assert (MN.valid mn_stuck) as Hv by reflexivity.
  assert (single_chars (MN.from_grid mn_stuck)) as Hs
    by (repeat constructor).
  assert (depth_first_solve 5 mn_stuck = Some None) as Hrun
    by (vm_compute; reflexivity).
  split; [exact Hv|]. split; [exact Hs|]. split; [exact Hrun|].
  apply (MN_solvers_None_unsolvable 5 mn_stuck mn_stuck' Hv Hs (or_introl Hrun)).
  eapply reachable_step; [constructor|]. vm_compute. by left.
Defined.

(** X22. On a sliding-tile puzzle made by [__init__] whose symbols are
    single characters, the breadth-first solver returns a shortest
    solution: no sequence of moves from the puzzle to a solved
    configuration has fewer moves than the chain returned. *)
Theorem breadth_first_solve_MN_shortest fuel root t l c :
  MN.valid root → single_chars (MN.from_grid root) →
  breadth_first_solve fuel root = Some (Some t) →
  is_path (root :: l) → last (root :: l) = Some c → is_solved c = true →
  moves t ≤ length l.
Proof.
  intros Hv Hs Hrun Hpath Hlast Hsolved.
  apply (bfs_moves_le fuel root t (length l) c); [| |done| |done].
  - intros c1 c2. by apply MN_keys_inj.
  - intros x. by apply MN_keys_fresh.
  - by apply is_path_unpruned.
Qed.

Lemma breadth_first_solve_MN_shortest_witness :
  MN.valid mn_cycle ∧ single_chars (MN.from_grid mn_cycle) ∧
  breadth_first_solve 10 mn_cycle =
    Some (Some (chain_tree mn_cycle
      [MN.Mk 2 2 [["1"; "*"]; ["3"; "2"]]%string (MN.to_grid mn_cycle)])) ∧
  moves (chain_tree mn_cycle
      [MN.Mk 2 2 [["1"; "*"]; ["3"; "2"]]%string (MN.to_grid mn_cycle)]) ≤ 3.
Proof.
  assert (MN.valid mn_cycle) as Hv by reflexivity.
  assert (single_chars (MN.from_grid mn_cycle)) as Hs by (repeat constructor).
  assert (breadth_first_solve 10 mn_cycle =
    Some (Some (chain_tree mn_cycle
      [MN.Mk 2 2 [["1"; "*"]; ["3"; "2"]]%string (MN.to_grid mn_cycle)]))) as E
    by (vm_compute; reflexivity).
  split; [exact Hv|]. split; [exact Hs|]. split; [exact E|].
  apply (breadth_first_solve_MN_shortest 10 mn_cycle _
    [MN.Mk 2 2 [["1"; "2"]; ["*"; "3"]]%string (MN.to_grid mn_cycle);
     mn_cycle;
     MN.Mk 2 2 [["1"; "*"]; ["3"; "2"]]%string (MN.to_grid mn_cycle)]
    (MN.Mk 2 2 [["1"; "*"]; ["3"; "2"]]%string (MN.to_grid mn_cycle)) Hv Hs E).
  - split; [vm_compute; by left|].
    split; [vm_compute; by left|].
    split; [vm_compute; right; by left|]. split; done.
  - reflexivity.
  - vm_compute. reflexivity.
Defined.

(** X20. The depth-first solver decides peg solitaire: on a puzzle made by
    [__init__] it returns, with a recursion never deeper than the number of
    pegs, and it returns [None] exactly when no configuration that can be
    reached from the puzzle is solved. *)
Theorem depth_first_solve_peg_decides fuel p :
  peg_valid p → pegs (GridPeg._marker p) < fuel →
  ∃ r, depth_first_solve fuel p = Some r ∧
       (r = None ↔ ∀ c, reachable p c → is_solved c = false).
Proof.
  intros Hv Hfuel.
  destruct (_helper_dfs_measure peg_valid (λ c, pegs (GridPeg._marker c)))
    with (fuel := fuel) (p := p) (st := @dfs_init GridPeg.GridPegSolitairePuzzle)
    as (r & st' & Hrun); [|done|done|].
  { intros c e Hc He. split.
    - destruct (Peg_extensions_total c Hc) as (exts & _ & <- & Hall).
      exact (proj1 (Forall_forall _ _) Hall e He).
    - apply Peg_extension_move, Peg_move_pegs in He as [Hone _]; [lia|done]. }
  assert (depth_first_solve fuel p = Some r) as Hsolve.
  { unfold depth_first_solve, depth_first_run. by rewrite Hrun. }
  exists r. split; [done|]. split.
  - intros -> c Hc.
    destruct (reachable_unpruned p c) as [n Hpath]; [done..|].
    eapply dfs_None_unsolvable; [|exact Hsolve|exact Hpath].
    intros c1 c2. by apply Peg_keys_inj.
  - intros Hnone. destruct r as [t|]; [|done]. exfalso.
    apply _helper_dfs_sound in Hrun as (_ & _ & _ & _ & Hun & Hs).
    apply unpruned_path_reachable, Hnone in Hun. congruence.
Qed.

Lemma depth_first_solve_peg_decides_witness :
  peg_valid peg_row ∧ pegs (GridPeg._marker peg_row) < 4 ∧
  ∃ r, depth_first_solve 4 peg_row = Some r ∧
       (r = None ↔ ∀ c, reachable peg_row c → is_solved c = false).
Proof.
  assert (peg_valid peg_row) as Hv by (vm_compute; reflexivity).
  assert (pegs (GridPeg._marker peg_row) < 4) as Hf by (vm_compute; lia).
  split; [exact Hv|]. split; [exact Hf|].
  exact (depth_first_solve_peg_decides 4 peg_row Hv Hf).
Defined.

(** X23. On a peg solitaire puzzle made by [__init__], a breadth-first
    solver that returns [None] is right: no configuration that can be
    reached from the puzzle is solved. *)
Theorem breadth_first_solve_peg_None fuel p c :
  peg_valid p → breadth_first_solve fuel p = Some None →
  reachable p c → is_solved c = false.
Proof.
  intros Hv Hrun Hc.
  destruct (reachable_unpruned p c) as [n Hpath]; [done..|].
  eapply bfs_None_unsolvable; [| |exact Hrun|exact Hpath].
  - intros c1 c2. by apply Peg_keys_inj.
  - intros x. by apply Peg_keys_fresh.
Qed.

Lemma breadth_first_solve_peg_None_witness :
  peg_valid peg_apart ∧ breadth_first_solve 10 peg_apart = Some None ∧
  is_solved peg_apart = false.
Proof.
  assert (peg_valid peg_apart) as Hv by (vm_compute; reflexivity).
  assert (breadth_first_solve 10 peg_apart = Some None) as Hrun
    by (vm_compute; reflexivity).
  split; [exact Hv|]. split; [exact Hrun|].
  apply (breadth_first_solve_peg_None 10 peg_apart peg_apart Hv Hrun).
  constructor.
Defined.

Lemma solvers_solution `{Puzzle C} fuel (root : C) t :
  depth_first_solve fuel root = Some (Some t) ∨
  breadth_first_solve fuel root = Some (Some t) →
  unpruned_path root (moves t) (final_puzzle t) ∧
  is_solved (final_puzzle t) = true.
Proof.
  intros [Hrun|Hrun].
  - unfold depth_first_solve, depth_first_run in Hrun.
    destruct (_helper_dfs fuel root dfs_init) as [[[t0|] st]|] eqn:E;
      simpl in Hrun; [|done..]. injection Hrun as ->.
    apply _helper_dfs_sound in E as (_ & Hlin & _ & _ & Hun & Hs).
    split; [|done]. unfold moves. by rewrite (linear_node_count _ Hlin).
  - unfold breadth_first_solve, breadth_first_run in Hrun.
    destruct (_helper_bfs fuel root) as [[[r|] st]|] eqn:Hb; simpl in Hrun;
      [|done..].
    destruct (_helper_bfs_sound root fuel r st Hb)
      as (h' & t' & cs & Hreb & Ht & Hlin & Hchain & _ & _ & Hun & Hs & _).
    rewrite Hreb in Hrun. simpl in Hrun. rewrite Ht in Hrun. simpl in Hrun.
    injection Hrun as <-. split; [|done].
    unfold moves. rewrite (linear_node_count _ Hlin), Hchain, length_app. simpl.
    by replace (length cs + 1 - 1) with (length cs) by lia.
Qed.

Lemma Peg_unpruned_pegs p n c :
  peg_valid p → unpruned_path p n c →
  pegs (GridPeg._marker c) + n = pegs (GridPeg._marker p).
Proof.
  intros Hv. induction 1 as [|n c e Hpath IH _ He]; [lia|].
  destruct (Peg_reachable_frame p c Hv) as (Hvc & _);
    [by eapply unpruned_path_reachable|].
  apply Peg_extension_move, Peg_move_pegs in He as [Hone _]; [lia|done].
Qed.

(** X24. All solutions of a peg solitaire puzzle have the same length: a
    chain returned by either solver for a puzzle made by [__init__] has
    one move fewer than the puzzle has pegs. *)
Theorem Peg_solution_length fuel p t :
  peg_valid p →
  depth_first_solve fuel p = Some (Some t) ∨
  breadth_first_solve fuel p = Some (Some t) →
  moves t + 1 = pegs (GridPeg._marker p).
Proof.
  intros Hv Hrun. destruct (solvers_solution fuel p t Hrun) as [Hpath Hs].
  pose proof (Peg_unpruned_pegs p _ _ Hv Hpath) as E.
  simpl in Hs. rewrite Peg_is_solved_pegs in Hs. apply Nat.eqb_eq in Hs. lia.
Qed.

Lemma Peg_solution_length_witness :
  peg_valid peg_row ∧
  (∃ t, breadth_first_solve 10 peg_row = Some (Some t) ∧ moves t + 1 = 3).
Proof.
  assert (peg_valid peg_row) as Hv by (vm_compute; reflexivity).
  split; [exact Hv|].
  destruct (breadth_first_solve 10 peg_row) as [[t|]|] eqn:E;
    [|vm_compute in E; discriminate E..].
  exists t. split; [reflexivity|].
  exact (Peg_solution_length 10 peg_row t Hv (or_intror E)).
Defined.

(** ** The two solvers compared *)

Lemma breadth_first_solve_returns `{Puzzle C} (root : C) (ks : gset string) fuel :
  (∀ c, reachable root c → str c ∈ ks) → size ks + 1 < fuel →
  ∃ r, breadth_first_solve fuel root = Some r.
Proof.
  intros Hfin Hfuel. unfold breadth_first_solve, breadth_first_run.
  destruct (_helper_bfs_returns root ks fuel Hfin Hfuel) as (res & st & Hb).
  rewrite Hb. simpl. destruct res as [r|]; [|by eexists].
  apply _helper_bfs_inv in Hb as (D & lvl & nd & Hinv & _ & Hd & Hr & _).
  destruct (_helper_bfs_rebuild_chain root (heap st) r nd lvl)
    as (h' & t & -> & Ht & _); [apply Hinv|done|done|].
  simpl. rewrite Ht. by eexists.
Qed.

(** X8. On a root whose reachable configurations have finitely many keys,
    when configurations with equal keys are equal and none of the keys is
    the rendering of the first node: whenever the depth-first solver
    returns a tree, the breadth-first solver returns a tree too, for every
    bound on its rounds larger than the number of keys plus one, and its
    chain has no more moves. *)
Theorem breadth_first_no_longer_than_depth_first `{Puzzle C}
    f1 f2 (root : C) (ks : gset string) t :
  (∀ c1 c2, reachable root c1 → reachable root c2 → str c1 = str c2 → c1 = c2) →
  (∀ c, reachable root c → str c ≠ first_node_str root) →
  (∀ c, reachable root c → str c ∈ ks) → size ks + 1 < f2 →
  depth_first_solve f1 root = Some (Some t) →
  ∃ t', breadth_first_solve f2 root = Some (Some t') ∧ moves t' ≤ moves t.
Proof.
  intros Hinj Hfresh Hfin Hfuel Hdfs.
  destruct (solvers_solution f1 root t (or_introl Hdfs)) as [Hpath Hsolved].
  destruct (breadth_first_solve_returns root ks f2 Hfin Hfuel) as [[t'|] Hbfs].
  - exists t'. split; [done|]. by eapply bfs_moves_le.
  - pose proof (bfs_None_unsolvable f2 root _ _ Hinj Hfresh Hbfs Hpath).
    congruence.
Qed.

Lemma breadth_first_no_longer_than_depth_first_witness :
  size ({[str mn_slide; str mn_slide']} : gset string) + 1 < 5 ∧
  depth_first_solve 5 mn_slide = Some (Some (chain_tree mn_slide [mn_slide'])) ∧
  ∃ t', breadth_first_solve 5 mn_slide = Some (Some t') ∧
        moves t' ≤ moves (chain_tree mn_slide [mn_slide']).
Proof.
  assert (size ({[str mn_slide; str mn_slide']} : gset string) + 1 < 5) as Hfuel
    by (vm_compute; lia).
  assert (depth_first_solve 5 mn_slide =
          Some (Some (chain_tree mn_slide [mn_slide']))) as Ed
    by (vm_compute; reflexivity).
  split; [exact Hfuel|]. split; [exact Ed|].
  apply (breadth_first_no_longer_than_depth_first 5 5 mn_slide
           {[str mn_slide; str mn_slide']} _); [| | |exact Hfuel|exact Ed].
  - intros c1 c2 H1 H2.
    destruct (mn_slide_reachable c1 H1) as [->| ->],
             (mn_slide_reachable c2 H2) as [->| ->];
      vm_compute; intros Hk; try reflexivity; discriminate Hk.
  - intros c Hc. destruct (mn_slide_reachable c Hc) as [->| ->];
      vm_compute; intros Hk; discriminate Hk.
  - intros c Hc. destruct (mn_slide_reachable c Hc) as [->| ->]; set_solver.
Defined.
